(** * MADDPG coordinator and shared replay buffer

    A shallow embedding of [project3-collaboration-competition/maddpg.py]:
    the class [ReplayBuffer] (a bounded [collections.deque] sampled with
    [random.sample]) and the class [MADDPG] that owns the agents and the
    buffer.

    Python integers are [Z].  Exceptions are values of [Result]; a method is
    a state transformer that returns its result together with the state it
    leaves behind, so what was mutated before an exception stays mutated.
    The [ddpg.Agent] class and the standard [random] module are taken as
    parameters of the development: the methods of an agent are total
    functions of the agent and of the module-level state, and [random.sample]
    is known by its contract; where a claim is about how [random.sample]
    draws, it is CPython's, run on the answers of [_randbelow].  The fields of a transition are values of
    abstract types, so all rows of a column have one shape; tensors are
    lists of rows.  [saveModelParams] writes to a storage that is a parameter
    as well. *)

From Stdlib Require Import List ZArith Lia Bool Arith Permutation.
From Stdlib Require String Ascii DecimalString DecimalNat.
Import ListNotations.

Set Implicit Arguments.

(** ** Exceptions and effectful computations *)

Inductive Exn : Set :=
| ValueError
| IndexError
| OverflowError.

Inductive Result (A : Type) : Type :=
| Ok (a : A)
| Raise (e : Exn).

Arguments Ok {A} a.
Arguments Raise {A} e.

Definition is_ok {A : Type} (r : Result A) : bool :=
  match r with
  | Ok _ => true
  | Raise _ => false
  end.

(** A computation over a mutable state [S] that may raise. *)
Definition Eff (S A : Type) : Type := S -> Result A * S.

Definition ret {S A : Type} (a : A) : Eff S A :=
  fun s => (Ok a, s).

Definition bind {S A B : Type} (m : Eff S A) (k : A -> Eff S B) : Eff S B :=
  fun s =>
    match m s with
    | (Ok a, s') => k a s'
    | (Raise e, s') => (Raise e, s')
    end.

Definition raise {S A : Type} (e : Exn) : Eff S A :=
  fun s => (Raise e, s).

Definition gets {S A : Type} (f : S -> A) : Eff S A :=
  fun s => (Ok (f s), s).

Definition modify {S : Type} (f : S -> S) : Eff S unit :=
  fun s => (Ok tt, f s).

Definition lift_result {S A : Type} (r : Result A) : Eff S A :=
  fun s => (r, s).

Declare Scope eff_scope.
Delimit Scope eff_scope with eff.

Notation "x <- m ;; k" := (bind m (fun x => k))
  (at level 100, m at next level, right associativity) : eff_scope.
Notation "m ;;; k" := (bind m (fun _ => k))
  (at level 100, right associativity) : eff_scope.

(** [for x in xs: body(x)] *)
Fixpoint for_each {S X : Type} (xs : list X) (body : X -> Eff S unit) : Eff S unit :=
  match xs with
  | [] => ret tt
  | x :: rest => bind (body x) (fun _ => for_each rest body)
  end.

(** ** Python built-ins used by the module *)

(** [range(n)]: empty when [n] is not positive. *)
Definition range (n : Z) : list nat := seq 0 (Z.to_nat n).

(** [l[i]] for a non-negative index [i]. *)
Definition getitem {A : Type} (l : list A) (i : nat) : Result A :=
  match nth_error l i with
  | Some x => Ok x
  | None => Raise IndexError
  end.

(** [collections.deque(maxlen=n)]: the items, oldest first, and the bound. *)
Record deque (A : Type) : Type := mkDeque {
  items : list A;
  maxlen : Z
}.

(** The largest value of the C type [Py_ssize_t], on a 64-bit build. *)
Definition PY_SSIZE_T_MAX : Z := 9223372036854775807.

(** [deque(maxlen=n)] converts [n] to a [Py_ssize_t], which raises
    [OverflowError] when [n] does not fit; a negative [n] that fits is
    rejected with [ValueError]. *)
Definition deque_new {A : Type} (n : Z) : Result (deque A) :=
  if ((n <? - PY_SSIZE_T_MAX - 1) || (PY_SSIZE_T_MAX <? n))%Z
  then Raise OverflowError
  else if (n <? 0)%Z then Raise ValueError else Ok (mkDeque [] n).

(** [d.append(x)]: the item goes to the right end; if the deque is then
    longer than [maxlen], one item is popped from the left end. *)
Definition deque_append {A : Type} (d : deque A) (x : A) : deque A :=
  let grown := items d ++ [x] in
  if (maxlen d <? Z.of_nat (length grown))%Z
  then mkDeque (tl grown) (maxlen d)
  else mkDeque grown (maxlen d).

Definition deque_len {A : Type} (d : deque A) : Z := Z.of_nat (length (items d)).

(** [d.extend(xs)]: one [append] per element, in order. *)
Definition deque_extend {A : Type} (d : deque A) (xs : list A) : deque A :=
  fold_left deque_append xs d.

(** The invariant of a deque built by [deque_new] and [deque_append]. *)
Definition bounded {A : Type} (d : deque A) : Prop :=
  (0 <= maxlen d)%Z /\ (deque_len d <= maxlen d)%Z.

(** [np.vstack(rows)]: one row per element; an empty list of rows is
    rejected with [ValueError].  Rows are values of one type, so they all
    have the same shape. *)
Definition np_vstack {X : Type} (rows : list X) : Result (list X) :=
  match rows with
  | [] => Raise ValueError
  | _ :: _ => Ok rows
  end.

(** The elements of [l] at the positions [idx], in the order of [idx]. *)
Definition select {A : Type} (l : list A) (idx : list nat) : list A :=
  flat_map (fun i => match nth_error l i with
                     | Some x => [x]
                     | None => []
                     end) idx.

(** The last [n] elements of [l]. *)
Definition keep_last {A : Type} (n : nat) (l : list A) : list A :=
  skipn (length l - n) l.

(** ** Parameters of the development *)

(** The fields of a transition.  [Gamma] is the type of the discount
    factor, which the coordinator only passes on. *)
Class Spaces : Type := {
  State : Type;
  Action : Type;
  Reward : Type;
  Gamma : Type
}.

(** The [random] module keeps one generator for the whole process.
    [seed_int s] is the generator state after [random.seed(s)];
    [sample_positions g n k] gives the positions [random.sample] picks in a
    population of [n] items when asked for [k] of them, and the generator
    state afterwards. *)
Class RandomModule : Type := {
  RandomState : Type;
  seed_int : Z -> RandomState;
  sample_positions : RandomState -> nat -> nat -> list nat * RandomState
}.

(** The documented contract of [random.sample]: sampling without
    replacement, that is [k] pairwise distinct positions of the population. *)
Definition without_replacement (R : RandomModule) : Prop :=
  forall (g : RandomState) (n k : nat),
    k <= n ->
    length (fst (sample_positions g n k)) = k /\
    NoDup (fst (sample_positions g n k)) /\
    Forall (fun i => i < n) (fst (sample_positions g n k)).

Section Model.

Context {Sp : Spaces} {R : RandomModule}.

(** What lives at module level, outside every object: the generator of
    [random], and the values the operating system would hand to
    [random.seed(None)]. *)
Record Globals : Type := mkGlobals {
  random_state : RandomState;
  os_entropy : list Z
}.

(** [random.seed(a)]; it returns [None]. *)
Definition random_seed (a : option Z) (G : Globals) : Globals :=
  match a with
  | Some s => mkGlobals (seed_int s) (os_entropy G)
  | None => mkGlobals (seed_int (hd 0%Z (os_entropy G))) (tl (os_entropy G))
  end.

(** [random.sample(population, k)]: [ValueError] unless
    [0 <= k <= len(population)]. *)
Definition random_sample {A : Type} (population : list A) (k : Z)
  : Eff Globals (list A) :=
  fun G =>
    let n := length population in
    if ((0 <=? k) && (k <=? Z.of_nat n))%Z
    then
      let (idx, g') := sample_positions (random_state G) n (Z.to_nat k) in
      (Ok (select population idx), mkGlobals g' (os_entropy G))
    else (Raise ValueError, G).

(** ** ReplayBuffer *)

(** [namedtuple("Experience", ["state", "action", "reward", "next_state", "done"])] *)
Record Experience : Type := mkExperience {
  state : State;
  action : Action;
  reward : Reward;
  next_state : State;
  done : bool
}.

(** What [sample] returns: five columns, one row per drawn experience.
    The conversion of each column to a float tensor on the device is not
    modelled, except that [done] becomes 0 or 1. *)
Record Batch : Type := mkBatch {
  states : list State;
  actions : list Action;
  rewards : list Reward;
  next_states : list State;
  dones : list Z
}.

Record ReplayBuffer : Type := mkReplayBuffer {
  seed : option Z;
  action_size : Z;
  replay_memory : deque Experience;
  rb_batch_size : Z
}.

Definition set_replay_memory (self : ReplayBuffer) (d : deque Experience)
  : ReplayBuffer :=
  mkReplayBuffer (seed self) (action_size self) d (rb_batch_size self).

(** A method of the buffer runs on the buffer and on the module state. *)
Definition on_globals {X A : Type} (m : Eff Globals A) : Eff (X * Globals) A :=
  fun s =>
    let (r, G') := m (snd s) in (r, (fst s, G')).

(** [ReplayBuffer.__init__]: [self.seed] receives the return value of
    [random.seed], that is [None]; the call seeds the generator of the
    [random] module. *)
Definition ReplayBuffer_init (action_size buffer_size batch_size : Z)
  (seed : option Z) : Eff Globals ReplayBuffer :=
  (modify (random_seed seed) ;;;
   memory <- lift_result (deque_new buffer_size) ;;
   ret (mkReplayBuffer None action_size memory batch_size))%eff.

(** [ReplayBuffer.add] *)
Definition ReplayBuffer_add (state : State) (action : Action) (reward : Reward)
  (next_state : State) (done : bool) : Eff (ReplayBuffer * Globals) unit :=
  modify (fun s =>
    let self := fst s in
    let experience_tuple := mkExperience state action reward next_state done in
    (set_replay_memory self (deque_append (replay_memory self) experience_tuple),
     snd s)).

(** [ReplayBuffer.sample].  The stored items are all [Experience] tuples,
    so the filter [if e is not None] keeps every drawn item. *)
Definition ReplayBuffer_sample : Eff (ReplayBuffer * Globals) Batch :=
  (self <- gets fst ;;
   experiences <- on_globals
     (random_sample (items (replay_memory self)) (rb_batch_size self)) ;;
   states <- lift_result (np_vstack (map state experiences)) ;;
   actions <- lift_result (np_vstack (map action experiences)) ;;
   rewards <- lift_result (np_vstack (map reward experiences)) ;;
   next_states <- lift_result (np_vstack (map next_state experiences)) ;;
   dones <- lift_result (np_vstack (map done experiences)) ;;
   ret (mkBatch states actions rewards next_states (map Z.b2z dones)))%eff.

(** [ReplayBuffer.__len__] *)
Definition ReplayBuffer_len (self : ReplayBuffer) : Z :=
  deque_len (replay_memory self).

(** ** The agent collaborator

    [ddpg.Agent] is used through its constructor and its methods [act],
    [reset] and [learn].  Each may read and advance the module state. *)
Class AgentClass : Type := {
  Agent : Type;
  Agent_new : Z -> Z -> option Z -> Globals -> Agent * Globals;
  Agent_act : Agent -> State -> bool -> Globals -> Action * Agent * Globals;
  Agent_reset : Agent -> Globals -> Agent * Globals;
  Agent_learn : Agent -> Batch -> Gamma -> Globals -> Agent * Globals
}.

Context {Ag : AgentClass}.

(** ** MADDPG *)

Record MADDPG : Type := mkMADDPG {
  num_agents : Z;
  batch_size : Z;
  gamma : Gamma;
  minsamples_before_train : Z;
  agents : list Agent;
  memory : ReplayBuffer
}.

(** The calls a method makes, oldest first. *)
Inductive Event : Type :=
| CallAdd (e : Experience)
| CallSample (r : Result Batch)
| CallLearn (experiences : Batch) (gam : Gamma)
| CallAgentLearn (i : nat) (experiences : Batch) (gam : Gamma)
| CallAgentAct (i : nat) (s : State) (add_noise : bool) (a : Action)
| CallAgentReset (i : nat).

Record Process : Type := mkProcess {
  self : MADDPG;
  globals : Globals;
  calls : list Event
}.

Definition set_agents (m : MADDPG) (ags : list Agent) : MADDPG :=
  mkMADDPG (num_agents m) (batch_size m) (gamma m) (minsamples_before_train m)
    ags (memory m).

Definition set_memory (m : MADDPG) (mem : ReplayBuffer) : MADDPG :=
  mkMADDPG (num_agents m) (batch_size m) (gamma m) (minsamples_before_train m)
    (agents m) mem.

Definition emit (ev : Event) : Eff Process unit :=
  modify (fun p => mkProcess (self p) (globals p) (calls p ++ [ev])).

(** Run a method of [self.memory]. *)
Definition on_memory {A : Type} (m : Eff (ReplayBuffer * Globals) A) : Eff Process A :=
  fun p =>
    let (r, s') := m (memory (self p), globals p) in
    (r, mkProcess (set_memory (self p) (fst s')) (snd s') (calls p)).

(** [[Agent(state_size, action_size, seed) for _ in range(num_agents)]] *)
Fixpoint new_agents (rng : list nat) (state_size action_size : Z) (seed : option Z)
  : Eff Globals (list Agent) :=
  match rng with
  | [] => ret []
  | _ :: rest =>
      fun G =>
        let (agent, G1) := Agent_new state_size action_size seed G in
        bind (new_agents rest state_size action_size seed)
             (fun others => ret (agent :: others)) G1
  end.

(** [MADDPG.__init__] *)
Definition MADDPG_init (num_agents state_size action_size : Z) (seed : option Z)
  (buffer_size batch_size : Z) (gamma : Gamma) (minsamples_before_train : Z)
  : Eff Globals MADDPG :=
  (agents <- new_agents (range num_agents) state_size action_size seed ;;
   memory <- ReplayBuffer_init action_size buffer_size batch_size seed ;;
   ret (mkMADDPG num_agents batch_size gamma minsamples_before_train agents memory))%eff.

(** The loop of [act] over [zip(states, self.agents)]: the actions, the
    agents that acted, the module state, and the calls made. *)
Fixpoint act_loop (i : nat) (pairs : list (State * Agent)) (add_noise : bool)
  (G : Globals) : list Action * list Agent * Globals * list Event :=
  match pairs with
  | [] => ([], [], G, [])
  | (state, agent) :: rest =>
      let '(action, agent', G1) := Agent_act agent state add_noise G in
      let '(actions, rest', G2, evs) := act_loop (S i) rest add_noise G1 in
      (action :: actions, agent' :: rest', G2,
       CallAgentAct i state add_noise action :: evs)
  end.

(** [MADDPG.act]: [zip] stops at the shorter of its two arguments; the
    agents past that point are not called. *)
Definition MADDPG_act (states : list State) (add_noise : bool)
  : Eff Process (list Action) :=
  fun p =>
    let pairs := combine states (agents (self p)) in
    let '(actions, acted, G', evs) := act_loop 0 pairs add_noise (globals p) in
    (Ok actions,
     mkProcess (set_agents (self p) (acted ++ skipn (length pairs) (agents (self p))))
               G' (calls p ++ evs)).

(** The loop of [reset] over [self.agents]. *)
Fixpoint reset_loop (i : nat) (ags : list Agent) (G : Globals)
  : list Agent * Globals * list Event :=
  match ags with
  | [] => ([], G, [])
  | agent :: rest =>
      let (agent', G1) := Agent_reset agent G in
      let '(rest', G2, evs) := reset_loop (S i) rest G1 in
      (agent' :: rest', G2, CallAgentReset i :: evs)
  end.

(** [MADDPG.reset] *)
Definition MADDPG_reset : Eff Process unit :=
  fun p =>
    let '(ags', G', evs) := reset_loop 0 (agents (self p)) (globals p) in
    (Ok tt, mkProcess (set_agents (self p) ags') G' (calls p ++ evs)).

(** The loop of [learn] over [self.agents]: every agent receives the same
    [experiences]. *)
Fixpoint learn_loop (i : nat) (ags : list Agent) (experiences : Batch) (gam : Gamma)
  (G : Globals) : list Agent * Globals * list Event :=
  match ags with
  | [] => ([], G, [])
  | agent :: rest =>
      let (agent', G1) := Agent_learn agent experiences gam G in
      let '(rest', G2, evs) := learn_loop (S i) rest experiences gam G1 in
      (agent' :: rest', G2, CallAgentLearn i experiences gam :: evs)
  end.

(** [MADDPG.learn] *)
Definition MADDPG_learn (experiences : Batch) (gam : Gamma) : Eff Process unit :=
  (emit (CallLearn experiences gam) ;;;
   fun p =>
     let '(ags', G', evs) :=
       learn_loop 0 (agents (self p)) experiences gam (globals p) in
     (Ok tt, mkProcess (set_agents (self p) ags') G' (calls p ++ evs)))%eff.

(** [self.memory.add(...)] as called from [step]. *)
Definition memory_add (state : State) (action : Action) (reward : Reward)
  (next_state : State) (done : bool) : Eff Process unit :=
  (on_memory (ReplayBuffer_add state action reward next_state done) ;;;
   emit (CallAdd (mkExperience state action reward next_state done)))%eff.

(** [self.memory.sample()] as called from [step]; the call is recorded
    with its outcome, also when it raises. *)
Definition memory_sample : Eff Process Batch :=
  fun p =>
    let (r, p') := on_memory ReplayBuffer_sample p in
    (r, mkProcess (self p') (globals p') (calls p' ++ [CallSample r])).

(** The body of the first loop of [step]: the arguments are indexed from
    left to right, then the transition is added. *)
Definition save_trajectory (states : list State) (actions : list Action)
  (rewards : list Reward) (next_states : list State) (dones : list bool)
  (i : nat) : Eff Process unit :=
  (state <- lift_result (getitem states i) ;;
   action <- lift_result (getitem actions i) ;;
   reward <- lift_result (getitem rewards i) ;;
   next_state <- lift_result (getitem next_states i) ;;
   done <- lift_result (getitem dones i) ;;
   memory_add state action reward next_state done)%eff.

(** The body of the second loop of [step]: one draw, one [learn]. *)
Definition learn_iteration : Eff Process unit :=
  (experience <- memory_sample ;;
   gam <- gets (fun p => gamma (self p)) ;;
   MADDPG_learn experience gam)%eff.

(** [MADDPG.step] *)
Definition MADDPG_step (states : list State) (actions : list Action)
  (rewards : list Reward) (next_states : list State) (dones : list bool)
  : Eff Process unit :=
  (n <- gets (fun p => num_agents (self p)) ;;
   for_each (range n)
     (save_trajectory states actions rewards next_states dones) ;;;
   len <- gets (fun p => ReplayBuffer_len (memory (self p))) ;;
   threshold <- gets (fun p => minsamples_before_train (self p)) ;;
   if (len >? threshold)%Z
   then
     n <- gets (fun p => num_agents (self p)) ;;
     for_each (range n) (fun _ => learn_iteration)
   else ret tt)%eff.

End Model.

(** ** Sequences of calls, as a caller would make them *)

Section Callers.

Context {Sp : Spaces} {R : RandomModule} {Ag : AgentClass}.

(** One [add] call per experience, in order. *)
Definition ReplayBuffer_add_all (es : list Experience)
  : Eff (ReplayBuffer * Globals) unit :=
  for_each es (fun e =>
    ReplayBuffer_add (state e) (action e) (reward e) (next_state e) (done e)).

(** The five columns built from the drawn experiences. *)
Definition batch_of (experiences : list Experience) : Batch :=
  mkBatch (map state experiences) (map action experiences)
    (map reward experiences) (map next_state experiences)
    (map Z.b2z (map done experiences)).

(** A caller that alternates [add] and [sample] on one buffer and keeps
    the outcome of every [sample], catching what it raises. *)
Inductive BufferCall : Type :=
| DoAdd (e : Experience)
| DoSample.

Fixpoint run_calls (cs : list BufferCall) (s : ReplayBuffer * Globals)
  : list (Result Batch) * (ReplayBuffer * Globals) :=
  match cs with
  | [] => ([], s)
  | DoAdd e :: rest =>
      let s1 := snd (ReplayBuffer_add (state e) (action e) (reward e)
                       (next_state e) (done e) s) in
      run_calls rest s1
  | DoSample :: rest =>
      let (r, s1) := ReplayBuffer_sample s in
      let (rs, s2) := run_calls rest s1 in
      (r :: rs, s2)
  end.

(** The outcomes of the [sample] calls of a caller that constructs a buffer
    and then makes the calls [cs] on it; [None] if the constructor raises. *)
Definition sample_outcomes (action_size buffer_size batch_size : Z)
  (seed : option Z) (cs : list BufferCall) (G : Globals)
  : option (list (Result Batch)) :=
  match ReplayBuffer_init action_size buffer_size batch_size seed G with
  | (Ok buf, G') => Some (fst (run_calls cs (buf, G')))
  | (Raise _, _) => None
  end.

(** The transitions a [step] call reads from its five arguments:
    position [i] holds the [i]-th element of each. *)
Fixpoint transitions (states : list State) (actions : list Action)
  (rewards : list Reward) (next_states : list State) (dones : list bool)
  : list Experience :=
  match states, actions, rewards, next_states, dones with
  | s :: ss, a :: aa, r :: rr, s' :: ss', d :: dd =>
      mkExperience s a r s' d :: transitions ss aa rr ss' dd
  | _, _, _, _, _ => []
  end.

(** The process after the recording phase of [step]: the experiences [es]
    were added to [self.memory], and nothing else happened. *)
Definition recorded (es : list Experience) (p : Process) : Process :=
  mkProcess
    (set_memory (self p)
       (fst (snd (ReplayBuffer_add_all es (memory (self p), globals p)))))
    (globals p)
    (calls p ++ map CallAdd es).

(** What the learning phase of [step] leaves alone: the configuration,
    the buffer, and the number of agents. *)
Definition keeps_configuration (p p' : Process) : Prop :=
  num_agents (self p') = num_agents (self p) /\
  batch_size (self p') = batch_size (self p) /\
  gamma (self p') = gamma (self p) /\
  minsamples_before_train (self p') = minsamples_before_train (self p) /\
  memory (self p') = memory (self p) /\
  length (agents (self p')) = length (agents (self p)).

(** The agent list has [num_agents] entries, as [__init__] leaves it. *)
Definition coherent (p : Process) : Prop :=
  Z.of_nat (length (agents (self p))) = num_agents (self p).

(** What no method changes: [num_agents] and the number of agents. *)
Definition same_roster (p p' : Process) : Prop :=
  num_agents (self p') = num_agents (self p) /\
  length (agents (self p')) = length (agents (self p)).

(** The module state just before the [i]-th agent is asked to act. *)
Definition globals_before_act (i : nat) (states : list State) (ags : list Agent)
  (add_noise : bool) (G : Globals) : Globals :=
  snd (fst (act_loop 0 (firstn i (combine states ags)) add_noise G)).

(** Counting the calls of a trace. *)
Definition is_add (ev : Event) : bool :=
  match ev with CallAdd _ => true | _ => false end.

Definition is_agent_act (ev : Event) : bool :=
  match ev with CallAgentAct _ _ _ _ => true | _ => false end.

Definition is_learn (ev : Event) : bool :=
  match ev with CallLearn _ _ => true | _ => false end.

Definition is_sample (ev : Event) : bool :=
  match ev with CallSample _ => true | _ => false end.

Definition is_agent_learn (ev : Event) : bool :=
  match ev with CallAgentLearn _ _ _ => true | _ => false end.

Definition count_calls (f : Event -> bool) (tr : list Event) : nat :=
  length (filter f tr).

(** The learning iterations as the specification words them: [n] times, a
    batch is drawn afresh from the buffer, with the generator as the
    iteration before left it, and every agent learns from that batch.  The
    result is the batches in the order drawn, and the agents and the module
    state at the end; [None] if a draw raises. *)
Fixpoint fresh_draws (n : nat) (mem : ReplayBuffer) (gam : Gamma)
  (ags : list Agent) (G : Globals) : option (list Batch * list Agent * Globals) :=
  match n with
  | O => Some ([], ags, G)
  | S n' =>
      match ReplayBuffer_sample (mem, G) with
      | (Ok b, s) =>
          let '(ags1, G2, _) := learn_loop 0 ags b gam (snd s) in
          match fresh_draws n' mem gam ags1 G2 with
          | Some (bs, ags', G') => Some (b :: bs, ags', G')
          | None => None
          end
      | (Raise _, _) => None
      end
  end.

(** The calls of one learning iteration of [step] with [k] agents: the
    draw, the coordinator's [learn], and each agent's [learn] with the
    batch that was drawn. *)
Definition iteration_calls (k : nat) (gam : Gamma) (b : Batch) : list Event :=
  CallSample (Ok b) :: CallLearn b gam ::
  map (fun i => CallAgentLearn i b gam) (seq 0 k).

End Callers.

(** ** A concrete instance, to run the model on *)

(** Transitions are tagged with integers. *)
Definition tagged : Spaces :=
  {| State := Z; Action := Z; Reward := Z; Gamma := Z |}.

(** A small congruential generator.  A sample of [k] among [n] is the
    first [k] positions of [0..n-1] rotated by the current state. *)
Definition lcg_next (g : Z) : Z := ((g * 1103515245 + 12345) mod 2147483648)%Z.

Definition rotate {A : Type} (r : nat) (l : list A) : list A :=
  skipn r l ++ firstn r l.

Definition lcg_positions (g : Z) (n k : nat) : list nat * Z :=
  (firstn k (rotate (Z.to_nat (g mod Z.max 1 (Z.of_nat n))) (seq 0 n)), lcg_next g).

Definition lcg : RandomModule :=
  {| RandomState := Z;
     seed_int := fun s => lcg_next (Z.abs s);
     sample_positions := lcg_positions |}.

(** An agent that counts the batches it has learnt from; its action is its
    state input shifted by that count, plus one when noise is requested. *)
Definition counting_act (agent s : Z) (add_noise : bool) (G : @Globals lcg)
  : Z * Z * @Globals lcg :=
  ((s + agent + (if add_noise then 1 else 0))%Z, agent, G).

Definition counting_learn (agent : Z) (b : @Batch tagged) (gam : Z) (G : @Globals lcg)
  : Z * @Globals lcg :=
  ((agent + 1)%Z, G).

Definition counting_agent : @AgentClass tagged lcg :=
  @Build_AgentClass tagged lcg Z
    (fun _ _ _ G => (0%Z, G))
    counting_act
    (fun agent G => (agent, G))
    counting_learn.

(** The experience tagged [t]. *)
Definition tag (t : Z) : @Experience tagged := mkExperience (Sp := tagged) t t t t false.

Definition fresh_globals : @Globals lcg := mkGlobals (R := lcg) 0%Z [].

(** The buffer after [ReplayBuffer(action_size, buffer_size, batch_size, seed)]
    and one [add] per tag; [None] if the constructor raises. *)
Definition buffer_with (buffer_size batch_size : Z) (s : option Z) (tags : list Z)
  (G : @Globals lcg) : option (@ReplayBuffer tagged * @Globals lcg) :=
  match ReplayBuffer_init (Sp := tagged) 2 buffer_size batch_size s G with
  | (Ok b, G1) => Some (snd (ReplayBuffer_add_all (map tag tags) (b, G1)))
  | (Raise _, _) => None
  end.

(** The process after [MADDPG(num_agents, 2, 2, seed, buffer_size, batch_size,
    gamma, minsamples_before_train)]; [None] if the constructor raises. *)
Definition coordinator (num_agents : Z) (s : option Z) (buffer_size batch_size : Z)
  (minsamples_before_train : Z) : option (@Process tagged lcg counting_agent) :=
  match MADDPG_init (Ag := counting_agent) num_agents 2 2 s buffer_size batch_size
          99%Z minsamples_before_train fresh_globals with
  | (Ok m, G) => Some (mkProcess m G [])
  | (Raise _, _) => None
  end.

(** Two buffers constructed one after the other with the same seed and
    given the same [add] calls; then one [sample] on the first and one on
    the second. *)
Definition two_buffers (s : Z) (tags : list Z)
  : option (@ReplayBuffer tagged * @ReplayBuffer tagged *
            (Result (@Batch tagged) * Result (@Batch tagged))) :=
  match buffer_with 5 2 (Some s) tags fresh_globals with
  | Some (b1, G1) =>
      match buffer_with 5 2 (Some s) tags G1 with
      | Some (b2, G2) =>
          let (r1, s1) := ReplayBuffer_sample (b1, G2) in
          let (r2, _) := ReplayBuffer_sample (b2, snd s1) in
          Some (b1, b2, (r1, r2))
      | None => None
      end
  | None => None
  end.

(** One [step] call in which agent [i] contributes the transition tagged
    with the [i]-th of [tags]. *)
Definition tagged_step (tags : list Z) : Eff (@Process tagged lcg counting_agent) unit :=
  MADDPG_step (Sp := tagged) (Ag := counting_agent)
    tags tags tags tags (map (fun _ => false) tags).

(** The process after a sequence of such calls, whatever they returned. *)
Definition after_steps (steps : list (list Z)) (p : @Process tagged lcg counting_agent)
  : @Process tagged lcg counting_agent :=
  fold_left (fun q tags => snd (tagged_step tags q)) steps p.

(** ** Further callers *)

Section MoreCallers.

Context {Sp : Spaces} {R : RandomModule} {Ag : AgentClass}.

(** The five arguments of one [step] call. *)
Record StepCall : Type := mkStepCall {
  call_states : list State;
  call_actions : list Action;
  call_rewards : list Reward;
  call_next_states : list State;
  call_dones : list bool
}.

(** Every argument of the call has length [k]. *)
Definition well_formed_call (k : Z) (c : StepCall) : Prop :=
  Z.of_nat (length (call_states c)) = k /\
  Z.of_nat (length (call_actions c)) = k /\
  Z.of_nat (length (call_rewards c)) = k /\
  Z.of_nat (length (call_next_states c)) = k /\
  Z.of_nat (length (call_dones c)) = k.

Definition call_transitions (c : StepCall) : list Experience :=
  transitions (call_states c) (call_actions c) (call_rewards c)
    (call_next_states c) (call_dones c).

(** A caller that makes the [step] calls [cs] one after the other and does
    not catch what they raise. *)
Definition run_steps (cs : list StepCall) : Eff Process unit :=
  for_each cs (fun c =>
    MADDPG_step (call_states c) (call_actions c) (call_rewards c)
      (call_next_states c) (call_dones c)).

(** The buffer [mem] after the [add] calls of the [step] call [c]. *)
Definition memory_after_call (mem : ReplayBuffer) (c : StepCall) : ReplayBuffer :=
  set_replay_memory mem (deque_extend (replay_memory mem) (call_transitions c)).

(** Among the calls [cs] made from the buffer [mem], the number of those
    whose recording phase leaves more than [threshold] transitions. *)
Fixpoint training_steps (threshold : Z) (mem : ReplayBuffer) (cs : list StepCall)
  : nat :=
  match cs with
  | [] => 0
  | c :: rest =>
      (if (ReplayBuffer_len (memory_after_call mem c) >? threshold)%Z then 1 else 0)
      + training_steps threshold (memory_after_call mem c) rest
  end.

(** The buffer did not lose length and the threshold is the same. *)
Definition never_shrinks (p p' : Process) : Prop :=
  (ReplayBuffer_len (memory (self p)) <= ReplayBuffer_len (memory (self p')))%Z /\
  minsamples_before_train (self p') = minsamples_before_train (self p).

(** The module state just before the [i]-th agent is reset. *)
Definition globals_before_reset (i : nat) (ags : list Agent) (G : Globals) : Globals :=
  snd (fst (reset_loop 0 (firstn i ags) G)).

(** The module state just before the [i]-th agent learns. *)
Definition globals_before_learn (i : nat) (ags : list Agent) (b : Batch)
  (gam : Gamma) (G : Globals) : Globals :=
  snd (fst (learn_loop 0 (firstn i ags) b gam G)).

(** ** Saving the parameters

    [saveModelParams] reads two parameter sets from each agent,
    [agent.actor_local.state_dict()] and [agent.critic_local.state_dict()],
    and hands each to [torch.save] with a path built from the agent's index. *)
Class AgentNetworks : Type := {
  StateDict : Type;
  actor_local_state_dict : Agent -> StateDict;
  critic_local_state_dict : Agent -> StateDict
}.

End MoreCallers.

(** The outcome of a write: done, or the error the storage raised. *)
Inductive IOResult : Set :=
| Written
| WriteError.

(** The storage [torch.save] writes to: what a path holds, and the write. *)
Class Storage (Payload : Type) : Type := {
  Disk : Type;
  disk_read : Disk -> String.string -> option Payload;
  torch_save : Payload -> String.string -> Disk -> IOResult * Disk
}.

(** A write that returns has stored the object under its path and has left
    every other path as it was. *)
Definition overwrites {Payload : Type} (St : Storage Payload) : Prop :=
  forall (obj : Payload) (path : String.string) (d d' : Disk),
    torch_save obj path d = (Written, d') ->
    disk_read d' path = Some obj /\
    forall q : String.string, q <> path -> disk_read d' q = disk_read d q.

Module Paths.

Import String.

(** [f"{i}"] for an index [i]. *)
Definition decimal (i : nat) : string :=
  DecimalString.NilEmpty.string_of_uint (Nat.to_uint i).

(** [f"actor_agent_{i}.pth"] *)
Definition actor_path (i : nat) : string :=
  ("actor_agent_" ++ decimal i ++ ".pth")%string.

(** [f"critic_agent_{i}.pth"] *)
Definition critic_path (i : nat) : string :=
  ("critic_agent_" ++ decimal i ++ ".pth")%string.

End Paths.

Section Saving.

Context {Sp : Spaces} {R : RandomModule} {Ag : AgentClass}
        {Nets : AgentNetworks} {St : Storage StateDict}.

(** The loop of [saveModelParams] over [enumerate(self.agents)]: the actor
    first, then the critic; an error of a write ends the loop. *)
Fixpoint save_loop (i : nat) (ags : list Agent) (d : Disk) : IOResult * Disk :=
  match ags with
  | [] => (Written, d)
  | agent :: rest =>
      match torch_save (actor_local_state_dict agent) (Paths.actor_path i) d with
      | (Written, d1) =>
          match torch_save (critic_local_state_dict agent) (Paths.critic_path i) d1 with
          | (Written, d2) => save_loop (S i) rest d2
          | (WriteError, d2) => (WriteError, d2)
          end
      | (WriteError, d1) => (WriteError, d1)
      end
  end.

(** [MADDPG.saveModelParams] *)
Definition MADDPG_saveModelParams (p : Process) (d : Disk) : IOResult * Disk :=
  save_loop 0 (agents (self p)) d.

End Saving.

(** The parameters of a counting agent: its count, and its negation. *)
Definition counting_networks : @AgentNetworks tagged lcg counting_agent :=
  @Build_AgentNetworks tagged lcg counting_agent Z (fun agent => agent) Z.opp.

(** A storage with room for a number of writes: the files, latest first. *)
Record SmallDisk : Type := mkSmallDisk {
  free : nat;
  files : list (String.string * Z)
}.

Definition small_read (d : SmallDisk) (path : String.string) : option Z :=
  match find (fun f => String.eqb (fst f) path) (files d) with
  | Some f => Some (snd f)
  | None => None
  end.

Definition small_save (obj : Z) (path : String.string) (d : SmallDisk)
  : IOResult * SmallDisk :=
  match free d with
  | O => (WriteError, d)
  | S n => (Written, mkSmallDisk n ((path, obj) :: files d))
  end.

Definition small_storage : Storage Z :=
  {| Disk := SmallDisk; disk_read := small_read; torch_save := small_save |}.

(** ** [random.sample], as CPython implements it

    [Lib/random.py] draws with [_randbelow]: a call [_randbelow(m)] answers
    with one of the [m] integers below [m].  The generator is taken by the
    record of the [_randbelow] calls it goes on to serve: the entry [(m, j)]
    stands for a call [_randbelow(m)] answered by [j].  A record is a run of
    [sample] when the calls of the run are its entries, in order; on any
    other record the run is undefined ([None]). *)

Definition Tape : Type := list (nat * nat).

(** [self._randbelow(m)] *)
Definition randbelow (m : nat) (t : Tape) : option (nat * Tape) :=
  match t with
  | (m', j) :: t' => if (m' =? m) && (j <? m) then Some (j, t') else None
  | [] => None
  end.

(** [l[j] = y], for [j] within the list. *)
Fixpoint setitem {A : Type} (l : list A) (j : nat) (y : A) : list A :=
  match l, j with
  | [], _ => []
  | _ :: l', O => y :: l'
  | x :: l', S j' => x :: setitem l' j' y
  end.

(** The first branch of [sample], for a population that is small next to
    the sample:
<<
    pool = list(population)
    for i in range(k):
        j = randbelow(n - i)
        result[i] = pool[j]
        pool[j] = pool[n - i - 1]
>>  *)
Fixpoint pool_loop {A : Type} (n : nat) (rng : list nat) (pool : list A) (t : Tape)
  : option (list A * Tape) :=
  match rng with
  | [] => Some ([], t)
  | i :: rng' =>
      match randbelow (n - i) t with
      | None => None
      | Some (j, t1) =>
          match nth_error pool j, nth_error pool (n - i - 1) with
          | Some x, Some y =>
              match pool_loop n rng' (setitem pool j y) t1 with
              | Some (result, t2) => Some (x :: result, t2)
              | None => None
              end
          | _, _ => None
          end
      end
  end.

(** [j in selected] *)
Definition contains (selected : list nat) (j : nat) : bool :=
  existsb (Nat.eqb j) selected.

(** The inner loop of the second branch:
<<
    j = randbelow(n)
    while j in selected:
        j = randbelow(n)
>>  *)
Fixpoint reselect (n : nat) (selected : list nat) (t : Tape) : option (nat * Tape) :=
  match t with
  | [] => None
  | (m, j) :: t' =>
      if (m =? n) && (j <? n)
      then if contains selected j then reselect n selected t' else Some (j, t')
      else None
  end.

(** The second branch of [sample]:
<<
    selected = set()
    for i in range(k):
        j = randbelow(n)
        while j in selected:
            j = randbelow(n)
        selected_add(j)
        result[i] = population[j]
>>  *)
Fixpoint set_loop {A : Type} (population : list A) (n : nat) (rng : list nat)
  (selected : list nat) (t : Tape) : option (list A * Tape) :=
  match rng with
  | [] => Some ([], t)
  | _ :: rng' =>
      match reselect n selected t with
      | None => None
      | Some (j, t1) =>
          match nth_error population j with
          | Some x =>
              match set_loop population n rng' (j :: selected) t1 with
              | Some (result, t2) => Some (x :: result, t2)
              | None => None
              end
          | None => None
          end
      end
  end.

(** [4 ** _ceil(_log(k * 3, 4))]: the least power of 4 that is at least
    [3 * k]. *)
Fixpoint power_of_4_from (fuel p target : nat) : nat :=
  match fuel with
  | O => p
  | S fuel' => if target <=? p then p else power_of_4_from fuel' (4 * p) target
  end.

(** The size below which [sample] takes the first branch:
<<
    setsize = 21
    if k > 5:
        setsize += 4 ** _ceil(_log(k * 3, 4))
>>
    CPython computes the logarithm in floating point, so for very large [k]
    its value can differ from this one; what is proved about [sample] below
    holds for every value of [setsize]. *)
Definition set_size (k : nat) : nat :=
  21 + (if 5 <? k then power_of_4_from (3 * k) 1 (3 * k) else 0).

(** The body of [sample] after the check [0 <= k <= n]. *)
Definition cpython_sample {A : Type} (setsize : nat) (population : list A)
  (k : nat) (t : Tape) : option (list A * Tape) :=
  let n := length population in
  if n <=? setsize
  then pool_loop n (seq 0 k) population t
  else set_loop population n (seq 0 k) [] t.

(** The [random] module with this [sample].  [outcomes s] is the record the
    generator serves after [random.seed(s)]; [setsize k] is the branch
    threshold.  The positions drawn are the sample of [range(n)].  A record
    that is no run of the draw stands for no execution of the code: the
    entry for it is arbitrary, and nothing is proved from it. *)
Definition cpython_random (setsize : nat -> nat) (outcomes : Z -> Tape) : RandomModule :=
  {| RandomState := Tape;
     seed_int := outcomes;
     sample_positions := fun t n k =>
       match cpython_sample (setsize k) (seq 0 n) k t with
       | Some drawn => drawn
       | None => ([], t)
       end |}.

(** *** How likely a draw is

    An arrangement is a list of [k] pairwise distinct positions below [n],
    in the order drawn. *)
Definition arrangement (n k : nat) (a : list nat) : Prop :=
  length a = k /\ NoDup a /\ Forall (fun i => i < n) a.

(** The record [t] is a run of [sample] that returns the positions [a]. *)
Definition draws (setsize n k : nat) (t : Tape) (a : list nat) : Prop :=
  cpython_sample setsize (seq 0 n) k t = Some (a, []).

(** The calls of a record, and the number of records with the same calls:
    every answer of [_randbelow(m)] being one of [m] equally likely values,
    a record [t] is served with probability one in [odds t]. *)
Definition bounds (t : Tape) : list nat := map fst t.

Definition odds (t : Tape) : nat := fold_right Nat.mul 1 (bounds t).

(** Two results are equally likely when the runs that return one and the
    runs that return the other correspond one to one, corresponding runs
    making the same calls to [_randbelow], so having the same probability. *)
Definition equally_likely (setsize n k : nat) (a a' : list nat) : Prop :=
  exists f g : Tape -> Tape,
    (forall t, draws setsize n k t a ->
               draws setsize n k (f t) a' /\
               bounds (f t) = bounds t /\ odds (f t) = odds t /\ g (f t) = t) /\
    (forall t, draws setsize n k t a' ->
               draws setsize n k (g t) a /\
               bounds (g t) = bounds t /\ odds (g t) = odds t /\ f (g t) = t).

(** The position of the first [x] in [l]. *)
Fixpoint index_of (x : nat) (l : list nat) : nat :=
  match l with
  | [] => 0
  | y :: l' => if x =? y then 0 else S (index_of x l')
  end.

(** The run of the first branch that returns [a]: at each step, the answer
    is the place of the wanted position among the live part of the pool. *)
Fixpoint pool_record (n : nat) (rng : list nat) (pool : list nat) (a : list nat)
  : Tape :=
  match rng, a with
  | i :: rng', x :: a' =>
      let j := index_of x (firstn (n - i) pool) in
      match nth_error pool (n - i - 1) with
      | Some y => (n - i, j) :: pool_record n rng' (setitem pool j y) a'
      | None => []
      end
  | _, _ => []
  end.

(** The positions below [n], those of [a] first. *)
Definition complete (n : nat) (a : list nat) : list nat :=
  a ++ filter (fun i => negb (contains a i)) (seq 0 n).

(** The renaming of the positions below [n] that takes [a] to [a'], and a
    record with its answers renamed. *)
Definition relabel (n : nat) (a a' : list nat) (j : nat) : nat :=
  if j <? n then nth (index_of j (complete n a)) (complete n a') j else j.

Definition relabel_record (n : nat) (a a' : list nat) (t : Tape) : Tape :=
  map (fun c => (fst c, relabel n a a' (snd c))) t.

(** Records of answers in range.  The first branch calls
    [_randbelow(n - i)] at step [i]; the second calls [_randbelow(n)] every
    time. *)
Definition pool_answers (n : nat) (js : list nat) : Tape :=
  combine (map (fun i => n - i) (seq 0 (length js))) js.

Definition set_answers (n : nat) (js : list nat) : Tape :=
  map (fun j => (n, j)) js.

(** * Properties *)

(** ** Lists: the last [n] elements *)

Lemma keep_last_all {A : Type} (n : nat) (l : list A) :
  length l <= n -> keep_last n l = l.
Proof.
  intros Hle. unfold keep_last.
  replace (length l - n) with 0 by lia. reflexivity.
Qed.

Lemma keep_last_length {A : Type} (n : nat) (l : list A) :
  length (keep_last n l) = Nat.min n (length l).
Proof.
  unfold keep_last. rewrite length_skipn. lia.
Qed.

Lemma keep_last_app {A : Type} (n : nat) (l r : list A) :
  keep_last n (keep_last n l ++ r) = keep_last n (l ++ r).
Proof.
  destruct (Nat.le_gt_cases (length l) n) as [Hle | Hgt].
  - now rewrite (keep_last_all l Hle).
  - unfold keep_last at 1 3.
    rewrite !length_app, keep_last_length.
    unfold keep_last.
    replace (skipn (length l - n) l ++ r) with (skipn (length l - n) (l ++ r)).
    + rewrite skipn_skipn. f_equal. lia.
    + rewrite skipn_app. replace (length l - n - length l) with 0 by lia.
      reflexivity.
Qed.

Lemma tl_skipn {A : Type} (l : list A) : tl l = skipn 1 l.
Proof. destruct l; reflexivity. Qed.

(** ** The bounded deque *)

Section DequeFacts.

Context {A : Type}.

Lemma deque_new_bounded (n : Z) (d : deque A) :
  deque_new n = Ok d -> bounded d /\ items d = [] /\ maxlen d = n.
Proof.
  unfold deque_new. destruct (_ || _)%Z; [discriminate |].
  destruct (n <? 0)%Z eqn:Hn; [discriminate |].
  intros H; inversion H; subst; clear H.
  apply Z.ltb_ge in Hn. unfold bounded, deque_len; simpl. repeat split; lia.
Qed.

Lemma deque_append_maxlen (d : deque A) (x : A) :
  maxlen (deque_append d x) = maxlen d.
Proof.
  unfold deque_append. destruct (_ <? _)%Z; reflexivity.
Qed.

Lemma deque_append_items (d : deque A) (x : A) :
  bounded d ->
  items (deque_append d x) = keep_last (Z.to_nat (maxlen d)) (items d ++ [x]).
Proof.
  intros [Hpos Hlen]. unfold deque_len in Hlen. unfold deque_append.
  destruct (_ <? _)%Z eqn:Hfull; simpl.
  - apply Z.ltb_lt in Hfull. rewrite length_app in Hfull. simpl in Hfull.
    rewrite tl_skipn. unfold keep_last. f_equal.
    rewrite length_app. simpl. lia.
  - apply Z.ltb_ge in Hfull. symmetry. apply keep_last_all. lia.
Qed.

Lemma deque_append_bounded (d : deque A) (x : A) :
  bounded d -> bounded (deque_append d x).
Proof.
  intros Hb. pose proof (deque_append_items x Hb) as Hit.
  destruct Hb as [Hpos Hlen]. unfold bounded, deque_len in *.
  rewrite deque_append_maxlen, Hit, keep_last_length. split; lia.
Qed.

(** Appending when the deque is full drops its oldest item. *)
Lemma deque_append_full (d : deque A) (x oldest : A) (rest : list A) :
  items d = oldest :: rest ->
  deque_len d = maxlen d ->
  items (deque_append d x) = rest ++ [x].
Proof.
  intros Hit Hfull. unfold deque_len in Hfull. unfold deque_append.
  rewrite Hit in *. simpl in *.
  destruct (_ <? _)%Z eqn:Hlt; simpl; [reflexivity |].
  apply Z.ltb_ge in Hlt. rewrite length_app in Hlt. simpl in Hlt. lia.
Qed.

(** Appending below capacity drops nothing. *)
Lemma deque_append_room (d : deque A) (x : A) :
  (deque_len d < maxlen d)%Z ->
  items (deque_append d x) = items d ++ [x].
Proof.
  intros Hroom. unfold deque_len in Hroom. unfold deque_append.
  destruct (_ <? _)%Z eqn:Hlt; simpl; [| reflexivity].
  apply Z.ltb_lt in Hlt. rewrite length_app in Hlt. simpl in Hlt. lia.
Qed.

End DequeFacts.

Lemma deque_extend_spec {A : Type} (xs : list A) : forall d : deque A,
  bounded d ->
  bounded (deque_extend d xs) /\
  maxlen (deque_extend d xs) = maxlen d /\
  items (deque_extend d xs) = keep_last (Z.to_nat (maxlen d)) (items d ++ xs).
Proof.
  induction xs as [| x xs IH]; intros d Hb.
  - simpl. repeat split; try apply Hb.
    rewrite app_nil_r. symmetry. apply keep_last_all.
    destruct Hb as [_ Hlen]. unfold deque_len in Hlen. lia.
  - simpl. destruct (IH (deque_append d x) (deque_append_bounded x Hb))
      as (Hb' & Hmax & Hit).
    unfold deque_extend in *. repeat split; try apply Hb'.
    + now rewrite Hmax, deque_append_maxlen.
    + rewrite Hit, deque_append_maxlen, deque_append_items by assumption.
      rewrite keep_last_app, <- app_assoc. reflexivity.
Qed.

(** ** The replay buffer *)

Section BufferFacts.

Context {Sp : Spaces} {R : RandomModule}.

Lemma ReplayBuffer_init_run (asz bsz batch : Z) (sd : option Z) (G : Globals) :
  ReplayBuffer_init asz bsz batch sd G =
  match deque_new bsz with
  | Ok d => (Ok (mkReplayBuffer None asz d batch), random_seed sd G)
  | Raise e => (Raise e, random_seed sd G)
  end.
Proof.
  unfold ReplayBuffer_init, bind, modify, lift_result, ret.
  destruct (deque_new bsz); reflexivity.
Qed.

Lemma ReplayBuffer_init_ok (asz bsz batch : Z) (sd : option Z) (G G0 : Globals)
  (buf : ReplayBuffer) :
  ReplayBuffer_init asz bsz batch sd G = (Ok buf, G0) ->
  (0 <= bsz)%Z /\
  buf = mkReplayBuffer None asz (mkDeque [] bsz) batch /\
  G0 = random_seed sd G.
Proof.
  rewrite ReplayBuffer_init_run. unfold deque_new.
  destruct (_ || _)%Z; [intros H; inversion H |].
  destruct (bsz <? 0)%Z eqn:Hneg; intros H; inversion H; subst.
  apply Z.ltb_ge in Hneg. auto.
Qed.

Lemma ReplayBuffer_add_run (e : Experience) (buf : ReplayBuffer) (G : Globals) :
  ReplayBuffer_add (state e) (action e) (reward e) (next_state e) (done e) (buf, G) =
  (Ok tt, (set_replay_memory buf (deque_append (replay_memory buf) e), G)).
Proof. destruct e. reflexivity. Qed.

Lemma ReplayBuffer_add_all_run (es : list Experience) :
  forall (buf : ReplayBuffer) (G : Globals),
    ReplayBuffer_add_all es (buf, G) =
    (Ok tt, (set_replay_memory buf (deque_extend (replay_memory buf) es), G)).
Proof.
  induction es as [| e es IH]; intros buf G.
  - destruct buf as [? ? [? ?] ?]. reflexivity.
  - unfold ReplayBuffer_add_all in *. simpl. unfold bind at 1.
    rewrite ReplayBuffer_add_run, IH. reflexivity.
Qed.

End BufferFacts.

(** C3.  For every sequence of [add] calls on a buffer constructed with
    capacity [buffer_size], the length never exceeds [buffer_size] and the
    buffer holds exactly the most recent [buffer_size] transitions in their
    order of arrival; an [add] on a buffer that is at capacity drops exactly
    the oldest stored transition and puts the new one last.  In particular,
    adding the transitions tagged 1..7 to a buffer of capacity 5 leaves the
    ones tagged 3,4,5,6,7, in that order. *)
Theorem replay_buffer_capacity_fifo :
  (forall (Sp : Spaces) (R : RandomModule) (asz buffer_size batch : Z)
          (sd : option Z) (G G0 : Globals) (buf : ReplayBuffer),
      ReplayBuffer_init asz buffer_size batch sd G = (Ok buf, G0) ->
      forall es : list Experience,
      exists buf' : ReplayBuffer,
        ReplayBuffer_add_all es (buf, G0) = (Ok tt, (buf', G0)) /\
        (ReplayBuffer_len buf' <= buffer_size)%Z /\
        items (replay_memory buf') = keep_last (Z.to_nat buffer_size) es /\
        (forall (oldest : Experience) (rest : list Experience) (e : Experience),
            items (replay_memory buf') = oldest :: rest ->
            ReplayBuffer_len buf' = buffer_size ->
            items (replay_memory
                     (fst (snd (ReplayBuffer_add (state e) (action e) (reward e)
                                  (next_state e) (done e) (buf', G0)))))
            = rest ++ [e])) /\
  option_map (fun s => map (state (Sp := tagged)) (items (replay_memory (fst s))))
    (buffer_with 5 128 None [1; 2; 3; 4; 5; 6; 7]%Z fresh_globals)
  = Some [3; 4; 5; 6; 7]%Z.
Proof.
  split; [| reflexivity].
  intros Sp R asz buffer_size batch sd G G0 buf Hinit es.
  apply ReplayBuffer_init_ok in Hinit. destruct Hinit as (Hpos & -> & ->).
  set (buf0 := mkReplayBuffer None asz (mkDeque [] buffer_size) batch).
  assert (Hb : bounded (replay_memory buf0)).
  { unfold bounded, deque_len. simpl. lia. }
  destruct (deque_extend_spec es Hb) as (Hb' & Hmax & Hit).
  exists (set_replay_memory buf0 (deque_extend (replay_memory buf0) es)).
  split; [apply ReplayBuffer_add_all_run |].
  simpl in Hmax, Hit.
  split; [| split].
  - destruct Hb' as [_ Hlen]. unfold ReplayBuffer_len. simpl in *. lia.
  - exact Hit.
  - intros oldest rest e Hitems Hfull.
    rewrite ReplayBuffer_add_run.
    unfold ReplayBuffer_len in Hfull. simpl in *.
    apply deque_append_full with (oldest := oldest); [exact Hitems |].
    rewrite Hfull. symmetry. exact Hmax.
Qed.

(** The scenario of C3, through the general statement: capacity 5, seven
    transitions tagged 1..7. *)
Lemma replay_buffer_capacity_fifo_witness :
  ReplayBuffer_init (Sp := tagged) (R := lcg) 2 5 128 (Some 0%Z) fresh_globals
  = (Ok (mkReplayBuffer (Sp := tagged) None 2 (mkDeque [] 5) 128),
     mkGlobals (R := lcg) 12345%Z []) /\
  exists buf' : @ReplayBuffer tagged,
    ReplayBuffer_add_all (map tag [1; 2; 3; 4; 5; 6; 7]%Z)
      (mkReplayBuffer (Sp := tagged) None 2 (mkDeque [] 5) 128,
       mkGlobals (R := lcg) 12345%Z [])
    = (Ok tt, (buf', mkGlobals (R := lcg) 12345%Z [])) /\
    (ReplayBuffer_len buf' <= 5)%Z /\
    items (replay_memory buf') = map tag [3; 4; 5; 6; 7]%Z.
Proof.
  split; [reflexivity |].
  destruct (proj1 replay_buffer_capacity_fifo tagged lcg 2%Z 5%Z 128%Z (Some 0%Z)
              fresh_globals (mkGlobals (R := lcg) 12345%Z [])
              (mkReplayBuffer (Sp := tagged) None 2 (mkDeque [] 5) 128)
              eq_refl (map tag [1; 2; 3; 4; 5; 6; 7]%Z))
    as (buf' & Hrun & Hlen & Hitems & _).
  exists buf'. repeat split; assumption.
Defined.

(** ** Sampling *)

Lemma select_at {A : Type} (l : list A) (idx : list nat) :
  Forall (fun i => i < length l) idx ->
  Forall2 (fun i x => nth_error l i = Some x) idx (select l idx).
Proof.
  induction 1 as [| i idx Hi _ IH]; simpl.
  - constructor.
  - destruct (nth_error l i) as [x |] eqn:Hx.
    + simpl. constructor; assumption.
    + apply nth_error_None in Hx. lia.
Qed.

Lemma select_length {A : Type} (l : list A) (idx : list nat) :
  Forall (fun i => i < length l) idx ->
  length (select l idx) = length idx.
Proof.
  intros H. symmetry. eapply Forall2_length. apply select_at. exact H.
Qed.

Section SampleFacts.

Context {Sp : Spaces} {R : RandomModule}.

(** What [sample] computes, case by case. *)
Lemma ReplayBuffer_sample_run (buf : ReplayBuffer) (G : Globals) :
  ReplayBuffer_sample (buf, G) =
  let population := items (replay_memory buf) in
  let k := rb_batch_size buf in
  if ((0 <=? k) && (k <=? Z.of_nat (length population)))%Z
  then
    let drawn := sample_positions (random_state G) (length population) (Z.to_nat k) in
    let G' := mkGlobals (snd drawn) (os_entropy G) in
    match select population (fst drawn) with
    | [] => (Raise ValueError, (buf, G'))
    | e :: es => (Ok (batch_of (e :: es)), (buf, G'))
    end
  else (Raise ValueError, (buf, G)).
Proof.
  unfold ReplayBuffer_sample, bind, gets, on_globals, random_sample; simpl.
  destruct ((0 <=? _) && _)%Z; simpl; [| reflexivity].
  destruct (sample_positions _ _ _) as [idx g']; simpl.
  destruct (select _ idx) as [| e es]; reflexivity.
Qed.

(** [sample] never writes to the buffer. *)
Lemma ReplayBuffer_sample_frame (buf : ReplayBuffer) (G : Globals) :
  fst (snd (ReplayBuffer_sample (buf, G))) = buf.
Proof.
  rewrite ReplayBuffer_sample_run. cbv zeta.
  destruct ((0 <=? _) && _)%Z; [| reflexivity].
  destruct (select _ _); reflexivity.
Qed.

(** [sample] does not consume operating-system entropy. *)
Lemma ReplayBuffer_sample_entropy (buf : ReplayBuffer) (G : Globals) :
  os_entropy (snd (snd (ReplayBuffer_sample (buf, G)))) = os_entropy G.
Proof.
  rewrite ReplayBuffer_sample_run. cbv zeta.
  destruct ((0 <=? _) && _)%Z; [| reflexivity].
  destruct (select _ _); reflexivity.
Qed.

Lemma ReplayBuffer_sample_short (buf : ReplayBuffer) (G : Globals) :
  (ReplayBuffer_len buf < rb_batch_size buf)%Z ->
  ReplayBuffer_sample (buf, G) = (Raise ValueError, (buf, G)).
Proof.
  intros Hshort. unfold ReplayBuffer_len, deque_len in Hshort.
  rewrite ReplayBuffer_sample_run. cbv zeta.
  replace (_ <=? Z.of_nat _)%Z with false; [now rewrite andb_false_r |].
  symmetry. apply Z.leb_gt. exact Hshort.
Qed.

Lemma ReplayBuffer_sample_negative (buf : ReplayBuffer) (G : Globals) :
  (rb_batch_size buf < 0)%Z ->
  ReplayBuffer_sample (buf, G) = (Raise ValueError, (buf, G)).
Proof.
  intros Hneg. rewrite ReplayBuffer_sample_run. cbv zeta.
  replace (0 <=? _)%Z with false; [reflexivity |].
  symmetry. apply Z.leb_gt. exact Hneg.
Qed.

Hypothesis sample_contract : without_replacement R.

Lemma ReplayBuffer_sample_empty_batch (buf : ReplayBuffer) (G : Globals) :
  rb_batch_size buf = 0%Z ->
  fst (ReplayBuffer_sample (buf, G)) = Raise ValueError.
Proof.
  intros Hzero. rewrite ReplayBuffer_sample_run. cbv zeta. rewrite Hzero. simpl.
  destruct (sample_contract (random_state G)
              (n := length (items (replay_memory buf))) (k := 0))
    as (Hlen & _); [lia |].
  destruct (0 <=? _)%Z; [| reflexivity].
  destruct (fst (sample_positions _ _ _)); [reflexivity | discriminate].
Qed.

(** With at least one and at most [len(buffer)] transitions requested,
    [sample] returns the stored transitions at the drawn positions. *)
Lemma ReplayBuffer_sample_ok (buf : ReplayBuffer) (G : Globals) :
  (1 <= rb_batch_size buf <= ReplayBuffer_len buf)%Z ->
  let population := items (replay_memory buf) in
  let drawn := sample_positions (random_state G) (length population)
                 (Z.to_nat (rb_batch_size buf)) in
  ReplayBuffer_sample (buf, G) =
  (Ok (batch_of (select population (fst drawn))),
   (buf, mkGlobals (snd drawn) (os_entropy G))) /\
  length (fst drawn) = Z.to_nat (rb_batch_size buf) /\
  NoDup (fst drawn) /\
  Forall (fun i => i < length population) (fst drawn) /\
  Forall2 (fun i e => nth_error population i = Some e)
    (fst drawn) (select population (fst drawn)).
Proof.
  intros [Hone Hlen] population drawn.
  unfold ReplayBuffer_len, deque_len in Hlen. fold population in Hlen.
  destruct (sample_contract (random_state G) (n := length population)
              (k := Z.to_nat (rb_batch_size buf)))
    as (Hk & Hnodup & Hrange); [lia |].
  fold drawn in Hk, Hnodup, Hrange.
  pose proof (select_at population Hrange) as Hat.
  repeat split; try assumption.
  rewrite ReplayBuffer_sample_run. cbv zeta. fold population. fold drawn.
  replace ((0 <=? _) && _)%Z with true.
  - pose proof (select_length population Hrange) as Hsel.
    destruct (select population (fst drawn)); [| reflexivity].
    simpl in Hsel. lia.
  - symmetry. apply andb_true_iff. split; apply Z.leb_le; lia.
Qed.

End SampleFacts.

(** ** The concrete generator honours the contract *)

Lemma rotate_perm {A : Type} (r : nat) (l : list A) : Permutation (rotate r l) l.
Proof.
  unfold rotate. rewrite Permutation_app_comm, firstn_skipn. reflexivity.
Qed.

Lemma NoDup_firstn {A : Type} (k : nat) (l : list A) : NoDup l -> NoDup (firstn k l).
Proof.
  intros H. rewrite <- (firstn_skipn k l) in H.
  eapply NoDup_app_remove_r. exact H.
Qed.

Lemma In_firstn {A : Type} (k : nat) (l : list A) (x : A) :
  In x (firstn k l) -> In x l.
Proof.
  intros H. rewrite <- (firstn_skipn k l). apply in_or_app. now left.
Qed.

Lemma lcg_without_replacement : without_replacement lcg.
Proof.
  intros g n k Hk. simpl. unfold lcg_positions. simpl.
  set (r := Z.to_nat (g mod Z.max 1 (Z.of_nat n))).
  pose proof (rotate_perm r (seq 0 n)) as Hperm.
  repeat split.
  - rewrite length_firstn, (Permutation_length Hperm), length_seq. lia.
  - apply NoDup_firstn.
    eapply Permutation_NoDup; [symmetry; exact Hperm | apply seq_NoDup].
  - apply Forall_forall. intros i Hi. apply In_firstn in Hi.
    eapply Permutation_in in Hi; [| exact Hperm].
    apply in_seq in Hi. lia.
Qed.

(** ** [random.sample] in CPython: what a run returns *)

Lemma randbelow_inv (m : nat) (t : Tape) (j : nat) (t' : Tape) :
  randbelow m t = Some (j, t') -> t = (m, j) :: t' /\ j < m.
Proof.
  destruct t as [| [m' j'] t0]; simpl; [discriminate |].
  destruct (m' =? m) eqn:Hm; simpl; [| discriminate].
  destruct (j' <? m) eqn:Hj; [| discriminate].
  intros H. inversion H; subst. apply Nat.eqb_eq in Hm. apply Nat.ltb_lt in Hj.
  subst. split; [reflexivity | assumption].
Qed.

Lemma randbelow_head (m j : nat) (t : Tape) :
  j < m -> randbelow m ((m, j) :: t) = Some (j, t).
Proof.
  intros Hj. simpl. rewrite Nat.eqb_refl. simpl.
  apply Nat.ltb_lt in Hj. now rewrite Hj.
Qed.

Lemma setitem_length {A : Type} (l : list A) : forall (j : nat) (y : A),
  length (setitem l j y) = length l.
Proof.
  induction l as [| x l IH]; intros [| j] y; simpl; try reflexivity.
  now rewrite IH.
Qed.

Lemma setitem_app {A : Type} (l1 : list A) : forall (x : A) (l2 : list A) (y : A),
  setitem (l1 ++ x :: l2) (length l1) y = l1 ++ y :: l2.
Proof.
  induction l1 as [| z l1 IH]; intros x l2 y; simpl.
  - reflexivity.
  - now rewrite IH.
Qed.

Lemma setitem_same {A : Type} (l : list A) : forall (j : nat) (y : A),
  nth_error l j = Some y -> setitem l j y = l.
Proof.
  induction l as [| x l IH]; intros [| j] y; simpl; try discriminate.
  - intros H. inversion H. reflexivity.
  - intros H. now rewrite IH.
Qed.

(** One step of the first branch: the live part of the pool loses the item
    it hands out, and nothing else. *)
Lemma pool_step {A : Type} (pool : list A) (j m : nat) (x y : A) :
  nth_error pool j = Some x ->
  nth_error pool m = Some y ->
  j <= m ->
  Permutation (firstn (S m) pool) (x :: firstn m (setitem pool j y)).
Proof.
  intros Hx Hy Hjm.
  destruct (nth_error_split pool m Hy) as (L & Rr & Hpool & HL).
  assert (Hlive : firstn (S m) pool = L ++ [y]).
  { rewrite Hpool. replace (S m) with (length L + 1) by lia.
    rewrite firstn_app_2. simpl. reflexivity. }
  rewrite Hlive.
  destruct (Nat.eq_dec j m) as [-> | Hne].
  - assert (x = y) by congruence. subst x.
    rewrite setitem_same by assumption.
    rewrite Hpool. rewrite <- HL, firstn_app, Nat.sub_diag, firstn_all. simpl.
    rewrite app_nil_r. symmetry. apply Permutation_cons_append.
  - assert (HxL : nth_error L j = Some x).
    { rewrite Hpool, nth_error_app1 in Hx by lia. exact Hx. }
    destruct (nth_error_split L j HxL) as (L1 & L2 & HLeq & HL1).
    subst L j.
    assert (Hset : setitem pool (length L1) y = (L1 ++ y :: L2) ++ y :: Rr).
    { rewrite Hpool, <- !app_assoc. simpl. apply setitem_app. }
    rewrite Hset.
    assert (Hm : m = length (L1 ++ y :: L2) + 0).
    { rewrite length_app in *. simpl in *. lia. }
    rewrite Hm at 1. rewrite firstn_app_2. simpl. rewrite app_nil_r.
    rewrite <- app_assoc. simpl.
    symmetry. apply Permutation_cons_app, Permutation_app_head.
    apply Permutation_cons_append.
Qed.

(** The calls a run of the first branch makes. *)
Lemma pool_loop_bounds {A : Type} (n : nat) : forall (rng : list nat) (pool : list A)
    (t : Tape) (result : list A) (t' : Tape),
  pool_loop n rng pool t = Some (result, t') ->
  exists used : Tape,
    t = used ++ t' /\ bounds used = map (fun i => n - i) rng /\ length result = length rng.
Proof.
  induction rng as [| i rng IH]; intros pool t result t' Hrun; simpl in Hrun.
  - inversion Hrun; subst. exists []. repeat split.
  - destruct (randbelow (n - i) t) as [[j t1] |] eqn:Hj; [| discriminate].
    destruct (nth_error pool j) as [x |]; [| discriminate].
    destruct (nth_error pool (n - i - 1)) as [y |]; [| discriminate].
    destruct (pool_loop n rng (setitem pool j y) t1) as [[res t2] |] eqn:Hrest;
      [| discriminate].
    inversion Hrun; subst. apply randbelow_inv in Hj. destruct Hj as [-> Hlt].
    destruct (IH _ _ _ _ Hrest) as (used & -> & Hb & Hlen).
    exists ((n - i, j) :: used). simpl. rewrite Hb, Hlen. repeat split.
Qed.

(** What a run of the first branch returns comes out of the live part of
    the pool, each item of it at most once. *)
Lemma pool_loop_live {A : Type} (n : nat) : forall (c i : nat) (pool : list A)
    (t : Tape) (result : list A) (t' : Tape),
  i + c <= n ->
  pool_loop n (seq i c) pool t = Some (result, t') ->
  exists rest : list A, Permutation (firstn (n - i) pool) (result ++ rest).
Proof.
  induction c as [| c IH]; intros i pool t result t' Hic Hrun; simpl in Hrun.
  - inversion Hrun; subst. exists (firstn (n - i) pool). reflexivity.
  - destruct (randbelow (n - i) t) as [[j t1] |] eqn:Hj; [| discriminate].
    destruct (nth_error pool j) as [x |] eqn:Hx; [| discriminate].
    destruct (nth_error pool (n - i - 1)) as [y |] eqn:Hy; [| discriminate].
    destruct (pool_loop n (seq (S i) c) (setitem pool j y) t1) as [[res t2] |] eqn:Hrest;
      [| discriminate].
    inversion Hrun; subst. apply randbelow_inv in Hj. destruct Hj as [_ Hlt].
    destruct (IH (S i) _ _ _ _ ltac:(lia) Hrest) as (rest & Hperm).
    exists rest.
    pose proof (pool_step pool Hx Hy ltac:(lia)) as Hstep.
    replace (S (n - i - 1)) with (n - i) in Hstep by lia.
    replace (n - i - 1) with (n - S i) in Hstep by lia.
    rewrite Hstep. simpl. now apply perm_skip.
Qed.

(** The first branch draws without replacement: the positions it returns
    are pairwise distinct positions of the population. *)
Lemma pool_loop_arrangement (n k : nat) (t : Tape) (a : list nat) (t' : Tape) :
  k <= n ->
  pool_loop n (seq 0 k) (seq 0 n) t = Some (a, t') ->
  arrangement n k a.
Proof.
  intros Hk Hrun.
  destruct (pool_loop_bounds _ _ _ _ Hrun) as (used & _ & _ & Hlen).
  destruct (@pool_loop_live nat n k 0 _ _ _ _ ltac:(lia) Hrun) as (rest & Hperm).
  rewrite Nat.sub_0_r in Hperm.
  assert (Hall : firstn n (seq 0 n) = seq 0 n).
  { apply firstn_all2. rewrite length_seq. lia. }
  rewrite Hall in Hperm.
  rewrite length_seq in Hlen.
  split; [exact Hlen |]. split.
  - eapply NoDup_app_remove_r.
    eapply Permutation_NoDup; [exact Hperm | apply seq_NoDup].
  - apply Forall_forall. intros i Hi.
    assert (Hin : In i (seq 0 n)).
    { eapply Permutation_in; [symmetry; exact Hperm |]. apply in_or_app. now left. }
    apply in_seq in Hin. lia.
Qed.

Lemma contains_spec (selected : list nat) (j : nat) :
  contains selected j = true <-> In j selected.
Proof.
  unfold contains. rewrite existsb_exists. split.
  - intros (x & Hx & Heq). apply Nat.eqb_eq in Heq. now subst.
  - intros H. exists j. split; [exact H | apply Nat.eqb_refl].
Qed.

Lemma contains_false (selected : list nat) (j : nat) :
  contains selected j = false <-> ~ In j selected.
Proof.
  rewrite <- contains_spec. destruct (contains selected j); split; congruence.
Qed.

(** The inner loop of the second branch stops at the first answer that was
    not selected before. *)
Lemma reselect_inv (n : nat) (selected : list nat) : forall (t : Tape) (j : nat) (t' : Tape),
  reselect n selected t = Some (j, t') ->
  j < n /\ ~ In j selected /\
  exists rejected : list nat,
    t = map (fun r => (n, r)) rejected ++ (n, j) :: t' /\
    Forall (fun r => r < n /\ In r selected) rejected.
Proof.
  induction t as [| [m r] t IH]; intros j t' Hrun; simpl in Hrun; [discriminate |].
  destruct (m =? n) eqn:Hm; simpl in Hrun; [| discriminate].
  destruct (r <? n) eqn:Hr; [| discriminate].
  apply Nat.eqb_eq in Hm. apply Nat.ltb_lt in Hr. subst m.
  destruct (contains selected r) eqn:Hsel.
  - destruct (IH _ _ Hrun) as (Hj & Hnew & rejected & -> & Hrej).
    split; [exact Hj |]. split; [exact Hnew |].
    exists (r :: rejected). split; [reflexivity |].
    constructor; [| exact Hrej]. split; [exact Hr | now apply contains_spec].
  - inversion Hrun; subst. split; [exact Hr |].
    split; [now apply contains_false |].
    exists []. split; [reflexivity | constructor].
Qed.

(** The calls a run of the second branch makes. *)
Lemma set_loop_bounds {A : Type} (population : list A) (n : nat) :
  forall (rng selected : list nat) (t : Tape) (result : list A) (t' : Tape),
  set_loop population n rng selected t = Some (result, t') ->
  exists used : Tape,
    t = used ++ t' /\ bounds used = repeat n (length used) /\
    length result = length rng.
Proof.
  induction rng as [| i rng IH]; intros selected t result t' Hrun; simpl in Hrun.
  - inversion Hrun; subst. exists []. repeat split.
  - destruct (reselect n selected t) as [[j t1] |] eqn:Hj; [| discriminate].
    destruct (nth_error population j) as [x |]; [| discriminate].
    destruct (set_loop population n rng (j :: selected) t1) as [[res t2] |] eqn:Hrest;
      [| discriminate].
    inversion Hrun; subst.
    destruct (reselect_inv _ _ _ Hj) as (_ & _ & rejected & -> & _).
    destruct (IH _ _ _ _ Hrest) as (used & -> & Hb & Hlen).
    exists (map (fun r => (n, r)) rejected ++ (n, j) :: used).
    split; [now rewrite <- app_assoc |]. split; [| simpl; now rewrite Hlen].
    unfold bounds in *. rewrite map_app, map_map. simpl.
    rewrite length_app, length_map. simpl. rewrite Hb.
    rewrite repeat_app. f_equal.
    clear. induction rejected; simpl; congruence.
Qed.

(** The second branch draws without replacement: what it returns are
    pairwise distinct positions, none of them selected before. *)
Lemma set_loop_fresh (n : nat) : forall (rng selected : list nat) (t : Tape)
    (a : list nat) (t' : Tape),
  set_loop (seq 0 n) n rng selected t = Some (a, t') ->
  NoDup a /\ Forall (fun i => i < n) a /\ forall i, In i a -> ~ In i selected.
Proof.
  induction rng as [| i rng IH]; intros selected t a t' Hrun; simpl in Hrun.
  - inversion Hrun; subst. split; [constructor |]. split; [constructor |].
    intros i [].
  - destruct (reselect n selected t) as [[j t1] |] eqn:Hj; [| discriminate].
    destruct (nth_error (seq 0 n) j) as [x |] eqn:Hx; [| discriminate].
    destruct (set_loop (seq 0 n) n rng (j :: selected) t1) as [[res t2] |] eqn:Hrest;
      [| discriminate].
    inversion Hrun; subst.
    destruct (reselect_inv _ _ _ Hj) as (Hlt & Hnew & _).
    rewrite nth_error_seq in Hx.
    assert (x = j).
    { destruct (j <? n) eqn:E; simpl in Hx; [congruence | discriminate]. }
    subst x.
    destruct (IH _ _ _ _ Hrest) as (Hnd & Hall & Hsel).
    split; [| split].
    + constructor; [| exact Hnd]. intros Hin. apply (Hsel j Hin). now left.
    + constructor; assumption.
    + intros i0 [<- | Hin]; [exact Hnew |].
      intros Hs. apply (Hsel i0 Hin). now right.
Qed.

(** ** [random.sample] in CPython: the runs that return a given result *)

Lemma index_of_In (x : nat) (l : list nat) :
  In x l -> index_of x l < length l /\ nth_error l (index_of x l) = Some x.
Proof.
  induction l as [| y l IH]; simpl; [intros [] |].
  intros Hin. destruct (x =? y) eqn:E.
  - apply Nat.eqb_eq in E. subst. split; [lia | reflexivity].
  - apply Nat.eqb_neq in E. destruct Hin as [-> | Hin]; [congruence |].
    destruct (IH Hin) as [Hlt Hnth]. split; [lia | exact Hnth].
Qed.

Lemma index_of_nth (l : list nat) : forall (j x : nat),
  NoDup l -> nth_error l j = Some x -> index_of x l = j.
Proof.
  induction l as [| y l IH]; intros [| j] x Hnd Hnth; simpl in *; try discriminate.
  - inversion Hnth; subst. now rewrite Nat.eqb_refl.
  - inversion Hnd as [| ? ? Hy Hnd']; subst.
    destruct (x =? y) eqn:E.
    + apply Nat.eqb_eq in E. subst. exfalso. apply Hy.
      eapply nth_error_In. exact Hnth.
    + f_equal. now apply IH.
Qed.

(** Every arrangement of live positions is returned by a run of the first
    branch. *)
Lemma pool_record_draws (n : nat) : forall (c i : nat) (pool a : list nat),
  length pool = n ->
  i + c <= n ->
  NoDup (firstn (n - i) pool) ->
  NoDup a ->
  incl a (firstn (n - i) pool) ->
  length a = c ->
  pool_loop n (seq i c) pool (pool_record n (seq i c) pool a) = Some (a, []).
Proof.
  induction c as [| c IH]; intros i pool a Hpool Hic Hlive Hnd Hincl Hlen.
  - destruct a; [reflexivity | discriminate].
  - destruct a as [| x a]; [discriminate |]. simpl in Hlen.
    assert (Hx : In x (firstn (n - i) pool)) by (apply Hincl; now left).
    destruct (index_of_In _ _ Hx) as [Hj Hnth].
    set (j := index_of x (firstn (n - i) pool)) in *.
    rewrite length_firstn in Hj.
    assert (Hxp : nth_error pool j = Some x).
    { rewrite nth_error_firstn in Hnth.
      destruct (j <? n - i) eqn:E; [exact Hnth | discriminate]. }
    destruct (nth_error pool (n - i - 1)) as [y |] eqn:Hy.
    2: { apply nth_error_None in Hy. lia. }
    simpl. fold j. rewrite Hy.
    rewrite randbelow_head by lia. rewrite Hxp.
    pose proof (pool_step pool Hxp Hy ltac:(lia)) as Hstep.
    replace (S (n - i - 1)) with (n - i) in Hstep by lia.
    replace (n - i - 1) with (n - S i) in Hstep by lia.
    rewrite IH; [reflexivity | | | | | |].
    + now rewrite setitem_length.
    + lia.
    + eapply Permutation_NoDup in Hlive; [| exact Hstep].
      now inversion Hlive.
    + now inversion Hnd.
    + intros z Hz.
      assert (Hzl : In z (x :: firstn (n - S i) (setitem pool j y))).
      { eapply Permutation_in; [exact Hstep |]. apply Hincl. now right. }
      destruct Hzl as [<- | Hzl]; [| exact Hzl].
      inversion Hnd; contradiction.
    + lia.
Qed.

(** ... and by one run only. *)
Lemma pool_record_unique (n : nat) : forall (c i : nat) (pool : list nat)
    (t : Tape) (a : list nat),
  length pool = n ->
  i + c <= n ->
  NoDup (firstn (n - i) pool) ->
  pool_loop n (seq i c) pool t = Some (a, []) ->
  t = pool_record n (seq i c) pool a.
Proof.
  induction c as [| c IH]; intros i pool t a Hpool Hic Hlive Hrun; simpl in Hrun.
  - inversion Hrun; subst. reflexivity.
  - destruct (randbelow (n - i) t) as [[j t1] |] eqn:Hj; [| discriminate].
    destruct (nth_error pool j) as [x |] eqn:Hx; [| discriminate].
    destruct (nth_error pool (n - i - 1)) as [y |] eqn:Hy; [| discriminate].
    destruct (pool_loop n (seq (S i) c) (setitem pool j y) t1) as [[res t2] |] eqn:Hrest;
      [| discriminate].
    inversion Hrun; subst. apply randbelow_inv in Hj. destruct Hj as [-> Hlt].
    assert (Hidx : index_of x (firstn (length pool - i) pool) = j).
    { apply index_of_nth; [exact Hlive |].
      rewrite nth_error_firstn. apply Nat.ltb_lt in Hlt. now rewrite Hlt. }
    simpl. rewrite Hidx, Hy. f_equal.
    pose proof (pool_step pool Hx Hy ltac:(lia)) as Hstep.
    replace (S (length pool - i - 1)) with (length pool - i) in Hstep by lia.
    replace (length pool - i - 1) with (length pool - S i) in Hstep by lia.
    apply IH.
    + now rewrite setitem_length.
    + lia.
    + eapply Permutation_NoDup in Hlive; [| exact Hstep].
      now inversion Hlive.
    + exact Hrest.
Qed.

(** The positions below [n], those of an arrangement first: every position
    once. *)
Lemma complete_NoDup (n k : nat) (a : list nat) :
  arrangement n k a -> NoDup (complete n a).
Proof.
  intros (_ & Hnd & _). unfold complete.
  apply NoDup_app; [exact Hnd | apply NoDup_filter, seq_NoDup |].
  intros x Hx Hf. apply filter_In in Hf. destruct Hf as [_ Hf].
  apply negb_true_iff, contains_false in Hf. contradiction.
Qed.

Lemma complete_In (n k : nat) (a : list nat) (j : nat) :
  arrangement n k a -> (In j (complete n a) <-> j < n).
Proof.
  intros (_ & _ & Hlt). rewrite Forall_forall in Hlt. unfold complete.
  rewrite in_app_iff, filter_In, in_seq. split.
  - intros [Hin | [Hin _]]; [now apply Hlt | lia].
  - intros Hj. destruct (contains a j) eqn:E.
    + left. now apply contains_spec.
    + right. split; [lia | reflexivity].
Qed.

Lemma complete_head (n : nat) (a : list nat) (p : nat) :
  p < length a -> nth_error (complete n a) p = nth_error a p.
Proof.
  intros Hp. unfold complete. now apply nth_error_app1.
Qed.

Lemma complete_length (n k : nat) (a : list nat) :
  arrangement n k a -> length (complete n a) = n.
Proof.
  intros Ha. transitivity (length (seq 0 n)); [| apply length_seq].
  apply Permutation_length.
  apply NoDup_Permutation; [eapply complete_NoDup; eassumption | apply seq_NoDup |].
  intros x. rewrite (complete_In x Ha), in_seq. lia.
Qed.

(** The renaming is a renaming of the positions below [n]: it keeps them
    below [n], it is undone by the renaming the other way round, and it
    takes the one arrangement to the other. *)
Lemma relabel_below (n k : nat) (a a' : list nat) (j : nat) :
  arrangement n k a -> arrangement n k a' ->
  (relabel n a a' j < n <-> j < n).
Proof.
  intros Ha Ha'. unfold relabel. destruct (j <? n) eqn:E.
  - apply Nat.ltb_lt in E. split; [intros _; exact E | intros _].
    assert (Hin : In j (complete n a)) by (eapply complete_In; eassumption).
    destruct (index_of_In _ _ Hin) as [Hidx _].
    rewrite (complete_length Ha) in Hidx.
    eapply complete_In; [exact Ha' |]. apply nth_In.
    now rewrite (complete_length Ha').
  - apply Nat.ltb_ge in E. split; lia.
Qed.

Lemma relabel_undo (n k : nat) (a a' : list nat) (j : nat) :
  arrangement n k a -> arrangement n k a' ->
  relabel n a' a (relabel n a a' j) = j.
Proof.
  intros Ha Ha'.
  pose proof (relabel_below j Ha Ha') as Hbelow.
  unfold relabel in *. destruct (j <? n) eqn:E.
  - apply Nat.ltb_lt in E.
    assert (Hin : In j (complete n a)) by (eapply complete_In; eassumption).
    destruct (index_of_In _ _ Hin) as [Hidx Hnth].
    set (i := index_of j (complete n a)) in *.
    rewrite (complete_length Ha) in Hidx.
    assert (Hi' : i < length (complete n a')) by now rewrite (complete_length Ha').
    set (j' := nth i (complete n a') j) in *.
    assert (Hnth' : nth_error (complete n a') i = Some j').
    { apply nth_error_nth'. exact Hi'. }
    assert (Hj' : j' < n) by (apply Hbelow; exact E).
    apply Nat.ltb_lt in Hj'. rewrite Hj'.
    rewrite (index_of_nth _ (complete_NoDup Ha') Hnth').
    apply nth_error_nth. exact Hnth.
  - now rewrite E.
Qed.

Lemma relabel_arrangement (n k : nat) (a a' : list nat) :
  arrangement n k a -> arrangement n k a' ->
  map (relabel n a a') a = a'.
Proof.
  intros Ha Ha'.
  pose proof Ha as (Hlen & Hnd & Hlt). pose proof Ha' as (Hlen' & Hnd' & Hlt').
  apply nth_ext with (d := 0) (d' := 0).
  - rewrite length_map. congruence.
  - rewrite length_map. intros p Hp.
    assert (Hap : nth_error a p = Some (nth p a 0)) by now apply nth_error_nth'.
    rewrite (nth_indep _ 0 (relabel n a a' 0)) by now rewrite length_map.
    rewrite map_nth. set (x := nth p a 0) in *.
    assert (Hx : x < n).
    { rewrite Forall_forall in Hlt. apply Hlt. eapply nth_error_In. exact Hap. }
    unfold relabel. apply Nat.ltb_lt in Hx. rewrite Hx.
    assert (Hidx : index_of x (complete n a) = p).
    { apply index_of_nth; [eapply complete_NoDup; eassumption |].
      now rewrite complete_head. }
    rewrite Hidx.
    apply nth_error_nth. rewrite complete_head by lia.
    apply nth_error_nth'. lia.
Qed.

Lemma contains_relabel (n k : nat) (a a' : list nat) (selected : list nat) (j : nat) :
  arrangement n k a -> arrangement n k a' ->
  contains (map (relabel n a a') selected) (relabel n a a' j) = contains selected j.
Proof.
  intros Ha Ha'. apply eq_true_iff_eq. rewrite !contains_spec, in_map_iff. split.
  - intros (x & Hx & Hin).
    apply (f_equal (relabel n a' a)) in Hx.
    rewrite !(relabel_undo _ Ha Ha') in Hx. now subst.
  - intros Hin. exists j. split; [reflexivity | exact Hin].
Qed.

(** The second branch commutes with a renaming of the positions. *)
Lemma reselect_relabel (n k : nat) (a a' : list nat) (selected : list nat) :
  arrangement n k a -> arrangement n k a' ->
  forall t : Tape,
    reselect n (map (relabel n a a') selected) (relabel_record n a a' t) =
    match reselect n selected t with
    | Some (j, t') => Some (relabel n a a' j, relabel_record n a a' t')
    | None => None
    end.
Proof.
  intros Ha Ha'. induction t as [| [m r] t IH]; simpl; [reflexivity |].
  destruct (m =? n) eqn:Hm; simpl; [| reflexivity].
  assert (Hr : (relabel n a a' r <? n) = (r <? n)).
  { apply eq_true_iff_eq. rewrite !Nat.ltb_lt. now apply relabel_below with (k := k). }
  rewrite Hr. destruct (r <? n); [| reflexivity].
  rewrite (contains_relabel _ _ Ha Ha').
  destruct (contains selected r); [exact IH | reflexivity].
Qed.

Lemma set_loop_relabel (n k : nat) (a a' : list nat) :
  arrangement n k a -> arrangement n k a' ->
  forall (rng selected : list nat) (t : Tape),
    set_loop (seq 0 n) n rng (map (relabel n a a') selected) (relabel_record n a a' t) =
    match set_loop (seq 0 n) n rng selected t with
    | Some (result, t') => Some (map (relabel n a a') result, relabel_record n a a' t')
    | None => None
    end.
Proof.
  intros Ha Ha'. induction rng as [| i rng IH]; intros selected t; simpl.
  - reflexivity.
  - rewrite (reselect_relabel _ Ha Ha').
    destruct (reselect n selected t) as [[j t1] |] eqn:Hj; [| reflexivity].
    destruct (reselect_inv _ _ _ Hj) as (Hlt & _ & _).
    assert (Hlt' : relabel n a a' j < n) by (eapply relabel_below; eassumption).
    rewrite !nth_error_seq.
    apply Nat.ltb_lt in Hlt, Hlt'. rewrite Hlt, Hlt'. simpl.
    specialize (IH (j :: selected) t1). simpl in IH. rewrite IH.
    destruct (set_loop (seq 0 n) n rng (j :: selected) t1) as [[res t2] |];
      reflexivity.
Qed.

Lemma relabel_record_undo (n k : nat) (a a' : list nat) (t : Tape) :
  arrangement n k a -> arrangement n k a' ->
  relabel_record n a' a (relabel_record n a a' t) = t.
Proof.
  intros Ha Ha'. unfold relabel_record. rewrite map_map.
  rewrite <- (map_id t) at 2. apply map_ext. intros [m j]. simpl.
  now rewrite (relabel_undo _ Ha Ha').
Qed.

Lemma relabel_record_bounds (n : nat) (a a' : list nat) (t : Tape) :
  bounds (relabel_record n a a' t) = bounds t.
Proof.
  unfold bounds, relabel_record. rewrite map_map. reflexivity.
Qed.

(** A run of the second branch with its answers renamed is a run that
    returns the renamed positions. *)
Lemma set_loop_renamed (n k : nat) (a a' : list nat) (t : Tape) :
  arrangement n k a -> arrangement n k a' ->
  set_loop (seq 0 n) n (seq 0 k) [] t = Some (a, []) ->
  set_loop (seq 0 n) n (seq 0 k) [] (relabel_record n a a' t) = Some (a', []).
Proof.
  intros Ha Ha' Hrun.
  pose proof (set_loop_relabel Ha Ha' (seq 0 k) [] t) as H. simpl in H.
  rewrite H, Hrun. now rewrite (relabel_arrangement Ha Ha').
Qed.

(** The run of the second branch that never has to draw again. *)
Lemma set_loop_direct (n : nat) : forall (a rng selected : list nat),
  length rng = length a ->
  NoDup a -> Forall (fun i => i < n) a ->
  (forall i, In i a -> ~ In i selected) ->
  set_loop (seq 0 n) n rng selected (map (fun j => (n, j)) a) = Some (a, []).
Proof.
  induction a as [| x a IH]; intros rng selected Hlen Hnd Hlt Hsel.
  - destruct rng; [reflexivity | discriminate].
  - destruct rng as [| i rng]; [discriminate |]. simpl.
    inversion Hlt as [| ? ? Hx Hlt']; subst. inversion Hnd as [| ? ? Hxa Hnd']; subst.
    rewrite Nat.eqb_refl. simpl.
    apply Nat.ltb_lt in Hx. rewrite Hx.
    assert (Hc : contains selected x = false).
    { apply contains_false. apply Hsel. now left. }
    rewrite Hc, nth_error_seq, Hx. simpl.
    rewrite IH; [reflexivity | | assumption | assumption |].
    + simpl in Hlen. lia.
    + intros i0 Hin [<- | Hs]; [contradiction |].
      apply (Hsel i0); [now right | exact Hs].
Qed.

Lemma odds_bounds (t t' : Tape) : bounds t = bounds t' -> odds t = odds t'.
Proof.
  unfold odds. now intros ->.
Qed.

(** [sample] draws without replacement: whichever branch it takes, what a
    run returns is an arrangement. *)
Lemma cpython_sample_arrangement (setsize n k : nat) (t : Tape) (a : list nat) (t' : Tape) :
  k <= n ->
  cpython_sample setsize (seq 0 n) k t = Some (a, t') ->
  arrangement n k a.
Proof.
  intros Hk. unfold cpython_sample. rewrite length_seq.
  destruct (n <=? setsize).
  - now apply pool_loop_arrangement.
  - intros Hrun.
    destruct (set_loop_bounds _ _ _ _ _ Hrun) as (_ & _ & _ & Hlen).
    destruct (set_loop_fresh _ _ _ _ Hrun) as (Hnd & Hlt & _).
    rewrite length_seq in Hlen. repeat split; assumption.
Qed.

(** Every arrangement is returned by some run. *)
Lemma cpython_sample_reaches (setsize n k : nat) (a : list nat) :
  k <= n -> arrangement n k a -> exists t : Tape, draws setsize n k t a.
Proof.
  intros Hk (Hlen & Hnd & Hlt). unfold draws, cpython_sample. rewrite length_seq.
  destruct (n <=? setsize).
  - exists (pool_record n (seq 0 k) (seq 0 n) a).
    apply pool_record_draws; try assumption.
    + apply length_seq.
    + rewrite Nat.sub_0_r, firstn_all2 by (rewrite length_seq; lia).
      apply seq_NoDup.
    + rewrite Nat.sub_0_r, firstn_all2 by (rewrite length_seq; lia).
      intros i Hi. apply in_seq. rewrite Forall_forall in Hlt.
      specialize (Hlt i Hi). lia.
  - exists (map (fun j => (n, j)) a).
    apply set_loop_direct; try assumption.
    + now rewrite length_seq.
    + intros i _ [].
Qed.

(** [sample] draws uniformly: any two arrangements are equally likely. *)
Lemma cpython_sample_uniform (setsize n k : nat) (a a' : list nat) :
  k <= n -> arrangement n k a -> arrangement n k a' ->
  equally_likely setsize n k a a'.
Proof.
  intros Hk Ha Ha'. unfold equally_likely, draws, cpython_sample.
  rewrite length_seq. destruct (n <=? setsize).
  - assert (Hlive : NoDup (firstn (n - 0) (seq 0 n))).
    { rewrite Nat.sub_0_r, firstn_all2 by (rewrite length_seq; lia).
      apply seq_NoDup. }
    assert (Hrec : forall b, arrangement n k b ->
              pool_loop n (seq 0 k) (seq 0 n)
                (pool_record n (seq 0 k) (seq 0 n) b) = Some (b, [])).
    { intros b (Hlen & Hnd & Hlt). apply pool_record_draws; try assumption.
      - apply length_seq.
      - rewrite Nat.sub_0_r, firstn_all2 by (rewrite length_seq; lia).
        intros i Hi. apply in_seq. rewrite Forall_forall in Hlt.
        specialize (Hlt i Hi). lia. }
    assert (Huniq : forall b t,
              pool_loop n (seq 0 k) (seq 0 n) t = Some (b, []) ->
              t = pool_record n (seq 0 k) (seq 0 n) b).
    { intros b t Hrun. apply pool_record_unique; try assumption.
      apply length_seq. }
    assert (Hb : forall b t,
              pool_loop n (seq 0 k) (seq 0 n) t = Some (b, []) ->
              bounds t = map (fun i => n - i) (seq 0 k)).
    { intros b t Hrun.
      destruct (pool_loop_bounds _ _ _ _ Hrun) as (used & -> & Hbd & _).
      now rewrite app_nil_r. }
    exists (fun _ => pool_record n (seq 0 k) (seq 0 n) a'),
           (fun _ => pool_record n (seq 0 k) (seq 0 n) a).
    split; intros t Hrun.
    + assert (Hbb : bounds (pool_record n (seq 0 k) (seq 0 n) a') = bounds t).
      { rewrite (Hb _ _ Hrun). apply (Hb a'). now apply Hrec. }
      split; [now apply Hrec |]. split; [exact Hbb |].
      split; [now apply odds_bounds |]. symmetry. now apply Huniq.
    + assert (Hbb : bounds (pool_record n (seq 0 k) (seq 0 n) a) = bounds t).
      { rewrite (Hb _ _ Hrun). apply (Hb a). now apply Hrec. }
      split; [now apply Hrec |]. split; [exact Hbb |].
      split; [now apply odds_bounds |]. symmetry. now apply Huniq.
  - exists (relabel_record n a a'), (relabel_record n a' a).
    split; intros t Hrun.
    + split; [now apply set_loop_renamed |].
      split; [apply relabel_record_bounds |].
      split; [apply odds_bounds, relabel_record_bounds |].
      now apply relabel_record_undo with (k := k).
    + split; [now apply set_loop_renamed |].
      split; [apply relabel_record_bounds |].
      split; [apply odds_bounds, relabel_record_bounds |].
      now apply relabel_record_undo with (k := k).
Qed.

(** ** [random.sample] in CPython: positions and items

    [sample] moves items of the population around, never looking at them:
    what it returns are the items at the positions it returns on
    [range(n)]. *)

Lemma Forall2_nth_error {A B : Type} (Rel : A -> B -> Prop) (l1 : list A) (l2 : list B) :
  Forall2 Rel l1 l2 ->
  forall j : nat,
    match nth_error l1 j, nth_error l2 j with
    | Some x, Some y => Rel x y
    | None, None => True
    | _, _ => False
    end.
Proof.
  induction 1 as [| x y l1 l2 Hxy _ IH]; intros [| j]; simpl; auto.
  apply IH.
Qed.

Lemma Forall2_setitem {A B : Type} (Rel : A -> B -> Prop) (l1 : list A) (l2 : list B) :
  Forall2 Rel l1 l2 ->
  forall (j : nat) (y1 : A) (y2 : B),
    Rel y1 y2 -> Forall2 Rel (setitem l1 j y1) (setitem l2 j y2).
Proof.
  induction 1 as [| x y l1 l2 Hxy Hl IH]; intros [| j] y1 y2 Hy; simpl;
    constructor; auto.
Qed.

Lemma pool_loop_related {A B : Type} (Rel : A -> B -> Prop) (n : nat) :
  forall (rng : list nat) (p1 : list A) (p2 : list B) (t : Tape),
    Forall2 Rel p1 p2 ->
    match pool_loop n rng p1 t, pool_loop n rng p2 t with
    | Some (r1, t1), Some (r2, t2) => Forall2 Rel r1 r2 /\ t1 = t2
    | None, None => True
    | _, _ => False
    end.
Proof.
  induction rng as [| i rng IH]; intros p1 p2 t Hp; simpl.
  - split; [constructor | reflexivity].
  - destruct (randbelow (n - i) t) as [[j t1] |]; [| exact I].
    pose proof (Forall2_nth_error Hp j) as Hj.
    pose proof (Forall2_nth_error Hp (n - i - 1)) as Hm.
    destruct (nth_error p1 j) as [x1 |], (nth_error p2 j) as [x2 |];
      try contradiction; [| exact I].
    destruct (nth_error p1 (n - i - 1)) as [y1 |], (nth_error p2 (n - i - 1)) as [y2 |];
      try contradiction; [| exact I].
    specialize (IH _ _ t1 (@Forall2_setitem _ _ Rel _ _ Hp j y1 y2 Hm)).
    destruct (pool_loop n rng (setitem p1 j y1) t1) as [[r1 t2] |],
             (pool_loop n rng (setitem p2 j y2) t1) as [[r2 t2'] |];
      try contradiction; [| exact I].
    destruct IH as [Hr ->]. split; [constructor; assumption | reflexivity].
Qed.

Lemma positions_of_items {A : Type} (l : list A) : forall pre : list A,
  Forall2 (fun i x => nth_error (pre ++ l) i = Some x)
    (seq (length pre) (length l)) l.
Proof.
  induction l as [| x l IH]; intros pre; simpl.
  - constructor.
  - constructor.
    + rewrite nth_error_app2, Nat.sub_diag by lia. reflexivity.
    + specialize (IH (pre ++ [x])).
      rewrite <- app_assoc, length_app, Nat.add_1_r in IH. exact IH.
Qed.

Lemma select_of_items {A : Type} (population : list A) (idx : list nat) (drawn : list A) :
  Forall2 (fun i x => nth_error population i = Some x) idx drawn ->
  select population idx = drawn.
Proof.
  induction 1 as [| i x idx drawn Hi _ IH]; simpl.
  - reflexivity.
  - rewrite Hi. simpl. now rewrite IH.
Qed.

Lemma set_loop_positions {A : Type} (population : list A) :
  forall (rng selected : list nat) (t : Tape),
    set_loop population (length population) rng selected t =
    match set_loop (seq 0 (length population)) (length population) rng selected t with
    | Some (idx, t') => Some (select population idx, t')
    | None => None
    end.
Proof.
  induction rng as [| i rng IH]; intros selected t; simpl.
  - reflexivity.
  - destruct (reselect (length population) selected t) as [[j t1] |] eqn:Hj;
      [| reflexivity].
    destruct (reselect_inv _ _ _ Hj) as (Hlt & _ & _).
    rewrite nth_error_seq. apply Nat.ltb_lt in Hlt. rewrite Hlt. simpl.
    apply Nat.ltb_lt in Hlt.
    destruct (nth_error population j) as [x |] eqn:Hx.
    2: { apply nth_error_None in Hx. lia. }
    rewrite IH.
    destruct (set_loop (seq 0 (length population)) (length population) rng
                (j :: selected) t1) as [[idx t2] |]; [| reflexivity].
    simpl. now rewrite Hx.
Qed.

(** [sample] on a population, from [sample] on its positions. *)
Lemma cpython_sample_positions {A : Type} (setsize : nat) (population : list A)
    (k : nat) (t : Tape) :
  cpython_sample setsize population k t =
  match cpython_sample setsize (seq 0 (length population)) k t with
  | Some (idx, t') => Some (select population idx, t')
  | None => None
  end.
Proof.
  unfold cpython_sample. rewrite length_seq.
  destruct (length population <=? setsize).
  - pose proof (positions_of_items population []) as Hp. simpl in Hp.
    pose proof (pool_loop_related (length population) (seq 0 k) t Hp) as Hrel.
    destruct (pool_loop (length population) (seq 0 k) (seq 0 (length population)) t)
      as [[idx t1] |],
      (pool_loop (length population) (seq 0 k) population t) as [[drawn t2] |];
      try contradiction; [| reflexivity].
    destruct Hrel as [Hrel ->]. apply select_of_items in Hrel. now rewrite Hrel.
  - apply set_loop_positions.
Qed.

(** ** [random.sample] in CPython: the draw completes *)

(** The first branch completes on any answers in range. *)
Lemma pool_loop_completes {A : Type} (n : nat) : forall (c i : nat) (pool : list A)
    (js : list nat) (rest : Tape),
  length pool = n ->
  i + c <= n ->
  Forall2 (fun i j => j < n - i) (seq i c) js ->
  exists result : list A,
    pool_loop n (seq i c) pool
      (combine (map (fun i => n - i) (seq i c)) js ++ rest) = Some (result, rest).
Proof.
  induction c as [| c IH]; intros i pool js rest Hpool Hic Hjs; simpl in *.
  - exists []. inversion Hjs; subst. reflexivity.
  - inversion Hjs as [| ? j ? js' Hj Hjs']; subst. simpl.
    rewrite Nat.eqb_refl. simpl. apply Nat.ltb_lt in Hj. rewrite Hj.
    apply Nat.ltb_lt in Hj.
    destruct (nth_error pool j) as [x |] eqn:Hx.
    2: { apply nth_error_None in Hx. lia. }
    destruct (nth_error pool (length pool - i - 1)) as [y |] eqn:Hy.
    2: { apply nth_error_None in Hy. lia. }
    destruct (IH (S i) (setitem pool j y) js' rest) as (result & Hrun).
    + apply setitem_length.
    + lia.
    + exact Hjs'.
    + exists (x :: result). now rewrite Hrun.
Qed.

(** The inner loop of the second branch stops at the first answer in range
    that was not selected before. *)
Lemma reselect_first (n : nat) (selected : list nat) (rest : Tape) :
  forall js : list nat,
    Forall (fun j => j < n) js ->
    (exists x, In x js /\ ~ In x selected) ->
    exists (rejected : list nat) (j : nat) (js' : list nat),
      js = rejected ++ j :: js' /\
      incl rejected selected /\ ~ In j selected /\
      reselect n selected (set_answers n js ++ rest)
      = Some (j, set_answers n js' ++ rest).
Proof.
  induction js as [| r js IH]; intros Hlt (x & Hx & Hnew); [destruct Hx |].
  inversion Hlt as [| ? ? Hr Hlt']; subst. simpl.
  rewrite Nat.eqb_refl. simpl. apply Nat.ltb_lt in Hr. rewrite Hr.
  destruct (contains selected r) eqn:Hsel.
  - apply contains_spec in Hsel.
    destruct IH as (rejected & j & js' & -> & Hrej & Hj & Hrun); [exact Hlt' | |].
    + exists x. split; [| exact Hnew].
      destruct Hx as [<- | Hx]; [contradiction | exact Hx].
    + exists (r :: rejected), j, js'. split; [reflexivity |].
      split; [| split; [exact Hj | exact Hrun]].
      intros z [<- | Hz]; [exact Hsel | now apply Hrej].
  - apply contains_false in Hsel.
    exists [], r, js. split; [reflexivity |].
    split; [intros z [] |]. split; [exact Hsel | reflexivity].
Qed.

(** The second branch completes as soon as the answers hold as many
    different positions, not selected before, as are to be drawn. *)
Lemma set_loop_completes (n : nat) (rest : Tape) :
  forall (rng selected js : list nat),
    Forall (fun j => j < n) js ->
    (exists a : list nat,
        NoDup a /\ length a = length rng /\ incl a js /\
        forall x, In x a -> ~ In x selected) ->
    exists (idx : list nat) (rest' : Tape),
      set_loop (seq 0 n) n rng selected (set_answers n js ++ rest)
      = Some (idx, rest').
Proof.
  induction rng as [| i rng IH]; intros selected js Hlt (a & Hnd & Hlen & Hincl & Hnew).
  - simpl. eauto.
  - destruct a as [| x0 a0] eqn:Ha; [discriminate |]. rewrite <- Ha in *.
    destruct (reselect_first selected rest Hlt) as (rejected & j & js' & Hjs & Hrej & Hj & Hrun).
    { exists x0. subst a. split; [apply Hincl; now left | apply Hnew; now left]. }
    assert (Hltj : j < n).
    { rewrite Forall_forall in Hlt. apply Hlt. rewrite Hjs.
      apply in_or_app. right. now left. }
    simpl. rewrite Hrun, nth_error_seq.
    apply Nat.ltb_lt in Hltj. rewrite Hltj. simpl.
    destruct (IH (j :: selected) js') as (idx & rest' & Hloop).
    + rewrite Hjs in Hlt. apply Forall_app in Hlt. destruct Hlt as [_ Hlt].
      now inversion Hlt.
    + assert (Hkeep : forall b, incl b a -> ~ In j b -> incl b js' /\
                        forall x, In x b -> ~ In x (j :: selected)).
      { intros b Hb Hjb. split.
        - intros z Hz. specialize (Hincl z (Hb z Hz)).
          rewrite Hjs in Hincl. apply in_app_or in Hincl.
          destruct Hincl as [Hz' | [<- | Hz']].
          + exfalso. apply (Hnew z (Hb z Hz)). now apply Hrej.
          + contradiction.
          + exact Hz'.
        - intros z Hz [<- | Hs]; [contradiction |].
          apply (Hnew z (Hb z Hz)). exact Hs. }
      destruct (in_dec Nat.eq_dec j a) as [Hin | Hout].
      * destruct (in_split _ _ Hin) as (a1 & a2 & Hsplit).
        exists (a1 ++ a2).
        assert (Hnd' : NoDup (a1 ++ a2) /\ ~ In j (a1 ++ a2)).
        { rewrite Hsplit in Hnd. split.
          - eapply NoDup_remove_1. exact Hnd.
          - eapply NoDup_remove_2. exact Hnd. }
        destruct Hnd' as [Hnd1 Hnd2].
        destruct (Hkeep (a1 ++ a2)) as [Hk1 Hk2]; [| exact Hnd2 |].
        { rewrite Hsplit. intros z Hz. apply in_app_or in Hz.
          apply in_or_app. destruct Hz; [now left | right; now right]. }
        split; [exact Hnd1 |]. split; [| split; assumption].
        rewrite Hsplit, length_app in Hlen. simpl in Hlen.
        rewrite length_app. lia.
      * exists a0.
        assert (Hsub : incl a0 a) by (rewrite Ha; intros z Hz; now right).
        destruct (Hkeep a0 Hsub) as [Hk1 Hk2].
        { intros Hz. apply Hout. now apply Hsub. }
        split; [rewrite Ha in Hnd; now inversion Hnd |].
        split; [| split; assumption].
        rewrite Ha in Hlen. simpl in Hlen. lia.
    + exists (j :: idx), rest'. now rewrite Hloop.
Qed.

(** [sample] returns whenever the generator answers in range: in the first
    branch on any [k] answers, in the second as soon as [k] different
    positions have been answered. *)
Lemma cpython_sample_completes (setsize n k : nat) :
  k <= n ->
  (n <= setsize ->
   forall (js : list nat) (rest : Tape),
     Forall2 (fun i j => j < n - i) (seq 0 k) js ->
     exists idx : list nat,
       cpython_sample setsize (seq 0 n) k (pool_answers n js ++ rest)
       = Some (idx, rest)) /\
  (setsize < n ->
   forall (js : list nat) (rest : Tape),
     Forall (fun j => j < n) js ->
     (exists a : list nat, arrangement n k a /\ incl a js) ->
     exists (idx : list nat) (rest' : Tape),
       cpython_sample setsize (seq 0 n) k (set_answers n js ++ rest)
       = Some (idx, rest')).
Proof.
  intros Hk. unfold cpython_sample. rewrite length_seq. split.
  - intros Hsmall js rest Hjs.
    apply Nat.leb_le in Hsmall. rewrite Hsmall.
    unfold pool_answers.
    assert (Hlen : length js = k).
    { rewrite <- (Forall2_length Hjs). apply length_seq. }
    rewrite Hlen.
    apply pool_loop_completes; [apply length_seq | lia | exact Hjs].
  - intros Hlarge js rest Hjs (a & (Hlen & Hnd & Hlt) & Hincl).
    apply Nat.leb_gt in Hlarge. rewrite Hlarge.
    apply set_loop_completes; [exact Hjs |].
    exists a. split; [exact Hnd |]. split; [now rewrite length_seq |].
    split; [exact Hincl | intros x _ []].
Qed.

(** ** [ReplayBuffer.sample] on CPython's [random.sample] *)

Section CPythonFacts.

Context {Sp : Spaces} (setsize : nat -> nat) (outcomes : Z -> Tape).

(** On a record that is a run of the draw, [sample] returns the batch built
    from the items at the positions drawn, and leaves the generator with the
    rest of the record. *)
Lemma ReplayBuffer_sample_cpython (buf : ReplayBuffer)
    (G : @Globals (cpython_random setsize outcomes)) (idx : list nat) (rest : Tape) :
  (1 <= rb_batch_size buf <= ReplayBuffer_len buf)%Z ->
  let population := items (replay_memory buf) in
  let k := Z.to_nat (rb_batch_size buf) in
  cpython_sample (setsize k) (seq 0 (length population)) k (random_state G)
  = Some (idx, rest) ->
  ReplayBuffer_sample (R := cpython_random setsize outcomes) (buf, G) =
  (Ok (batch_of (select population idx)),
   (buf, mkGlobals (R := cpython_random setsize outcomes) rest (os_entropy G))) /\
  arrangement (length population) k idx /\
  Forall2 (fun i e => nth_error population i = Some e) idx (select population idx).
Proof.
  intros [Hone Hlen] population k Hrun.
  unfold ReplayBuffer_len, deque_len in Hlen. fold population in Hlen.
  assert (Harr : arrangement (length population) k idx).
  { eapply cpython_sample_arrangement; [| exact Hrun]. subst k. lia. }
  pose proof Harr as (Hk & _ & Hrange).
  split; [| split; [exact Harr | now apply select_at]].
  rewrite ReplayBuffer_sample_run. cbv zeta. fold population.
  replace ((0 <=? _) && _)%Z with true
    by (symmetry; apply andb_true_iff; split; apply Z.leb_le; lia).
  fold k.
  assert (Hpos : @sample_positions (cpython_random setsize outcomes)
                   (random_state G) (length population) k = (idx, rest)).
  { change (@sample_positions (cpython_random setsize outcomes)
              (random_state G) (length population) k)
      with (match cpython_sample (setsize k) (seq 0 (length population)) k
                    (random_state G) with
            | Some drawn => drawn
            | None => ([], random_state G)
            end).
    now rewrite Hrun. }
  rewrite Hpos. simpl.
  pose proof (select_length population Hrange) as Hsel.
  destruct (select population idx); [| reflexivity].
  simpl in Hsel. subst k. lia.
Qed.

End CPythonFacts.

(** ** Claims about [ReplayBuffer.sample] *)

(** C9.  [sample] leaves the buffer as it found it: the buffer object after
    the call is the one before it, so the stored transitions, their order
    and the length are the same, whether the call returns or raises. *)
Theorem sample_leaves_buffer_unchanged :
  forall (Sp : Spaces) (R : RandomModule) (buf : ReplayBuffer) (G : Globals),
    let buf' := fst (snd (ReplayBuffer_sample (buf, G))) in
    buf' = buf /\
    items (replay_memory buf') = items (replay_memory buf) /\
    ReplayBuffer_len buf' = ReplayBuffer_len buf.
Proof.
  intros Sp R buf G buf'. subst buf'.
  rewrite ReplayBuffer_sample_frame. repeat split.
Qed.

(** C4, as the code has it, [random.sample] being CPython's.  When
    [1 <= batch_size <= len(buffer)], on every run of the draw [sample]
    returns five columns of [batch_size] rows each.  The rows are the fields
    of the transitions [random.sample] returns on the stored items, which
    are the items at [batch_size] pairwise distinct positions of the buffer:
    the draw is without replacement, and no stored transition is used twice
    in the batch.  The draw returns whenever the generator answers in
    range: in the first branch of [random.sample] on any [batch_size]
    answers, in the second as soon as [batch_size] different positions have
    been answered.  The draw is uniform: every arrangement of [batch_size]
    distinct positions is returned by some run, and any two arrangements
    are equally likely, the runs that return the one and the runs that
    return the other being in one to one correspondence, corresponding runs
    making the same calls to [_randbelow]. *)
Theorem sample_returns_distinct_rows :
  forall (Sp : Spaces) (setsize : nat -> nat) (outcomes : Z -> Tape)
         (buf : ReplayBuffer),
    let population := items (replay_memory buf) in
    let n := length population in
    let k := Z.to_nat (rb_batch_size buf) in
    (1 <= rb_batch_size buf <= ReplayBuffer_len buf)%Z ->
    (forall (G : @Globals (cpython_random setsize outcomes))
            (idx : list nat) (rest : Tape),
        cpython_sample (setsize k) (seq 0 n) k (random_state G) = Some (idx, rest) ->
        exists (drawn : list Experience) (b : Batch),
          ReplayBuffer_sample (R := cpython_random setsize outcomes) (buf, G)
          = (Ok b,
             (buf, mkGlobals (R := cpython_random setsize outcomes) rest (os_entropy G))) /\
          cpython_sample (setsize k) population k (random_state G)
          = Some (drawn, rest) /\
          length idx = k /\
          NoDup idx /\
          Forall2 (fun i e => nth_error population i = Some e) idx drawn /\
          states b = map state drawn /\
          actions b = map action drawn /\
          rewards b = map reward drawn /\
          next_states b = map next_state drawn /\
          dones b = map (fun e => Z.b2z (done e)) drawn /\
          Z.of_nat (length (states b)) = rb_batch_size buf /\
          Z.of_nat (length (actions b)) = rb_batch_size buf /\
          Z.of_nat (length (rewards b)) = rb_batch_size buf /\
          Z.of_nat (length (next_states b)) = rb_batch_size buf /\
          Z.of_nat (length (dones b)) = rb_batch_size buf) /\
    (n <= setsize k ->
     forall (js : list nat) (rest : Tape),
       Forall2 (fun i j => j < n - i) (seq 0 k) js ->
       exists idx : list nat,
         cpython_sample (setsize k) (seq 0 n) k (pool_answers n js ++ rest)
         = Some (idx, rest)) /\
    (setsize k < n ->
     forall (js : list nat) (rest : Tape),
       Forall (fun j => j < n) js ->
       (exists a : list nat, arrangement n k a /\ incl a js) ->
       exists (idx : list nat) (rest' : Tape),
         cpython_sample (setsize k) (seq 0 n) k (set_answers n js ++ rest)
         = Some (idx, rest')) /\
    (forall a : list nat,
        arrangement n k a -> exists t : Tape, draws (setsize k) n k t a) /\
    (forall a a' : list nat,
        arrangement n k a -> arrangement n k a' ->
        equally_likely (setsize k) n k a a').
Proof.
  intros Sp setsize outcomes buf population n k Hsize.
  assert (Hk : k <= n).
  { destruct Hsize as [_ Hlen]. unfold ReplayBuffer_len, deque_len in Hlen.
    subst k n population. lia. }
  split; [| split; [| split; [| split]]].
  - intros G idx rest Hrun.
    destruct (@ReplayBuffer_sample_cpython Sp setsize outcomes buf G idx rest Hsize Hrun)
      as (Hres & (Hlen & Hnd & Hlt) & Hat).
    fold population in Hres, Hat. fold k in Hlen.
    exists (select population idx), (batch_of (select population idx)).
    assert (Hrows : Z.of_nat (length (select population idx)) = rb_batch_size buf).
    { rewrite <- (Forall2_length Hat), Hlen. subst k. lia. }
    split; [exact Hres |]. split.
    { rewrite cpython_sample_positions. fold n. now rewrite Hrun. }
    simpl. rewrite !length_map, map_map.
    repeat split; assumption.
  - apply (cpython_sample_completes (setsize k) Hk).
  - apply (cpython_sample_completes (setsize k) Hk).
  - intros a Ha. now apply cpython_sample_reaches.
  - intros a a' Ha Ha'. now apply cpython_sample_uniform.
Qed.

Lemma sample_returns_distinct_rows_witness :
  let buf := mkReplayBuffer (Sp := tagged) None 2
               (mkDeque (map tag [3; 4; 5; 6; 7]%Z) 5) 2 in
  let G := mkGlobals (R := cpython_random set_size (fun _ => []))
             [(5, 3); (4, 0); (9, 9)] [] in
  let large := mkReplayBuffer (Sp := tagged) None 2
                 (mkDeque (map tag (map Z.of_nat (seq 1 22))) 30) 2 in
  let G2 := mkGlobals (R := cpython_random set_size (fun _ => []))
              [(22, 8); (22, 8); (22, 9)] [] in
  (1 <= rb_batch_size buf <= ReplayBuffer_len buf)%Z /\
  (exists b : @Batch tagged,
      ReplayBuffer_sample (R := cpython_random set_size (fun _ => [])) (buf, G)
      = (Ok b,
         (buf, mkGlobals (R := cpython_random set_size (fun _ => [])) [(9, 9)] [])) /\
      states b = [6; 3]%Z /\
      Z.of_nat (length (dones b)) = 2%Z) /\
  equally_likely (set_size 2) 5 2 [3; 0] [1; 4] /\
  (1 <= rb_batch_size large <= ReplayBuffer_len large)%Z /\
  (exists b : @Batch tagged,
      ReplayBuffer_sample (R := cpython_random set_size (fun _ => [])) (large, G2)
      = (Ok b,
         (large, mkGlobals (R := cpython_random set_size (fun _ => [])) [] [])) /\
      states b = [9; 10]%Z) /\
  equally_likely (set_size 2) 22 2 [8; 9] [21; 0].
Proof.
  intros buf G large G2.
  assert (Hsize : (1 <= rb_batch_size buf <= ReplayBuffer_len buf)%Z)
    by (vm_compute; split; discriminate).
  assert (Hlarge : (1 <= rb_batch_size large <= ReplayBuffer_len large)%Z)
    by (vm_compute; split; discriminate).
  destruct (@sample_returns_distinct_rows tagged set_size (fun _ => []) buf Hsize)
    as (Hrun & _ & _ & _ & Huniform).
  destruct (@sample_returns_distinct_rows tagged set_size (fun _ => []) large Hlarge)
    as (Hrun2 & _ & _ & _ & Huniform2).
  split; [exact Hsize |]. split; [| split; [| split; [exact Hlarge | split]]].
  - destruct (Hrun G [3; 0] [(9, 9)] eq_refl)
      as (drawn & b & Hres & Hdrawn & _ & _ & _ & Hst & _ & _ & _ & _ & _ & _ & _ & _ & Hlen).
    exists b. split; [exact Hres |]. split; [| exact Hlen].
    rewrite Hst. vm_compute in Hdrawn. inversion Hdrawn. reflexivity.
  - apply Huniform; (split; [reflexivity |]); split;
      repeat constructor; simpl; intuition lia.
  - destruct (Hrun2 G2 [8; 9] [] eq_refl)
      as (drawn & b & Hres & Hdrawn & _ & _ & _ & Hst & _).
    exists b. split; [exact Hres |].
    rewrite Hst. vm_compute in Hdrawn. inversion Hdrawn. reflexivity.
  - apply Huniform2; (split; [reflexivity |]); split;
      repeat constructor; simpl; intuition lia.
Defined.

(** C4 as stated fails when [batch_size] is 0 or negative: the buffer then
    holds at least [batch_size] transitions, and [sample] raises instead of
    returning five columns of that length. *)
Lemma sample_zero_batch_raises :
  (exists s : @ReplayBuffer tagged * @Globals lcg,
      buffer_with 5 0 (Some 0%Z) [1; 2; 3]%Z fresh_globals = Some s /\
      (rb_batch_size (fst s) <= ReplayBuffer_len (fst s))%Z /\
      forall b : @Batch tagged, fst (ReplayBuffer_sample s) <> Ok b) /\
  (exists s : @ReplayBuffer tagged * @Globals lcg,
      buffer_with 5 (-1) (Some 0%Z) [1; 2; 3]%Z fresh_globals = Some s /\
      (rb_batch_size (fst s) <= ReplayBuffer_len (fst s))%Z /\
      forall b : @Batch tagged, fst (ReplayBuffer_sample s) <> Ok b).
Proof.
  split; eexists; (split; [reflexivity |]);
    (split; [vm_compute; discriminate | intros b; vm_compute; discriminate]).
Qed.

(** C5, as the code has it.  [sample] raises whenever the buffer holds fewer
    than [batch_size] transitions, and it returns a batch exactly when
    [1 <= batch_size <= len(buffer)]. *)
Theorem sample_succeeds_iff_enough :
  forall (Sp : Spaces) (R : RandomModule),
    without_replacement R ->
    forall (buf : ReplayBuffer) (G : Globals),
      ((ReplayBuffer_len buf < rb_batch_size buf)%Z ->
       fst (ReplayBuffer_sample (buf, G)) = Raise ValueError) /\
      (is_ok (fst (ReplayBuffer_sample (buf, G))) = true <->
       (1 <= rb_batch_size buf <= ReplayBuffer_len buf)%Z).
Proof.
  intros Sp R Hcontract buf G. split.
  - intros Hshort. now rewrite ReplayBuffer_sample_short.
  - split.
    + intros Hok.
      destruct (Z.lt_ge_cases (ReplayBuffer_len buf) (rb_batch_size buf)) as [Hs | Hs].
      { rewrite ReplayBuffer_sample_short in Hok by assumption. discriminate. }
      destruct (Z.lt_trichotomy (rb_batch_size buf) 0) as [Hn | [Hz | Hp]].
      * rewrite ReplayBuffer_sample_negative in Hok by assumption. discriminate.
      * rewrite (ReplayBuffer_sample_empty_batch Hcontract buf G Hz) in Hok.
        discriminate.
      * lia.
    + intros Hsize.
      destruct (ReplayBuffer_sample_ok Hcontract buf G Hsize) as (Hrun & _).
      rewrite Hrun. reflexivity.
Qed.

Lemma sample_succeeds_iff_enough_witness :
  let full := mkReplayBuffer (Sp := tagged) None 2
                (mkDeque (map tag [3; 4; 5; 6; 7]%Z) 5) 2 in
  let greedy := mkReplayBuffer (Sp := tagged) None 2
                  (mkDeque (map tag [3; 4; 5; 6; 7]%Z) 5) 6 in
  let G := mkGlobals (R := lcg) 12345%Z [] in
  fst (ReplayBuffer_sample (greedy, G)) = Raise ValueError /\
  is_ok (fst (ReplayBuffer_sample (full, G))) = true.
Proof.
  intros full greedy G. split.
  - apply (proj1 (@sample_succeeds_iff_enough tagged lcg lcg_without_replacement
                    greedy G)).
    vm_compute. reflexivity.
  - apply (proj2 (@sample_succeeds_iff_enough tagged lcg lcg_without_replacement
                    full G)).
    vm_compute. split; discriminate.
Defined.

(** C5 as stated fails when [batch_size] is 0 or negative: the length is at
    least [batch_size], and [sample] raises [ValueError]. *)
Lemma sample_raises_with_enough_stored :
  (exists s : @ReplayBuffer tagged * @Globals lcg,
      buffer_with 10 0 (Some 1%Z) [] fresh_globals = Some s /\
      (ReplayBuffer_len (fst s) >= rb_batch_size (fst s))%Z /\
      fst (ReplayBuffer_sample s) = Raise ValueError) /\
  (exists s : @ReplayBuffer tagged * @Globals lcg,
      buffer_with 10 (-3) (Some 1%Z) [1; 2]%Z fresh_globals = Some s /\
      (ReplayBuffer_len (fst s) >= rb_batch_size (fst s))%Z /\
      fst (ReplayBuffer_sample s) = Raise ValueError).
Proof.
  split; eexists; (split; [reflexivity |]);
    (split; [vm_compute; discriminate | vm_compute; reflexivity]).
Qed.

(** ** The coordinator *)

Section CoordinatorFacts.

Context {Sp : Spaces} {R : RandomModule} {Ag : AgentClass}.

Lemma set_memory_same (m : MADDPG) : set_memory m (memory m) = m.
Proof. destruct m. reflexivity. Qed.

Lemma recorded_eq (es : list Experience) (p : Process) :
  recorded es p =
  mkProcess
    (set_memory (self p)
       (set_replay_memory (memory (self p))
          (deque_extend (replay_memory (memory (self p))) es)))
    (globals p)
    (calls p ++ map CallAdd es).
Proof.
  unfold recorded. rewrite ReplayBuffer_add_all_run. reflexivity.
Qed.

Lemma recorded_app (es1 es2 : list Experience) (p : Process) :
  recorded es2 (recorded es1 p) = recorded (es1 ++ es2) p.
Proof.
  rewrite !recorded_eq. simpl. unfold deque_extend.
  rewrite fold_left_app, map_app, app_assoc. reflexivity.
Qed.

Lemma recorded_nil (p : Process) : recorded [] p = p.
Proof.
  rewrite recorded_eq. simpl. rewrite app_nil_r.
  destruct p as [[? ? ? ? ? [? ? [? ?] ?]] ? ?]. reflexivity.
Qed.

Lemma recorded_configuration (es : list Experience) (p : Process) :
  num_agents (self (recorded es p)) = num_agents (self p) /\
  gamma (self (recorded es p)) = gamma (self p) /\
  minsamples_before_train (self (recorded es p)) = minsamples_before_train (self p) /\
  agents (self (recorded es p)) = agents (self p) /\
  rb_batch_size (memory (self (recorded es p))) = rb_batch_size (memory (self p)) /\
  globals (recorded es p) = globals p.
Proof. rewrite recorded_eq. simpl. repeat split. Qed.

Lemma memory_add_run (e : Experience) (p : Process) :
  memory_add (state e) (action e) (reward e) (next_state e) (done e) p =
  (Ok tt, recorded [e] p).
Proof.
  unfold memory_add, bind, on_memory, emit, modify.
  rewrite ReplayBuffer_add_run, recorded_eq. destruct e. reflexivity.
Qed.

(** *** The recording loop *)

Lemma transitions_length (ss : list State) : forall (aa : list Action)
  (rr : list Reward) (ss' : list State) (dd : list bool) (k : nat),
  length ss = k -> length aa = k -> length rr = k -> length ss' = k ->
  length dd = k ->
  length (transitions ss aa rr ss' dd) = k.
Proof.
  induction ss as [| s ss IH]; intros aa rr ss' dd k H1 H2 H3 H4 H5.
  - exact H1.
  - destruct aa, rr, ss', dd, k; simpl in *; try discriminate.
    f_equal. apply IH; congruence.
Qed.

Lemma transitions_nth (ss : list State) : forall (aa : list Action)
  (rr : list Reward) (ss' : list State) (dd : list bool) (i : nat) (e : Experience),
  nth_error (transitions ss aa rr ss' dd) i = Some e ->
  nth_error ss i = Some (state e) /\
  nth_error aa i = Some (action e) /\
  nth_error rr i = Some (reward e) /\
  nth_error ss' i = Some (next_state e) /\
  nth_error dd i = Some (done e).
Proof.
  induction ss as [| s ss IH]; intros aa rr ss' dd i e He.
  - destruct i; discriminate.
  - destruct aa, rr, ss', dd; try (destruct i; discriminate).
    destruct i as [| i]; simpl in He.
    + inversion He; subst. simpl. repeat split.
    + simpl. apply IH. exact He.
Qed.

Lemma save_trajectory_run (ss : list State) (aa : list Action) (rr : list Reward)
  (ss' : list State) (dd : list bool) (i : nat) (e : Experience) (p : Process) :
  nth_error (transitions ss aa rr ss' dd) i = Some e ->
  save_trajectory ss aa rr ss' dd i p = (Ok tt, recorded [e] p).
Proof.
  intros He. apply transitions_nth in He.
  destruct He as (H1 & H2 & H3 & H4 & H5).
  unfold save_trajectory, bind, lift_result, getitem.
  rewrite H1, H2, H3, H4, H5. apply memory_add_run.
Qed.

Lemma skipn_nth_error {A : Type} (l : list A) : forall (i : nat) (x : A),
  nth_error l i = Some x -> skipn i l = x :: skipn (S i) l.
Proof.
  induction l as [| y l IH]; intros i x Hx.
  - destruct i; discriminate.
  - destruct i as [| i]; simpl in *.
    + now inversion Hx.
    + apply IH. exact Hx.
Qed.

Lemma recording_loop (ss : list State) (aa : list Action) (rr : list Reward)
  (ss' : list State) (dd : list bool) (m : nat) :
  forall (i : nat) (p : Process),
    i + m <= length (transitions ss aa rr ss' dd) ->
    for_each (seq i m) (save_trajectory ss aa rr ss' dd) p =
    (Ok tt, recorded (firstn m (skipn i (transitions ss aa rr ss' dd))) p).
Proof.
  induction m as [| m IH]; intros i p Hle.
  - simpl. now rewrite recorded_nil.
  - destruct (nth_error (transitions ss aa rr ss' dd) i) as [e |] eqn:He.
    2: { apply nth_error_None in He. lia. }
    simpl. unfold bind.
    rewrite (save_trajectory_run _ _ _ _ _ _ p He).
    rewrite IH by lia. rewrite recorded_app.
    rewrite (skipn_nth_error _ _ He). reflexivity.
Qed.

End CoordinatorFacts.

Section LearningFacts.

Context {Sp : Spaces} {R : RandomModule} {Ag : AgentClass}.

Lemma learn_loop_spec (b : Batch) (gam : Gamma) (ags : list Agent) :
  forall (i : nat) (G : Globals),
    length (fst (fst (learn_loop i ags b gam G))) = length ags /\
    snd (learn_loop i ags b gam G) =
    map (fun j => CallAgentLearn j b gam) (seq i (length ags)).
Proof.
  induction ags as [| agent rest IH]; intros i G; simpl.
  - split; reflexivity.
  - destruct (Agent_learn agent b gam G) as [agent' G1].
    specialize (IH (S i) G1).
    destruct (learn_loop (S i) rest b gam G1) as [[rest' G2] evs].
    simpl in *. destruct IH as [Hlen Hevs]. split; congruence.
Qed.

Lemma memory_sample_run (p : Process) :
  memory_sample p =
  let res := ReplayBuffer_sample (memory (self p), globals p) in
  (fst res, mkProcess (self p) (snd (snd res)) (calls p ++ [CallSample (fst res)])).
Proof.
  unfold memory_sample, on_memory.
  pose proof (ReplayBuffer_sample_frame (memory (self p)) (globals p)) as Hframe.
  destruct (ReplayBuffer_sample (memory (self p), globals p)) as [r [buf' G']].
  simpl in *. subst buf'. now rewrite set_memory_same.
Qed.

Lemma MADDPG_learn_run (b : Batch) (gam : Gamma) (p : Process) :
  MADDPG_learn b gam p =
  let res := learn_loop 0 (agents (self p)) b gam (globals p) in
  (Ok tt,
   mkProcess (set_agents (self p) (fst (fst res))) (snd (fst res))
     (calls p ++ CallLearn b gam :: snd res)).
Proof.
  unfold MADDPG_learn, bind, emit, modify. simpl.
  destruct (learn_loop 0 (agents (self p)) b gam (globals p)) as [[ags' G'] evs].
  simpl. now rewrite <- app_assoc.
Qed.

(** One iteration whose draw succeeds. *)
Lemma learn_iteration_ok (p : Process) (b : Batch) :
  fst (ReplayBuffer_sample (memory (self p), globals p)) = Ok b ->
  exists p' : Process,
    learn_iteration p = (Ok tt, p') /\
    keeps_configuration p p' /\
    calls p' =
    calls p ++ iteration_calls (length (agents (self p))) (gamma (self p)) b.
Proof.
  intros Hb. unfold learn_iteration, bind.
  rewrite memory_sample_run. cbv zeta. rewrite Hb. unfold gets. simpl.
  rewrite MADDPG_learn_run. cbv zeta. simpl.
  destruct (learn_loop_spec b (gamma (self p)) (agents (self p)) 0
              (snd (snd (ReplayBuffer_sample (memory (self p), globals p)))))
    as [Hlen Hevs].
  eexists. split; [reflexivity |]. split.
  - unfold keeps_configuration. simpl. repeat split. exact Hlen.
  - simpl. rewrite Hevs, <- app_assoc. reflexivity.
Qed.

(** One iteration whose draw raises: the exception leaves [step]. *)
Lemma learn_iteration_raise (p : Process) (e : Exn) :
  fst (ReplayBuffer_sample (memory (self p), globals p)) = Raise e ->
  learn_iteration p =
  (Raise e,
   mkProcess (self p)
     (snd (snd (ReplayBuffer_sample (memory (self p), globals p))))
     (calls p ++ [CallSample (Raise e)])).
Proof.
  intros He. unfold learn_iteration, bind.
  rewrite memory_sample_run. cbv zeta. rewrite He. reflexivity.
Qed.

(** Whatever its outcome, an iteration keeps the buffer and the
    configuration, and adds nothing to the buffer. *)
Lemma learn_iteration_frame (p : Process) :
  keeps_configuration p (snd (learn_iteration p)) /\
  exists later : list Event,
    calls (snd (learn_iteration p)) = calls p ++ later /\
    Forall (fun ev => is_add ev = false) later.
Proof.
  destruct (fst (ReplayBuffer_sample (memory (self p), globals p))) as [b | e] eqn:Hs.
  - destruct (learn_iteration_ok p Hs) as (p' & Hrun & Hkeep & Hcalls).
    rewrite Hrun. simpl. split; [exact Hkeep |].
    eexists. split; [exact Hcalls |].
    unfold iteration_calls. repeat constructor.
    apply Forall_map. apply Forall_forall. reflexivity.
  - rewrite (learn_iteration_raise p Hs). simpl. split.
    + unfold keeps_configuration. repeat split.
    + eexists. split; [reflexivity |]. repeat constructor.
Qed.

Lemma keeps_configuration_trans (p q r : Process) :
  keeps_configuration p q -> keeps_configuration q r -> keeps_configuration p r.
Proof.
  unfold keeps_configuration.
  intros (H1 & H2 & H3 & H4 & H5 & H6) (K1 & K2 & K3 & K4 & K5 & K6).
  repeat split; congruence.
Qed.

Lemma keeps_configuration_refl (p : Process) : keeps_configuration p p.
Proof. unfold keeps_configuration. repeat split. Qed.

(** The learning loop, whatever its outcome. *)
Lemma learning_loop_frame {X : Type} (xs : list X) : forall p : Process,
  keeps_configuration p (snd (for_each xs (fun _ => learn_iteration) p)) /\
  exists later : list Event,
    calls (snd (for_each xs (fun _ => learn_iteration) p)) = calls p ++ later /\
    Forall (fun ev => is_add ev = false) later.
Proof.
  induction xs as [| x xs IH]; intros p; simpl.
  - split; [apply keeps_configuration_refl |].
    exists []. split; [now rewrite app_nil_r | constructor].
  - unfold bind.
    destruct (learn_iteration_frame p) as (Hkeep & later & Hcalls & Hlater).
    destruct (learn_iteration p) as [[[] | e] p1]; simpl in *.
    + destruct (IH p1) as (Hkeep' & later' & Hcalls' & Hlater').
      split; [eapply keeps_configuration_trans; eassumption |].
      exists (later ++ later'). split.
      * rewrite Hcalls', Hcalls, app_assoc. reflexivity.
      * apply Forall_app. split; assumption.
    + split; [exact Hkeep |]. exists later. split; assumption.
Qed.

(** The learning loop when every draw succeeds. *)
Lemma learning_loop_ok {X : Type} (xs : list X) : forall p : Process,
  (forall G : Globals,
      exists b, fst (ReplayBuffer_sample (memory (self p), G)) = Ok b) ->
  exists (p' : Process) (batches : list Batch),
    for_each xs (fun _ => learn_iteration) p = (Ok tt, p') /\
    keeps_configuration p p' /\
    length batches = length xs /\
    calls p' =
    calls p ++
    flat_map (iteration_calls (length (agents (self p))) (gamma (self p))) batches /\
    Forall (fun b => exists G : Globals,
                fst (ReplayBuffer_sample (memory (self p), G)) = Ok b) batches.
Proof.
  induction xs as [| x xs IH]; intros p Hdraw; simpl.
  - exists p, []. simpl. rewrite app_nil_r.
    split; [| split; [| split; [| split]]];
      auto using keeps_configuration_refl.
  - destruct (Hdraw (globals p)) as [b Hb].
    destruct (learn_iteration_ok p Hb) as (p1 & Hrun & Hkeep & Hcalls).
    unfold bind. rewrite Hrun.
    pose proof Hkeep as (_ & _ & Hgam & _ & Hmem & Hags).
    destruct (IH p1) as (p' & batches & Hrun' & Hkeep' & Hlen & Hcalls' & Hall).
    { intros G. rewrite Hmem. apply Hdraw. }
    exists p', (b :: batches).
    split; [| split; [| split; [| split]]].
    + exact Hrun'.
    + eapply keeps_configuration_trans; eassumption.
    + simpl. now rewrite Hlen.
    + rewrite Hcalls', Hcalls, Hags, Hgam. simpl. now rewrite <- app_assoc.
    + constructor; [now exists (globals p) |].
      rewrite Hmem in Hall. exact Hall.
Qed.

End LearningFacts.

Section StepFacts.

Context {Sp : Spaces} {R : RandomModule} {Ag : AgentClass}.

Lemma count_calls_app (f : Event -> bool) (tr1 tr2 : list Event) :
  count_calls f (tr1 ++ tr2) = count_calls f tr1 + count_calls f tr2.
Proof.
  unfold count_calls. now rewrite filter_app, length_app.
Qed.

Lemma count_calls_none (f : Event -> bool) (tr : list Event) :
  Forall (fun ev => f ev = false) tr -> count_calls f tr = 0.
Proof.
  unfold count_calls. induction 1 as [| ev tr Hev _ IH]; simpl.
  - reflexivity.
  - now rewrite Hev.
Qed.

Lemma count_calls_adds (f : Event -> bool) (es : list Experience) :
  (forall e, f (CallAdd e) = false) ->
  count_calls f (map CallAdd es) = 0.
Proof.
  intros Hf. apply count_calls_none. apply Forall_map.
  apply Forall_forall. intros e _. apply Hf.
Qed.

Lemma count_learn_iterations (k : nat) (gam : Gamma) (batches : list Batch) :
  count_calls is_learn (flat_map (iteration_calls k gam) batches) = length batches /\
  count_calls is_sample (flat_map (iteration_calls k gam) batches) = length batches /\
  count_calls is_agent_learn (flat_map (iteration_calls k gam) batches)
  = k * length batches.
Proof.
  induction batches as [| b batches (IH1 & IH2 & IH3)]; simpl.
  - rewrite Nat.mul_0_r. repeat split.
  - change (CallSample (Ok b) :: CallLearn b gam ::
              map (fun i => CallAgentLearn i b gam) (seq 0 k) ++
              flat_map (iteration_calls k gam) batches)
      with ([CallSample (Ok b); CallLearn b gam] ++
              map (fun i => CallAgentLearn i b gam) (seq 0 k) ++
              flat_map (iteration_calls k gam) batches).
    rewrite !count_calls_app, IH1, IH2, IH3.
    assert (Hother : forall f : Event -> bool,
               (forall i, f (CallAgentLearn i b gam) = false) ->
               count_calls f (map (fun i => CallAgentLearn i b gam) (seq 0 k)) = 0).
    { intros f Hf. apply count_calls_none, Forall_map, Forall_forall.
      intros i _. apply Hf. }
    assert (Hmine : count_calls is_agent_learn
                      (map (fun i => CallAgentLearn i b gam) (seq 0 k)) = k).
    { unfold count_calls.
      rewrite forallb_filter_id, length_map, length_seq; [reflexivity |].
      apply forallb_forall. intros ev Hev. apply in_map_iff in Hev.
      destruct Hev as (i & <- & _). reflexivity. }
    rewrite !Hother, Hmine by reflexivity.
    unfold count_calls. simpl. repeat split; lia.
Qed.

(** [step] on well-formed arguments: the recording phase, then the test. *)
Lemma MADDPG_step_run (ss : list State) (aa : list Action) (rr : list Reward)
  (ss' : list State) (dd : list bool) (p : Process) :
  Z.of_nat (length ss) = num_agents (self p) ->
  Z.of_nat (length aa) = num_agents (self p) ->
  Z.of_nat (length rr) = num_agents (self p) ->
  Z.of_nat (length ss') = num_agents (self p) ->
  Z.of_nat (length dd) = num_agents (self p) ->
  MADDPG_step ss aa rr ss' dd p =
  let p1 := recorded (transitions ss aa rr ss' dd) p in
  if (ReplayBuffer_len (memory (self p1)) >? minsamples_before_train (self p))%Z
  then for_each (range (num_agents (self p))) (fun _ => learn_iteration) p1
  else (Ok tt, p1).
Proof.
  intros H1 H2 H3 H4 H5.
  set (k := Z.to_nat (num_agents (self p))).
  assert (Hlen : length (transitions ss aa rr ss' dd) = k).
  { apply transitions_length; lia. }
  unfold MADDPG_step, bind, gets. cbv zeta. unfold range at 1. fold k.
  rewrite recording_loop by lia.
  rewrite skipn_O, firstn_all2 by lia.
  destruct (recorded_configuration (transitions ss aa rr ss' dd) p)
    as (Hn & _ & Ht & _).
  cbv beta iota. rewrite Ht.
  destruct (_ >? _)%Z; [| reflexivity].
  cbv beta iota. rewrite Hn. reflexivity.
Qed.

End StepFacts.

(** ** Claims about [MADDPG.step] *)

(** C1, as the code has it.  Take any state of the coordinator and a [step]
    call whose five arguments have length [num_agents].  If the buffer
    length after the recording phase is at most [minsamples_before_train],
    the call returns normally, having only recorded the transitions: no
    [learn] of the coordinator or of an agent is called.  If that length
    exceeds [minsamples_before_train] and [1 <= batch_size <= ] that length,
    the call returns normally after exactly [num_agents] learning
    iterations. *)
Theorem step_warmup_gating :
  forall (Sp : Spaces) (R : RandomModule) (Ag : AgentClass),
    without_replacement R ->
    forall (p : Process) (ss : list State) (aa : list Action) (rr : list Reward)
           (ss' : list State) (dd : list bool),
      Z.of_nat (length ss) = num_agents (self p) ->
      Z.of_nat (length aa) = num_agents (self p) ->
      Z.of_nat (length rr) = num_agents (self p) ->
      Z.of_nat (length ss') = num_agents (self p) ->
      Z.of_nat (length dd) = num_agents (self p) ->
      let p1 := recorded (transitions ss aa rr ss' dd) p in
      let len := ReplayBuffer_len (memory (self p1)) in
      ((len <= minsamples_before_train (self p))%Z ->
       MADDPG_step ss aa rr ss' dd p = (Ok tt, p1) /\
       count_calls is_learn (calls p1) = count_calls is_learn (calls p) /\
       count_calls is_agent_learn (calls p1) = count_calls is_agent_learn (calls p)) /\
      ((len > minsamples_before_train (self p))%Z ->
       (1 <= rb_batch_size (memory (self p)) <= len)%Z ->
       exists p' : Process,
         MADDPG_step ss aa rr ss' dd p = (Ok tt, p') /\
         memory (self p') = memory (self p1) /\
         count_calls is_learn (calls p') =
         count_calls is_learn (calls p) + Z.to_nat (num_agents (self p))).
Proof.
  intros Sp R Ag Hcontract p ss aa rr ss' dd H1 H2 H3 H4 H5 p1 len.
  pose proof (MADDPG_step_run ss aa rr ss' dd p H1 H2 H3 H4 H5) as Hrun.
  cbv zeta in Hrun. fold p1 in Hrun. fold len in Hrun.
  split.
  - intros Hwarm.
    replace (len >? _)%Z with false in Hrun
      by (symmetry; rewrite Z.gtb_ltb; apply Z.ltb_ge; exact Hwarm).
    split; [exact Hrun |].
    subst p1. rewrite recorded_eq. simpl.
    rewrite !count_calls_app, !count_calls_adds by reflexivity. lia.
  - intros Htrain Hsize.
    replace (len >? _)%Z with true in Hrun
      by (symmetry; rewrite Z.gtb_ltb; apply Z.ltb_lt; lia).
    destruct (recorded_configuration (transitions ss aa rr ss' dd) p)
      as (_ & _ & _ & _ & Hbatch & _).
    fold p1 in Hbatch.
    destruct (learning_loop_ok (range (num_agents (self p))) p1)
      as (p' & batches & Hloop & Hkeep & Hlen & Hcalls & _).
    { intros G.
      destruct (ReplayBuffer_sample_ok Hcontract (memory (self p1)) G) as (Hok & _).
      - rewrite Hbatch. exact Hsize.
      - eexists. rewrite Hok. reflexivity. }
    exists p'. rewrite Hrun. split; [exact Hloop |]. split; [apply Hkeep |].
    rewrite Hcalls, count_calls_app.
    destruct (count_learn_iterations (length (agents (self p1))) (gamma (self p1))
                batches) as (Hcount & _).
    rewrite Hcount, Hlen. unfold range. rewrite length_seq.
    subst p1. rewrite recorded_eq. simpl.
    rewrite count_calls_app, count_calls_adds by reflexivity. lia.
Qed.

(** The scenario of the specification: capacity 10, batches of 4, threshold
    7, two agents.  The third call leaves 6 transitions and only records;
    the fourth leaves 8 and performs two learning iterations. *)
Lemma step_warmup_gating_witness :
  exists p0 : @Process tagged lcg counting_agent,
    coordinator 2 (Some 0%Z) 10 4 7 = Some p0 /\
    (let p := after_steps [[1; 2]; [3; 4]]%Z p0 in
     tagged_step [5; 6]%Z p
     = (Ok tt, recorded (map tag [5; 6]%Z) p) /\
     count_calls is_learn (calls (recorded (map tag [5; 6]%Z) p)) = 0) /\
    (let p := after_steps [[1; 2]; [3; 4]; [5; 6]]%Z p0 in
     exists p' : @Process tagged lcg counting_agent,
       tagged_step [7; 8]%Z p = (Ok tt, p') /\
       count_calls is_learn (calls p') = 2).
Proof.
  eexists. split; [reflexivity |]. split.
  - intros p.
    pose proof (@step_warmup_gating tagged lcg counting_agent
                  lcg_without_replacement p
                  [5; 6]%Z [5; 6]%Z [5; 6]%Z [5; 6]%Z [false; false]
                  eq_refl eq_refl eq_refl eq_refl eq_refl) as H.
    cbv zeta in H. destruct H as [Hwarm _].
    destruct Hwarm as (Hrun & Hlearn & _).
    + vm_compute. discriminate.
    + split; [exact Hrun |]. etransitivity; [exact Hlearn | reflexivity].
  - intros p.
    pose proof (@step_warmup_gating tagged lcg counting_agent
                  lcg_without_replacement p
                  [7; 8]%Z [7; 8]%Z [7; 8]%Z [7; 8]%Z [false; false]
                  eq_refl eq_refl eq_refl eq_refl eq_refl) as H.
    cbv zeta in H. destruct H as [_ Htrain].
    destruct Htrain as (p' & Hrun & _ & Hlearn).
    + vm_compute. reflexivity.
    + vm_compute. split; discriminate.
    + exists p'. split; [exact Hrun |]. rewrite Hlearn. reflexivity.
Defined.

(** C1 as stated fails when the threshold is below [batch_size]: with
    threshold 0 and batches of 4, the first call of two agents leaves 2
    transitions, more than the threshold, and the draw raises [ValueError];
    no learning iteration is performed. *)
Lemma step_raises_below_batch_size :
  exists p : @Process tagged lcg counting_agent,
    coordinator 2 (Some 0%Z) 10 4 0 = Some p /\
    let res := tagged_step [1; 2]%Z p in
    (ReplayBuffer_len (memory (self (snd res)))
     > minsamples_before_train (self (snd res)))%Z /\
    num_agents (self p) = 2%Z /\
    fst res = Raise ValueError /\
    count_calls is_learn (calls (snd res)) = 0.
Proof.
  eexists. split; [reflexivity |]. vm_compute. repeat split.
Qed.

Section DrawFacts.

Context {Sp : Spaces} {R : RandomModule} {Ag : AgentClass}.

(** One iteration whose draw succeeds, in full. *)
Lemma learn_iteration_exact (p : Process) (b : Batch) :
  fst (ReplayBuffer_sample (memory (self p), globals p)) = Ok b ->
  let G1 := snd (snd (ReplayBuffer_sample (memory (self p), globals p))) in
  let L := learn_loop 0 (agents (self p)) b (gamma (self p)) G1 in
  learn_iteration p =
  (Ok tt,
   mkProcess (set_agents (self p) (fst (fst L))) (snd (fst L))
     (calls p ++ CallSample (Ok b) :: CallLearn b (gamma (self p)) :: snd L)).
Proof.
  intros Hb G1 L. unfold learn_iteration, bind.
  rewrite memory_sample_run. cbv zeta. rewrite Hb. unfold gets. simpl.
  rewrite MADDPG_learn_run. cbv zeta. simpl.
  fold G1. fold L. rewrite <- !app_assoc. reflexivity.
Qed.

(** The learning loop when every draw succeeds: the batches are drawn one
    after the other, each from the generator as the iteration before left
    it. *)
Lemma learning_loop_draws {X : Type} (xs : list X) : forall p : Process,
  (forall G : Globals,
      exists b, fst (ReplayBuffer_sample (memory (self p), G)) = Ok b) ->
  exists (p' : Process) (batches : list Batch),
    for_each xs (fun _ => learn_iteration) p = (Ok tt, p') /\
    fresh_draws (length xs) (memory (self p)) (gamma (self p))
      (agents (self p)) (globals p)
    = Some (batches, agents (self p'), globals p') /\
    length batches = length xs /\
    calls p' =
    calls p ++
    flat_map (iteration_calls (length (agents (self p))) (gamma (self p))) batches.
Proof.
  induction xs as [| x xs IH]; intros p Hdraw.
  - exists p, []. simpl. rewrite app_nil_r. repeat split.
  - destruct (Hdraw (globals p)) as [b Hb].
    pose proof (learn_iteration_exact p Hb) as Hrun. cbv zeta in Hrun.
    destruct (learn_loop_spec b (gamma (self p)) (agents (self p)) 0
                (snd (snd (ReplayBuffer_sample (memory (self p), globals p)))))
      as [Hlen Hevs].
    simpl. unfold bind. rewrite Hrun.
    destruct (ReplayBuffer_sample (memory (self p), globals p)) as [r s] eqn:Hs.
    simpl in Hb. subst r. simpl in *.
    destruct (learn_loop 0 (agents (self p)) b (gamma (self p)) (snd s))
      as [[ags1 G2] evs] eqn:Hloop.
    simpl in *.
    destruct (IH (mkProcess (set_agents (self p) ags1) G2
                    (calls p ++ CallSample (Ok b) :: CallLearn b (gamma (self p)) :: evs)))
      as (p' & batches & Hrun' & Hdraws & Hlen' & Hcalls).
    { intros G. simpl. apply Hdraw. }
    simpl in Hdraws, Hcalls.
    exists p', (b :: batches).
    split; [exact Hrun' |]. split; [now rewrite Hdraws |].
    split; [simpl; now rewrite Hlen' |].
    rewrite Hcalls, Hlen, Hevs. simpl. rewrite <- app_assoc. reflexivity.
Qed.

End DrawFacts.

(** C2, as the code has it.  Take a coordinator whose agent list has
    [num_agents] entries and a [step] call on arguments of that length after
    which the buffer length [len] exceeds the threshold, with
    [1 <= batch_size <= len].  After the recording phase the call makes, for
    each of [num_agents] batches in turn: one [sample], which returns the
    batch; one [learn] of the coordinator with that batch; and one [learn]
    of every agent, in order, with that same batch.  The [i]-th batch is
    drawn afresh by the [i]-th [sample], from the generator as the
    iterations before it left it; the agents and the module state after the
    call are those these draws and learns produce. *)
Theorem step_learning_protocol :
  forall (Sp : Spaces) (R : RandomModule) (Ag : AgentClass),
    without_replacement R ->
    forall (p : Process) (ss : list State) (aa : list Action) (rr : list Reward)
           (ss' : list State) (dd : list bool),
      coherent p ->
      Z.of_nat (length ss) = num_agents (self p) ->
      Z.of_nat (length aa) = num_agents (self p) ->
      Z.of_nat (length rr) = num_agents (self p) ->
      Z.of_nat (length ss') = num_agents (self p) ->
      Z.of_nat (length dd) = num_agents (self p) ->
      let k := Z.to_nat (num_agents (self p)) in
      let p1 := recorded (transitions ss aa rr ss' dd) p in
      let len := ReplayBuffer_len (memory (self p1)) in
      (len > minsamples_before_train (self p))%Z ->
      (1 <= rb_batch_size (memory (self p)) <= len)%Z ->
      exists (p' : Process) (batches : list Batch),
        MADDPG_step ss aa rr ss' dd p = (Ok tt, p') /\
        length batches = k /\
        fresh_draws k (memory (self p1)) (gamma (self p)) (agents (self p))
          (globals p)
        = Some (batches, agents (self p'), globals p') /\
        calls p' = calls p1 ++ flat_map (iteration_calls k (gamma (self p))) batches /\
        count_calls is_sample (calls p') = count_calls is_sample (calls p) + k /\
        count_calls is_learn (calls p') = count_calls is_learn (calls p) + k /\
        count_calls is_agent_learn (calls p') =
        count_calls is_agent_learn (calls p) + k * k.
Proof.
  intros Sp R Ag Hcontract p ss aa rr ss' dd Hags H1 H2 H3 H4 H5 k p1 len
    Htrain Hsize.
  unfold coherent in Hags.
  pose proof (MADDPG_step_run ss aa rr ss' dd p H1 H2 H3 H4 H5) as Hrun.
  cbv zeta in Hrun. fold p1 in Hrun. fold len in Hrun.
  replace (len >? _)%Z with true in Hrun
    by (symmetry; rewrite Z.gtb_ltb; apply Z.ltb_lt; lia).
  destruct (recorded_configuration (transitions ss aa rr ss' dd) p)
    as (_ & Hgam & _ & Hsame & Hbatch & Hglob).
  fold p1 in Hgam, Hsame, Hbatch, Hglob.
  destruct (learning_loop_draws (range (num_agents (self p))) p1)
    as (p' & batches & Hloop & Hdraws & Hlen & Hcalls).
  { intros G.
    destruct (ReplayBuffer_sample_ok Hcontract (memory (self p1)) G) as (Hok & _).
    - rewrite Hbatch. exact Hsize.
    - eexists. rewrite Hok. reflexivity. }
  unfold range in Hlen, Hdraws. rewrite length_seq in Hlen, Hdraws.
  fold k in Hlen, Hdraws.
  assert (Hk : length (agents (self p1)) = k) by (rewrite Hsame; subst k; lia).
  rewrite Hk, Hgam in Hcalls. rewrite Hgam, Hsame, Hglob in Hdraws.
  exists p', batches. rewrite Hrun.
  split; [exact Hloop |]. split; [exact Hlen |]. split; [exact Hdraws |].
  split; [exact Hcalls |].
  destruct (count_learn_iterations k (gamma (self p)) batches) as (Hc1 & Hc2 & Hc3).
  rewrite Hcalls, !count_calls_app, Hc1, Hc2, Hc3, Hlen.
  subst p1. rewrite recorded_eq. simpl.
  rewrite !count_calls_app, !count_calls_adds by reflexivity.
  repeat split; lia.
Qed.

Lemma step_learning_protocol_witness :
  exists p0 : @Process tagged lcg counting_agent,
    coordinator 2 (Some 0%Z) 10 4 7 = Some p0 /\
    let p := after_steps [[1; 2]; [3; 4]; [5; 6]]%Z p0 in
    exists (p' : @Process tagged lcg counting_agent) (b1 b2 : @Batch tagged),
      tagged_step [7; 8]%Z p = (Ok tt, p') /\
      states b1 = [2; 3; 4; 5]%Z /\
      states b2 = [7; 8; 1; 2]%Z /\
      agents (self p') = [2; 2]%Z /\
      calls p' =
      calls p ++
      [CallAdd (tag 7); CallAdd (tag 8);
       CallSample (Ok b1); CallLearn b1 99%Z;
       CallAgentLearn 0 b1 99%Z; CallAgentLearn 1 b1 99%Z;
       CallSample (Ok b2); CallLearn b2 99%Z;
       CallAgentLearn 0 b2 99%Z; CallAgentLearn 1 b2 99%Z].
Proof.
  eexists. split; [reflexivity |]. intros p.
  pose proof (@step_learning_protocol tagged lcg counting_agent
                lcg_without_replacement p
                [7; 8]%Z [7; 8]%Z [7; 8]%Z [7; 8]%Z [false; false]
                eq_refl eq_refl eq_refl eq_refl eq_refl eq_refl) as H.
  cbv zeta in H.
  destruct H as (p' & batches & Hrun & Hlen & Hdraws & Hcalls & _).
  - vm_compute. reflexivity.
  - vm_compute. split; discriminate.
  - match type of Hdraws with
    | ?l = _ =>
        let v := eval vm_compute in l in
        assert (E : l = v) by reflexivity
    end.
    rewrite E in Hdraws. inversion Hdraws as [[Hb Hags Hglob]]. clear Hdraws E.
    eexists p', _, _. split; [exact Hrun |].
    split; [| split; [| split; [symmetry; exact Hags |]]].
    3: { rewrite Hcalls, <- Hb, recorded_eq.
         cbn [flat_map iteration_calls calls map seq app].
         rewrite <- app_assoc. reflexivity. }
    + reflexivity.
    + reflexivity.
Defined.

(** C2 as stated fails when a call qualifies for training while the buffer
    holds fewer than [batch_size] transitions: three agents, threshold 1,
    batches of 128; the call makes one [sample], which raises, and no
    [learn]. *)
Lemma qualifying_step_single_failed_draw :
  exists p : @Process tagged lcg counting_agent,
    coordinator 3 (Some 5%Z) 100 128 1 = Some p /\
    let res := tagged_step [1; 2; 3]%Z p in
    (ReplayBuffer_len (memory (self (snd res)))
     > minsamples_before_train (self (snd res)))%Z /\
    num_agents (self p) = 3%Z /\
    count_calls is_sample (calls (snd res)) = 1 /\
    count_calls is_learn (calls (snd res)) = 0 /\
    count_calls is_agent_learn (calls (snd res)) = 0.
Proof.
  eexists. split; [reflexivity |]. vm_compute. repeat split.
Qed.

Section RecordingFacts.

Context {Sp : Spaces} {R : RandomModule} {Ag : AgentClass}.

Lemma transitions_nth_fields (ss : list State) (aa : list Action) (rr : list Reward)
  (ss' : list State) (dd : list bool) (i : nat) :
  i < length (transitions ss aa rr ss' dd) ->
  exists (s : State) (a : Action) (r : Reward) (s' : State) (d : bool),
    nth_error ss i = Some s /\
    nth_error aa i = Some a /\
    nth_error rr i = Some r /\
    nth_error ss' i = Some s' /\
    nth_error dd i = Some d /\
    nth_error (transitions ss aa rr ss' dd) i = Some (mkExperience s a r s' d).
Proof.
  intros Hi.
  destruct (nth_error (transitions ss aa rr ss' dd) i) as [e |] eqn:He.
  2: { apply nth_error_None in He. lia. }
  destruct (transitions_nth _ _ _ _ _ _ He) as (H1 & H2 & H3 & H4 & H5).
  exists (state e), (action e), (reward e), (next_state e), (done e).
  destruct e. simpl in *. repeat split; assumption.
Qed.

(** The buffer and the add calls after [step], whatever [step] returned. *)
Lemma MADDPG_step_memory (ss : list State) (aa : list Action) (rr : list Reward)
  (ss' : list State) (dd : list bool) (p : Process) :
  Z.of_nat (length ss) = num_agents (self p) ->
  Z.of_nat (length aa) = num_agents (self p) ->
  Z.of_nat (length rr) = num_agents (self p) ->
  Z.of_nat (length ss') = num_agents (self p) ->
  Z.of_nat (length dd) = num_agents (self p) ->
  let p1 := recorded (transitions ss aa rr ss' dd) p in
  let p' := snd (MADDPG_step ss aa rr ss' dd p) in
  memory (self p') = memory (self p1) /\
  exists later : list Event,
    calls p' = calls p1 ++ later /\ Forall (fun ev => is_add ev = false) later.
Proof.
  intros H1 H2 H3 H4 H5 p1 p'. subst p'.
  rewrite (MADDPG_step_run ss aa rr ss' dd p H1 H2 H3 H4 H5).
  cbv zeta. fold p1.
  destruct (_ >? _)%Z.
  - destruct (learning_loop_frame (range (num_agents (self p))) p1)
      as (Hkeep & later & Hcalls & Hlater).
    split; [apply Hkeep |]. exists later. split; assumption.
  - simpl. split; [reflexivity |].
    exists []. split; [now rewrite app_nil_r | constructor].
Qed.

End RecordingFacts.

(** C6.  For every [step] call whose five arguments have length
    [num_agents], [num_agents] transitions are added to the coordinator's
    one buffer, in ascending order of the agent index [i], the [i]-th being
    [(states[i], actions[i], rewards[i], next_states[i], dones[i])]: the
    buffer after the call is the buffer before it with these [add] calls
    made in this order, the recorded [add] calls are these, and the stored
    items are the last [maxlen] of the old items followed by them. *)
Theorem step_adds_one_transition_per_agent :
  forall (Sp : Spaces) (R : RandomModule) (Ag : AgentClass)
         (p : Process) (ss : list State) (aa : list Action) (rr : list Reward)
         (ss' : list State) (dd : list bool),
    Z.of_nat (length ss) = num_agents (self p) ->
    Z.of_nat (length aa) = num_agents (self p) ->
    Z.of_nat (length rr) = num_agents (self p) ->
    Z.of_nat (length ss') = num_agents (self p) ->
    Z.of_nat (length dd) = num_agents (self p) ->
    let es := transitions ss aa rr ss' dd in
    let p' := snd (MADDPG_step ss aa rr ss' dd p) in
    Z.of_nat (length es) = num_agents (self p) /\
    (forall i : nat, i < length es ->
       exists (s : State) (a : Action) (r : Reward) (s' : State) (d : bool),
         nth_error ss i = Some s /\
         nth_error aa i = Some a /\
         nth_error rr i = Some r /\
         nth_error ss' i = Some s' /\
         nth_error dd i = Some d /\
         nth_error es i = Some (mkExperience s a r s' d)) /\
    memory (self p') =
    fst (snd (ReplayBuffer_add_all es (memory (self p), globals p))) /\
    (exists later : list Event,
        calls p' = calls p ++ map CallAdd es ++ later /\
        Forall (fun ev => is_add ev = false) later) /\
    (bounded (replay_memory (memory (self p))) ->
     items (replay_memory (memory (self p'))) =
     keep_last (Z.to_nat (maxlen (replay_memory (memory (self p)))))
       (items (replay_memory (memory (self p))) ++ es)).
Proof.
  intros Sp R Ag p ss aa rr ss' dd H1 H2 H3 H4 H5 es p'.
  assert (Hlen : length es = Z.to_nat (num_agents (self p))).
  { apply transitions_length; lia. }
  destruct (MADDPG_step_memory ss aa rr ss' dd p H1 H2 H3 H4 H5)
    as (Hmem & later & Hcalls & Hlater).
  fold es in Hmem, Hcalls. fold p' in Hmem, Hcalls.
  split; [lia |].
  split; [intros i Hi; now apply transitions_nth_fields |].
  split; [rewrite Hmem; reflexivity |].
  split.
  - exists later. split; [| exact Hlater].
    rewrite Hcalls, recorded_eq. simpl. now rewrite <- app_assoc.
  - intros Hb. rewrite Hmem, recorded_eq. simpl.
    apply (deque_extend_spec es Hb).
Qed.

Lemma step_adds_one_transition_per_agent_witness :
  exists p0 : @Process tagged lcg counting_agent,
    coordinator 2 (Some 0%Z) 3 1 0 = Some p0 /\
    let p := after_steps [[1; 2]]%Z p0 in
    items (replay_memory (memory (self (snd (tagged_step [3; 4]%Z p)))))
    = map tag [2; 3; 4]%Z.
Proof.
  eexists. split; [reflexivity |]. intros p.
  pose proof (@step_adds_one_transition_per_agent tagged lcg counting_agent p
                [3; 4]%Z [3; 4]%Z [3; 4]%Z [3; 4]%Z [false; false]
                eq_refl eq_refl eq_refl eq_refl eq_refl) as H.
  cbv zeta in H. destruct H as (_ & _ & _ & _ & Hitems).
  etransitivity; [apply Hitems | reflexivity].
  vm_compute. split; discriminate.
Defined.

(** ** Claims about [MADDPG.act] *)

Section ActFacts.

Context {Sp : Spaces} {R : RandomModule} {Ag : AgentClass}.

(** The position of a pair in the loop only labels the recorded calls. *)
Lemma act_loop_position (add_noise : bool) (pairs : list (State * Agent)) :
  forall (i j : nat) (G : Globals),
    fst (act_loop i pairs add_noise G) = fst (act_loop j pairs add_noise G).
Proof.
  induction pairs as [| [s agent] rest IH]; intros i j G; simpl.
  - reflexivity.
  - destruct (Agent_act agent s add_noise G) as [[a agent'] G1].
    specialize (IH (S i) (S j) G1).
    destruct (act_loop (S i) rest add_noise G1) as [[[acts ags] G2] evs].
    destruct (act_loop (S j) rest add_noise G1) as [[[acts' ags'] G2'] evs'].
    simpl in *. inversion IH; subst. reflexivity.
Qed.

Lemma act_loop_lengths (add_noise : bool) (pairs : list (State * Agent)) :
  forall (i : nat) (G : Globals),
    length (fst (fst (fst (act_loop i pairs add_noise G)))) = length pairs /\
    length (snd (fst (fst (act_loop i pairs add_noise G)))) = length pairs /\
    count_calls is_agent_act (snd (act_loop i pairs add_noise G)) = length pairs.
Proof.
  induction pairs as [| [s agent] rest IH]; intros i G; simpl.
  - repeat split.
  - destruct (Agent_act agent s add_noise G) as [[a agent'] G1].
    specialize (IH (S i) G1).
    destruct (act_loop (S i) rest add_noise G1) as [[[acts ags] G2] evs].
    simpl in *. destruct IH as (IH1 & IH2 & IH3).
    unfold count_calls in *. simpl. repeat split; congruence.
Qed.

(** The [j]-th action is what the [j]-th agent of the pairs returns on the
    [j]-th state, in the module state left by the calls before it. *)
Lemma act_loop_nth (add_noise : bool) (pairs : list (State * Agent)) :
  forall (i j : nat) (G : Globals) (s : State) (agent : Agent),
    nth_error pairs j = Some (s, agent) ->
    nth_error (fst (fst (fst (act_loop i pairs add_noise G)))) j =
    Some (fst (fst (Agent_act agent s add_noise
                      (snd (fst (act_loop 0 (firstn j pairs) add_noise G)))))).
Proof.
  induction pairs as [| [s0 agent0] rest IH]; intros i j G s agent Hj.
  - destruct j; discriminate.
  - destruct j as [| j]; simpl in Hj.
    + inversion Hj; subst. simpl.
      destruct (Agent_act agent s add_noise G) as [[a agent'] G1].
      destruct (act_loop (S i) rest add_noise G1) as [[[acts ags] G2] evs].
      reflexivity.
    + simpl.
      destruct (Agent_act agent0 s0 add_noise G) as [[a agent'] G1].
      specialize (IH (S i) j G1 s agent Hj).
      pose proof (act_loop_position add_noise (firstn j rest) 0 1 G1) as Hpos.
      destruct (act_loop (S i) rest add_noise G1) as [[[acts ags] G2] evs].
      destruct (act_loop 1 (firstn j rest) add_noise G1) as [[[acts' ags'] G2'] evs'].
      simpl in *. rewrite IH, Hpos. reflexivity.
Qed.

(** [act] on at most as many states as there are agents. *)
Lemma MADDPG_act_spec (sts : list State) (add_noise : bool) (p : Process) :
  length sts <= length (agents (self p)) ->
  exists (acts : list Action) (p' : Process),
    MADDPG_act sts add_noise p = (Ok acts, p') /\
    length acts = length sts /\
    (forall i : nat, i < length sts ->
       exists (s : State) (agent : Agent),
         nth_error sts i = Some s /\
         nth_error (agents (self p)) i = Some agent /\
         nth_error acts i =
         Some (fst (fst (Agent_act agent s add_noise
                           (globals_before_act i sts (agents (self p)) add_noise
                              (globals p)))))) /\
    length (agents (self p')) = length (agents (self p)) /\
    skipn (length sts) (agents (self p')) = skipn (length sts) (agents (self p)) /\
    count_calls is_agent_act (calls p') =
    count_calls is_agent_act (calls p) + length sts.
Proof.
  intros Hle.
  set (pairs := combine sts (agents (self p))).
  assert (Hpairs : length pairs = length sts).
  { subst pairs. rewrite length_combine. lia. }
  unfold MADDPG_act. fold pairs.
  destruct (act_loop_lengths add_noise pairs 0 (globals p)) as (Hl1 & Hl2 & Hl3).
  pose proof (fun j s agent => act_loop_nth add_noise pairs 0 j (globals p)
                                 (s := s) (agent := agent)) as Hnth.
  destruct (act_loop 0 pairs add_noise (globals p)) as [[[acts acted] G'] evs].
  simpl in *.
  exists acts. eexists. split; [reflexivity |]. simpl.
  split; [congruence |]. split; [| split; [| split]].
  - intros i Hi.
    destruct (nth_error sts i) as [s |] eqn:Hs.
    2: { apply nth_error_None in Hs. lia. }
    destruct (nth_error (agents (self p)) i) as [agent |] eqn:Ha.
    2: { apply nth_error_None in Ha. lia. }
    exists s, agent. repeat split.
    unfold globals_before_act. fold pairs. apply Hnth.
    subst pairs. clear - Hs Ha.
    revert i Hs Ha. generalize (agents (self p)) as ags.
    induction sts as [| s0 sts IH]; intros ags i Hs Ha.
    + destruct i; discriminate.
    + destruct ags as [| a0 ags]; [destruct i; discriminate |].
      destruct i as [| i]; simpl in *.
      * congruence.
      * apply IH; assumption.
  - rewrite length_app, length_skipn. lia.
  - rewrite skipn_app, Hpairs.
    rewrite skipn_all2 by lia.
    replace (length sts - length acted) with 0 by lia. reflexivity.
  - rewrite count_calls_app. congruence.
Qed.

End ActFacts.

(** C7.  On a coordinator whose agent list has [num_agents] entries, [act]
    on [num_agents] states returns [num_agents] actions, the [i]-th being
    what the [i]-th agent's [act] returns on [states[i]] when it is called
    after the agents before it. *)
Theorem act_is_index_aligned :
  forall (Sp : Spaces) (R : RandomModule) (Ag : AgentClass)
         (p : Process) (sts : list State) (add_noise : bool),
    coherent p ->
    Z.of_nat (length sts) = num_agents (self p) ->
    exists (acts : list Action) (p' : Process),
      MADDPG_act sts add_noise p = (Ok acts, p') /\
      Z.of_nat (length acts) = num_agents (self p) /\
      forall i : nat, i < length sts ->
        exists (s : State) (agent : Agent),
          nth_error sts i = Some s /\
          nth_error (agents (self p)) i = Some agent /\
          nth_error acts i =
          Some (fst (fst (Agent_act agent s add_noise
                            (globals_before_act i sts (agents (self p)) add_noise
                               (globals p))))).
Proof.
  intros Sp R Ag p sts add_noise Hags Hsts.
  unfold coherent in Hags.
  destruct (MADDPG_act_spec sts add_noise p) as (acts & p' & Hrun & Hlen & Hnth & _).
  { lia. }
  exists acts, p'. split; [exact Hrun |]. split; [lia | exact Hnth].
Qed.

Lemma act_is_index_aligned_witness :
  let p := mkProcess (Ag := counting_agent)
             (mkMADDPG (Ag := counting_agent) 3 4 99%Z 7 [0; 0; 0]%Z
                (mkReplayBuffer (Sp := tagged) None 2 (mkDeque [] 10) 4))
             (mkGlobals (R := lcg) 12345%Z []) [] in
  coordinator 3 (Some 0%Z) 10 4 7 = Some p /\
  exists (acts : list Z) (p' : @Process tagged lcg counting_agent),
    MADDPG_act (Sp := tagged) (Ag := counting_agent) [10; 20; 30]%Z true p
    = (Ok acts, p') /\
    length acts = 3 /\
    nth_error acts 1 = Some 21%Z.
Proof.
  intros p. split; [reflexivity |].
  destruct (@act_is_index_aligned tagged lcg counting_agent p
              [10; 20; 30]%Z true eq_refl eq_refl)
    as (acts & p' & Hrun & Hlen & Hnth).
  destruct (Hnth 1) as (s & agent & Hs & Ha & Hact); [simpl; lia |].
  simpl in Hs, Ha. inversion Hs; inversion Ha; subst s agent.
  exists acts, p'. split; [exact Hrun |]. split.
  - simpl in Hlen. lia.
  - etransitivity; [exact Hact | reflexivity].
Defined.

(** C10.  On a coordinator whose agent list has [num_agents] entries, [act]
    on fewer than [num_agents] states raises nothing and returns one action
    per state given, aligned with the first agents; the agents past the last
    state are not called and keep their state. *)
Theorem act_short_states_truncates :
  forall (Sp : Spaces) (R : RandomModule) (Ag : AgentClass)
         (p : Process) (sts : list State) (add_noise : bool),
    coherent p ->
    (Z.of_nat (length sts) < num_agents (self p))%Z ->
    exists (acts : list Action) (p' : Process),
      MADDPG_act sts add_noise p = (Ok acts, p') /\
      length acts = length sts /\
      (forall i : nat, i < length sts ->
         exists (s : State) (agent : Agent),
           nth_error sts i = Some s /\
           nth_error (agents (self p)) i = Some agent /\
           nth_error acts i =
           Some (fst (fst (Agent_act agent s add_noise
                             (globals_before_act i sts (agents (self p)) add_noise
                                (globals p)))))) /\
      skipn (length sts) (agents (self p')) = skipn (length sts) (agents (self p)) /\
      count_calls is_agent_act (calls p') =
      count_calls is_agent_act (calls p) + length sts.
Proof.
  intros Sp R Ag p sts add_noise Hags Hshort.
  unfold coherent in Hags.
  destruct (MADDPG_act_spec sts add_noise p)
    as (acts & p' & Hrun & Hlen & Hnth & _ & Hrest & Hcount).
  { lia. }
  exists acts, p'. repeat split; assumption.
Qed.

Lemma act_short_states_truncates_witness :
  let p := mkProcess (Ag := counting_agent)
             (mkMADDPG (Ag := counting_agent) 3 4 99%Z 7 [0; 0; 0]%Z
                (mkReplayBuffer (Sp := tagged) None 2 (mkDeque [] 10) 4))
             (mkGlobals (R := lcg) 12345%Z []) [] in
  coordinator 3 (Some 0%Z) 10 4 7 = Some p /\
  exists (acts : list Z) (p' : @Process tagged lcg counting_agent),
    MADDPG_act (Sp := tagged) (Ag := counting_agent) [10]%Z false p = (Ok acts, p') /\
    length acts = 1 /\
    skipn 1 (agents (self p')) = [0; 0]%Z /\
    count_calls is_agent_act (calls p') = 1.
Proof.
  intros p. split; [reflexivity |].
  destruct (@act_short_states_truncates tagged lcg counting_agent p
              [10]%Z false eq_refl eq_refl)
    as (acts & p' & Hrun & Hlen & _ & Hrest & Hcount).
  exists acts, p'. repeat split; assumption.
Defined.

(** ** Where the randomness of [sample] lives *)

Section SeedFacts.

Context {Sp : Spaces} {R : RandomModule}.

(** The outcome of [sample] and the generator it leaves depend on the
    module state only through the generator. *)
Lemma ReplayBuffer_sample_generator (buf : ReplayBuffer) (G G' : Globals) :
  random_state G = random_state G' ->
  fst (ReplayBuffer_sample (buf, G)) = fst (ReplayBuffer_sample (buf, G')) /\
  random_state (snd (snd (ReplayBuffer_sample (buf, G)))) =
  random_state (snd (snd (ReplayBuffer_sample (buf, G')))).
Proof.
  intros Hg. rewrite !ReplayBuffer_sample_run. cbv zeta. rewrite Hg.
  destruct ((0 <=? _) && _)%Z; [| split; [reflexivity | exact Hg]].
  destruct (select _ _); split; reflexivity.
Qed.

Lemma run_calls_generator (cs : list BufferCall) :
  forall (buf : ReplayBuffer) (G G' : Globals),
    random_state G = random_state G' ->
    fst (run_calls cs (buf, G)) = fst (run_calls cs (buf, G')).
Proof.
  induction cs as [| c cs IH]; intros buf G G' Hg.
  - reflexivity.
  - destruct c as [e |]; simpl.
    + apply IH. exact Hg.
    + destruct (ReplayBuffer_sample_generator buf G G' Hg) as [Hres Hnext].
      pose proof (ReplayBuffer_sample_frame buf G) as Hf.
      pose proof (ReplayBuffer_sample_frame buf G') as Hf'.
      destruct (ReplayBuffer_sample (buf, G)) as [r [b1 G1]].
      destruct (ReplayBuffer_sample (buf, G')) as [r' [b1' G1']].
      simpl in *. subst b1 b1' r'.
      specialize (IH buf G1 G1' Hnext).
      destruct (run_calls cs (buf, G1)) as [rs s2].
      destruct (run_calls cs (buf, G1')) as [rs' s2'].
      simpl in *. now subst rs'.
Qed.

End SeedFacts.

(** C8, as the code has it.  The constructor seeds the generator of the
    [random] module, and [sample] draws from that module-level generator.
    With an integer seed, the outcomes of the [sample] calls of a caller who
    constructs a buffer and then only adds to it and samples from it are
    determined by the seed and the calls: they do not depend on the module
    state before the construction. *)
Theorem sampling_reproducible_from_seed :
  forall (Sp : Spaces) (R : RandomModule) (asz bsz batch s : Z)
         (cs : list BufferCall) (G1 G2 : Globals),
    sample_outcomes asz bsz batch (Some s) cs G1 =
    sample_outcomes asz bsz batch (Some s) cs G2.
Proof.
  intros Sp R asz bsz batch s cs G1 G2. unfold sample_outcomes.
  rewrite !ReplayBuffer_init_run.
  destruct (deque_new bsz) as [d | e]; [| reflexivity].
  f_equal. apply run_calls_generator. reflexivity.
Qed.

(** C8 as stated fails: two buffers constructed with the same seed and
    given the same [add] calls are equal, yet a [sample] on the first
    followed by a [sample] on the second gives two different batches, since
    both draw from the one generator of the module. *)
Lemma same_seed_buffers_draw_differently :
  exists (b1 b2 : @ReplayBuffer tagged) (r1 r2 : Result (@Batch tagged)),
    two_buffers 0 [1; 2; 3; 4; 5]%Z = Some (b1, b2, (r1, r2)) /\
    b1 = b2 /\
    is_ok r1 = true /\
    is_ok r2 = true /\
    r1 <> r2.
Proof.
  do 4 eexists. split; [vm_compute; reflexivity |].
  repeat split. discriminate.
Qed.

(** ** The constructor of the coordinator *)

Section InitFacts.

Context {Sp : Spaces} {R : RandomModule} {Ag : AgentClass}.

Lemma new_agents_run (ssz asz : Z) (sd : option Z) (rng : list nat) :
  forall G : Globals,
    exists (ags : list Agent) (G' : Globals),
      new_agents rng ssz asz sd G = (Ok ags, G') /\ length ags = length rng.
Proof.
  induction rng as [| i rng IH]; intros G; simpl.
  - exists [], G. split; reflexivity.
  - destruct (Agent_new ssz asz sd G) as [agent G1].
    destruct (IH G1) as (ags & G' & Hrun & Hlen).
    exists (agent :: ags), G'. unfold bind. rewrite Hrun. simpl.
    split; [reflexivity | now rewrite Hlen].
Qed.

(** [__init__] creates [num_agents] agents and an empty buffer with the
    given capacity and batch size. *)
Lemma MADDPG_init_ok (n ssz asz : Z) (sd : option Z) (bsz batch : Z)
  (gam : Gamma) (threshold : Z) (G G' : Globals) (m : MADDPG) :
  MADDPG_init n ssz asz sd bsz batch gam threshold G = (Ok m, G') ->
  num_agents m = n /\
  length (agents m) = Z.to_nat n /\
  minsamples_before_train m = threshold /\
  gamma m = gam /\
  memory m = mkReplayBuffer None asz (mkDeque [] bsz) batch /\
  (0 <= bsz)%Z.
Proof.
  unfold MADDPG_init, bind.
  destruct (new_agents_run ssz asz sd (range n) G) as (ags & G1 & Hrun & Hlen).
  rewrite Hrun.
  destruct (ReplayBuffer_init asz bsz batch sd G1) as [[buf | e] G2] eqn:Hinit;
    [| discriminate].
  apply ReplayBuffer_init_ok in Hinit. destruct Hinit as (Hpos & -> & ->).
  unfold ret. intros H. inversion H; subst. simpl.
  unfold range in Hlen. rewrite length_seq in Hlen.
  repeat split; assumption.
Qed.

End InitFacts.

(** ** The agent list keeps its length *)

Lemma for_each_frame {S X : Type} (Rel : S -> S -> Prop) (body : X -> Eff S unit) :
  (forall s, Rel s s) ->
  (forall a b c, Rel a b -> Rel b c -> Rel a c) ->
  (forall x s, Rel s (snd (body x s))) ->
  forall (xs : list X) (s : S), Rel s (snd (for_each xs body s)).
Proof.
  intros Hrefl Htrans Hbody xs.
  induction xs as [| x xs IH]; intros s; simpl.
  - apply Hrefl.
  - unfold bind. specialize (Hbody x s).
    destruct (body x s) as [[[] | e] s1]; simpl in *.
    + eapply Htrans; [exact Hbody | apply IH].
    + exact Hbody.
Qed.

Section RosterFacts.

Context {Sp : Spaces} {R : RandomModule} {Ag : AgentClass}.

Lemma same_roster_refl (p : Process) : same_roster p p.
Proof. split; reflexivity. Qed.

Lemma same_roster_trans (p q r : Process) :
  same_roster p q -> same_roster q r -> same_roster p r.
Proof. intros [H1 H2] [K1 K2]. split; congruence. Qed.

Lemma same_roster_coherent (p p' : Process) :
  same_roster p p' -> coherent p -> coherent p'.
Proof. unfold coherent. intros [H1 H2] Hc. congruence. Qed.

Lemma save_trajectory_roster (ss : list State) (aa : list Action) (rr : list Reward)
  (ss' : list State) (dd : list bool) (i : nat) (p : Process) :
  same_roster p (snd (save_trajectory ss aa rr ss' dd i p)).
Proof.
  unfold save_trajectory, bind, lift_result, getitem.
  destruct (nth_error ss i) as [s |]; [| apply same_roster_refl].
  destruct (nth_error aa i) as [a |]; [| apply same_roster_refl].
  destruct (nth_error rr i) as [r |]; [| apply same_roster_refl].
  destruct (nth_error ss' i) as [s' |]; [| apply same_roster_refl].
  destruct (nth_error dd i) as [d |]; [| apply same_roster_refl].
  change (same_roster p
            (snd (memory_add (state (mkExperience s a r s' d))
                    (action (mkExperience s a r s' d))
                    (reward (mkExperience s a r s' d))
                    (next_state (mkExperience s a r s' d))
                    (done (mkExperience s a r s' d)) p))).
  rewrite memory_add_run, recorded_eq.
  split; reflexivity.
Qed.

Lemma learn_iteration_roster (p : Process) :
  same_roster p (snd (learn_iteration p)).
Proof.
  destruct (learn_iteration_frame p) as ((Hn & _ & _ & _ & _ & Hags) & _).
  split; assumption.
Qed.

(** [step] keeps the roster on any arguments, whether it returns or raises. *)
Lemma MADDPG_step_roster (ss : list State) (aa : list Action) (rr : list Reward)
  (ss' : list State) (dd : list bool) (p : Process) :
  same_roster p (snd (MADDPG_step ss aa rr ss' dd p)).
Proof.
  unfold MADDPG_step, bind, gets. cbv beta iota.
  pose proof (for_each_frame same_roster (save_trajectory ss aa rr ss' dd)
                same_roster_refl same_roster_trans
                (save_trajectory_roster ss aa rr ss' dd)
                (range (num_agents (self p))) p) as Hrec.
  destruct (for_each (range (num_agents (self p))) _ p) as [[[] | e] p1];
    simpl in *; [| exact Hrec].
  destruct (_ >? _)%Z; [| exact Hrec].
  eapply same_roster_trans; [exact Hrec |].
  apply (for_each_frame same_roster (fun _ : nat => learn_iteration)
           same_roster_refl same_roster_trans (fun _ => learn_iteration_roster)).
Qed.

Lemma MADDPG_act_roster (sts : list State) (add_noise : bool) (p : Process) :
  same_roster p (snd (MADDPG_act sts add_noise p)).
Proof.
  unfold MADDPG_act.
  set (pairs := combine sts (agents (self p))).
  destruct (act_loop_lengths add_noise pairs 0 (globals p)) as (_ & Hacted & _).
  destruct (act_loop 0 pairs add_noise (globals p)) as [[[acts acted] G'] evs].
  simpl in *. split; [reflexivity |]. simpl.
  rewrite length_app, length_skipn, Hacted.
  subst pairs. rewrite length_combine. lia.
Qed.

Lemma MADDPG_learn_roster (b : Batch) (gam : Gamma) (p : Process) :
  same_roster p (snd (MADDPG_learn b gam p)).
Proof.
  rewrite MADDPG_learn_run. cbv zeta. simpl.
  split; [reflexivity |]. simpl.
  apply (learn_loop_spec b gam (agents (self p)) 0 (globals p)).
Qed.

(** A coordinator constructed with a non-negative [num_agents] is
    coherent, and [step], [act] and [learn] keep it so. *)
Lemma MADDPG_init_coherent (n ssz asz : Z) (sd : option Z) (bsz batch : Z)
  (gam : Gamma) (threshold : Z) (G G' : Globals) (m : MADDPG) (tr : list Event) :
  (0 <= n)%Z ->
  MADDPG_init n ssz asz sd bsz batch gam threshold G = (Ok m, G') ->
  coherent (mkProcess m G' tr).
Proof.
  intros Hn Hinit. apply MADDPG_init_ok in Hinit.
  destruct Hinit as (Hnum & Hlen & _). unfold coherent. simpl. lia.
Qed.

End RosterFacts.

(** * Further properties *)

(** ** The buffer *)

Lemma select_incl {A : Type} (l : list A) (idx : list nat) : incl (select l idx) l.
Proof.
  intros x Hx. unfold select in Hx. apply in_flat_map in Hx.
  destruct Hx as (i & _ & Hi).
  destruct (nth_error l i) as [y |] eqn:Hy; [| contradiction].
  destruct Hi as [<- | []]. eapply nth_error_In. exact Hy.
Qed.

Lemma select_all {A : Type} (l : list A) : forall pre : list A,
  select (pre ++ l) (seq (length pre) (length l)) = l.
Proof.
  induction l as [| x l IH]; intros pre.
  - reflexivity.
  - simpl. rewrite nth_error_app2, Nat.sub_diag by lia. simpl.
    f_equal. specialize (IH (pre ++ [x])).
    rewrite <- app_assoc, length_app, Nat.add_1_r in IH. exact IH.
Qed.

Lemma positions_permutation (idx : list nat) (n : nat) :
  NoDup idx -> length idx = n -> Forall (fun i => i < n) idx ->
  Permutation idx (seq 0 n).
Proof.
  intros Hnd Hlen Hlt. apply NoDup_Permutation_bis.
  - exact Hnd.
  - rewrite length_seq. lia.
  - intros i Hi. apply in_seq. rewrite Forall_forall in Hlt.
    specialize (Hlt i Hi). lia.
Qed.

(** X1.  After any sequence of [add] calls on a buffer constructed with
    capacity [buffer_size], [len] is the number of calls or [buffer_size],
    whichever is smaller. *)
Theorem buffer_length_is_min :
  forall (Sp : Spaces) (R : RandomModule) (asz buffer_size batch : Z)
         (sd : option Z) (G G0 : Globals) (buf : ReplayBuffer),
    ReplayBuffer_init asz buffer_size batch sd G = (Ok buf, G0) ->
    forall es : list Experience,
      ReplayBuffer_len (fst (snd (ReplayBuffer_add_all es (buf, G0)))) =
      Z.min (Z.of_nat (length es)) buffer_size.
Proof.
  intros Sp R asz buffer_size batch sd G G0 buf Hinit es.
  apply ReplayBuffer_init_ok in Hinit. destruct Hinit as (Hpos & -> & ->).
  rewrite ReplayBuffer_add_all_run. unfold ReplayBuffer_len, deque_len. simpl.
  assert (Hb : bounded (mkDeque (@nil Experience) buffer_size)).
  { unfold bounded, deque_len. simpl. lia. }
  destruct (deque_extend_spec es Hb) as (_ & _ & Hit).
  rewrite Hit, keep_last_length. simpl. lia.
Qed.

Lemma buffer_length_is_min_witness :
  ReplayBuffer_init (Sp := tagged) (R := lcg) 2 3 2 None fresh_globals
  = (Ok (mkReplayBuffer (Sp := tagged) None 2 (mkDeque [] 3) 2),
     mkGlobals (R := lcg) 12345%Z []) /\
  ReplayBuffer_len
    (fst (snd (ReplayBuffer_add_all (map tag [1; 2; 3; 4; 5]%Z)
                 (mkReplayBuffer (Sp := tagged) None 2 (mkDeque [] 3) 2,
                  mkGlobals (R := lcg) 12345%Z []))))
  = 3%Z.
Proof.
  split; [reflexivity |].
  apply (@buffer_length_is_min tagged lcg 2%Z 3%Z 2%Z None fresh_globals
           (mkGlobals (R := lcg) 12345%Z [])
           (mkReplayBuffer (Sp := tagged) None 2 (mkDeque [] 3) 2)
           eq_refl (map tag [1; 2; 3; 4; 5]%Z)).
Defined.

Lemma deque_new_cases {A : Type} (n : Z) :
  ((n < - PY_SSIZE_T_MAX - 1 \/ PY_SSIZE_T_MAX < n)%Z ->
   deque_new (A := A) n = Raise OverflowError) /\
  ((- PY_SSIZE_T_MAX - 1 <= n < 0)%Z ->
   deque_new (A := A) n = Raise ValueError) /\
  ((0 <= n <= PY_SSIZE_T_MAX)%Z ->
   deque_new (A := A) n = Ok (mkDeque [] n)).
Proof.
  unfold deque_new.
  destruct (n <? - PY_SSIZE_T_MAX - 1)%Z eqn:Hlow;
    destruct (PY_SSIZE_T_MAX <? n)%Z eqn:Hhigh;
    destruct (n <? 0)%Z eqn:Hneg; simpl;
    rewrite ?Z.ltb_lt, ?Z.ltb_ge in *;
    unfold PY_SSIZE_T_MAX in *;
    repeat split; intros; try reflexivity; lia.
Qed.

(** X2.  The constructor of the buffer seeds the generator and then builds
    the deque: it raises [OverflowError] when [buffer_size] does not fit a
    [Py_ssize_t], [ValueError] when [buffer_size] fits and is negative, and
    otherwise returns; the generator has been seeded in every case.  The
    buffer it returns is empty, and [sample] on it raises [ValueError]
    whatever [batch_size] is. *)
Theorem fresh_buffer_cannot_be_sampled :
  forall (Sp : Spaces) (R : RandomModule),
    without_replacement R ->
    forall (asz buffer_size batch : Z) (sd : option Z) (G : Globals),
      ((buffer_size < - PY_SSIZE_T_MAX - 1 \/ PY_SSIZE_T_MAX < buffer_size)%Z ->
       ReplayBuffer_init asz buffer_size batch sd G
       = (Raise OverflowError, random_seed sd G)) /\
      ((- PY_SSIZE_T_MAX - 1 <= buffer_size < 0)%Z ->
       ReplayBuffer_init asz buffer_size batch sd G
       = (Raise ValueError, random_seed sd G)) /\
      ((0 <= buffer_size <= PY_SSIZE_T_MAX)%Z ->
       exists buf : ReplayBuffer,
         ReplayBuffer_init asz buffer_size batch sd G = (Ok buf, random_seed sd G) /\
         ReplayBuffer_len buf = 0%Z /\
         rb_batch_size buf = batch /\
         forall G' : Globals,
           fst (ReplayBuffer_sample (buf, G')) = Raise ValueError).
Proof.
  intros Sp R Hcontract asz buffer_size batch sd G.
  rewrite ReplayBuffer_init_run.
  destruct (deque_new_cases (A := Experience) buffer_size) as (Hover & Hneg & Hok).
  split; [| split]; intros Hsize.
  - now rewrite Hover.
  - now rewrite Hneg.
  - rewrite Hok by exact Hsize.
    eexists. split; [reflexivity |]. repeat split.
    intros G'.
    set (buf := mkReplayBuffer None asz (mkDeque [] buffer_size) batch).
    destruct (Z.lt_trichotomy batch 0) as [Hn | [Hz | Hp]].
    + now rewrite ReplayBuffer_sample_negative by exact Hn.
    + exact (ReplayBuffer_sample_empty_batch Hcontract buf G' Hz).
    + now rewrite ReplayBuffer_sample_short
        by (unfold ReplayBuffer_len, deque_len; simpl; lia).
Qed.

Lemma fresh_buffer_cannot_be_sampled_witness :
  exists buf : @ReplayBuffer tagged,
    ReplayBuffer_init (Sp := tagged) (R := lcg) 2 5 1 (Some 7%Z) fresh_globals
    = (Ok buf, random_seed (Some 7%Z) fresh_globals) /\
    fst (ReplayBuffer_sample (buf, fresh_globals)) = Raise ValueError.
Proof.
  destruct (proj2 (proj2 (@fresh_buffer_cannot_be_sampled tagged lcg
                     lcg_without_replacement 2%Z 5%Z 1%Z (Some 7%Z) fresh_globals)))
    as (buf & Hinit & _ & _ & Hraise).
  - vm_compute. split; discriminate.
  - exists buf. split; [exact Hinit | apply Hraise].
Defined.

(** X3.  When [batch_size] equals the number of stored transitions (at
    least one), the batch [sample] returns holds every stored transition
    exactly once: its rows are a permutation of the buffer's contents. *)
Theorem full_sample_is_permutation :
  forall (Sp : Spaces) (R : RandomModule),
    without_replacement R ->
    forall (buf : ReplayBuffer) (G : Globals),
      (1 <= rb_batch_size buf)%Z ->
      rb_batch_size buf = ReplayBuffer_len buf ->
      exists drawn : list Experience,
        fst (ReplayBuffer_sample (buf, G)) = Ok (batch_of drawn) /\
        Permutation drawn (items (replay_memory buf)) /\
        Permutation (states (batch_of drawn))
          (map state (items (replay_memory buf))).
Proof.
  intros Sp R Hcontract buf G Hone Hall.
  destruct (ReplayBuffer_sample_ok Hcontract buf G) as (Hrun & Hk & Hnd & Hlt & _).
  { lia. }
  set (population := items (replay_memory buf)) in *.
  set (idx := fst (sample_positions (random_state G) (length population)
                     (Z.to_nat (rb_batch_size buf)))) in *.
  assert (Hlen : length idx = length population).
  { rewrite Hk, Hall. unfold ReplayBuffer_len, deque_len. fold population. lia. }
  assert (Hperm : Permutation (select population idx) population).
  { rewrite <- (select_all population []) at 2. simpl.
    unfold select. apply Permutation_flat_map.
    apply positions_permutation; assumption. }
  exists (select population idx). rewrite Hrun. simpl.
  split; [reflexivity |]. split; [exact Hperm |].
  apply Permutation_map. exact Hperm.
Qed.

Lemma full_sample_is_permutation_witness :
  let buf := mkReplayBuffer (Sp := tagged) None 2
               (mkDeque (map tag [3; 4; 5]%Z) 5) 3 in
  exists drawn : list (@Experience tagged),
    fst (ReplayBuffer_sample (buf, mkGlobals (R := lcg) 12346%Z [])) = Ok (batch_of drawn) /\
    Permutation drawn (map tag [3; 4; 5]%Z).
Proof.
  intros buf.
  destruct (@full_sample_is_permutation tagged lcg lcg_without_replacement buf
              (mkGlobals (R := lcg) 12346%Z []))
    as (drawn & Hrun & Hperm & _).
  - vm_compute. discriminate.
  - reflexivity.
  - exists drawn. split; assumption.
Defined.

(** X4.  A transition that was evicted is never drawn: whenever [sample]
    returns a batch from a buffer constructed with capacity [buffer_size]
    and filled by a sequence of [add] calls, every row of the batch comes
    from one of the last [buffer_size] transitions added. *)
Theorem sample_draws_from_recent :
  forall (Sp : Spaces) (R : RandomModule) (asz buffer_size batch : Z)
         (sd : option Z) (G G0 : Globals) (buf : ReplayBuffer),
    ReplayBuffer_init asz buffer_size batch sd G = (Ok buf, G0) ->
    forall (es : list Experience) (G1 : Globals) (b : Batch),
      fst (ReplayBuffer_sample
             (fst (snd (ReplayBuffer_add_all es (buf, G0))), G1)) = Ok b ->
      exists drawn : list Experience,
        b = batch_of drawn /\
        drawn <> [] /\
        incl drawn (keep_last (Z.to_nat buffer_size) es).
Proof.
  intros Sp R asz buffer_size batch sd G G0 buf Hinit es G1 b Hs.
  apply ReplayBuffer_init_ok in Hinit. destruct Hinit as (Hpos & -> & ->).
  rewrite ReplayBuffer_add_all_run in Hs. simpl in Hs.
  assert (Hb : bounded (mkDeque (@nil Experience) buffer_size)).
  { unfold bounded, deque_len. simpl. lia. }
  destruct (deque_extend_spec es Hb) as (_ & _ & Hit). simpl in Hit.
  rewrite ReplayBuffer_sample_run in Hs. cbv zeta in Hs. simpl in Hs.
  destruct ((0 <=? batch) && _)%Z; [| discriminate].
  rewrite Hit in Hs.
  set (picked := select _ _) in Hs.
  assert (Hincl : incl picked (keep_last (Z.to_nat buffer_size) es))
    by apply select_incl.
  destruct picked as [| e rest]; [discriminate |].
  exists (e :: rest). simpl in Hs. inversion Hs; subst.
  repeat split; [discriminate | exact Hincl].
Qed.

Lemma sample_draws_from_recent_witness :
  exists (b : @Batch tagged) (drawn : list (@Experience tagged)),
    fst (ReplayBuffer_sample
           (fst (snd (ReplayBuffer_add_all (map tag [1; 2; 3; 4]%Z)
                        (mkReplayBuffer (Sp := tagged) None 2 (mkDeque [] 2) 1,
                         mkGlobals (R := lcg) 12345%Z []))),
            mkGlobals (R := lcg) 12345%Z [])) = Ok b /\
    b = batch_of drawn /\
    incl drawn (map tag [3; 4]%Z).
Proof.
  eexists.
  destruct (@sample_draws_from_recent tagged lcg 2%Z 2%Z 1%Z (Some 0%Z)
              fresh_globals (mkGlobals (R := lcg) 12345%Z [])
              (mkReplayBuffer (Sp := tagged) None 2 (mkDeque [] 2) 1)
              eq_refl (map tag [1; 2; 3; 4]%Z) (mkGlobals (R := lcg) 12345%Z [])
              _ eq_refl)
    as (drawn & Hb & _ & Hincl).
  exists drawn. split; [reflexivity |]. split; assumption.
Defined.

(** ** The coordinator: construction, [reset], [learn], [act] *)

Section LoopFacts.

Context {Sp : Spaces} {R : RandomModule} {Ag : AgentClass}.

Lemma reset_loop_position (ags : list Agent) : forall (i j : nat) (G : Globals),
  fst (reset_loop i ags G) = fst (reset_loop j ags G).
Proof.
  induction ags as [| agent rest IH]; intros i j G; simpl.
  - reflexivity.
  - destruct (Agent_reset agent G) as [agent' G1].
    specialize (IH (S i) (S j) G1).
    destruct (reset_loop (S i) rest G1) as [[ags1 G2] evs].
    destruct (reset_loop (S j) rest G1) as [[ags1' G2'] evs'].
    simpl in *. inversion IH; subst. reflexivity.
Qed.

Lemma reset_loop_spec (ags : list Agent) : forall (i : nat) (G : Globals),
  length (fst (fst (reset_loop i ags G))) = length ags /\
  snd (reset_loop i ags G) = map CallAgentReset (seq i (length ags)).
Proof.
  induction ags as [| agent rest IH]; intros i G; simpl.
  - split; reflexivity.
  - destruct (Agent_reset agent G) as [agent' G1].
    specialize (IH (S i) G1).
    destruct (reset_loop (S i) rest G1) as [[rest' G2] evs].
    simpl in *. destruct IH as [Hlen Hevs]. split; congruence.
Qed.

Lemma reset_loop_nth (ags : list Agent) :
  forall (i j : nat) (G : Globals) (agent : Agent),
    nth_error ags j = Some agent ->
    nth_error (fst (fst (reset_loop i ags G))) j =
    Some (fst (Agent_reset agent (snd (fst (reset_loop 0 (firstn j ags) G))))).
Proof.
  induction ags as [| agent0 rest IH]; intros i j G agent Hj.
  - destruct j; discriminate.
  - destruct j as [| j]; simpl in Hj.
    + inversion Hj; subst. simpl.
      destruct (Agent_reset agent G) as [agent' G1].
      destruct (reset_loop (S i) rest G1) as [[rest' G2] evs]. reflexivity.
    + simpl. destruct (Agent_reset agent0 G) as [agent' G1].
      specialize (IH (S i) j G1 agent Hj).
      pose proof (reset_loop_position (firstn j rest) 0 1 G1) as Hpos.
      destruct (reset_loop (S i) rest G1) as [[rest' G2] evs].
      destruct (reset_loop 1 (firstn j rest) G1) as [[pre G2'] evs'].
      simpl in *. rewrite IH, Hpos. reflexivity.
Qed.

Lemma learn_loop_position (b : Batch) (gam : Gamma) (ags : list Agent) :
  forall (i j : nat) (G : Globals),
    fst (learn_loop i ags b gam G) = fst (learn_loop j ags b gam G).
Proof.
  induction ags as [| agent rest IH]; intros i j G; simpl.
  - reflexivity.
  - destruct (Agent_learn agent b gam G) as [agent' G1].
    specialize (IH (S i) (S j) G1).
    destruct (learn_loop (S i) rest b gam G1) as [[ags1 G2] evs].
    destruct (learn_loop (S j) rest b gam G1) as [[ags1' G2'] evs'].
    simpl in *. inversion IH; subst. reflexivity.
Qed.

Lemma learn_loop_nth (b : Batch) (gam : Gamma) (ags : list Agent) :
  forall (i j : nat) (G : Globals) (agent : Agent),
    nth_error ags j = Some agent ->
    nth_error (fst (fst (learn_loop i ags b gam G))) j =
    Some (fst (Agent_learn agent b gam
                 (snd (fst (learn_loop 0 (firstn j ags) b gam G))))).
Proof.
  induction ags as [| agent0 rest IH]; intros i j G agent Hj.
  - destruct j; discriminate.
  - destruct j as [| j]; simpl in Hj.
    + inversion Hj; subst. simpl.
      destruct (Agent_learn agent b gam G) as [agent' G1].
      destruct (learn_loop (S i) rest b gam G1) as [[rest' G2] evs]. reflexivity.
    + simpl. destruct (Agent_learn agent0 b gam G) as [agent' G1].
      specialize (IH (S i) j G1 agent Hj).
      pose proof (learn_loop_position b gam (firstn j rest) 0 1 G1) as Hpos.
      destruct (learn_loop (S i) rest b gam G1) as [[rest' G2] evs].
      destruct (learn_loop 1 (firstn j rest) b gam G1) as [[pre G2'] evs'].
      simpl in *. rewrite IH, Hpos. reflexivity.
Qed.

Lemma act_loop_calls (add_noise : bool) (pairs : list (State * Agent)) :
  forall (i : nat) (G : Globals),
    Forall (fun ev => is_agent_act ev = true) (snd (act_loop i pairs add_noise G)).
Proof.
  induction pairs as [| [s agent] rest IH]; intros i G; simpl.
  - constructor.
  - destruct (Agent_act agent s add_noise G) as [[a agent'] G1].
    specialize (IH (S i) G1).
    destruct (act_loop (S i) rest add_noise G1) as [[[acts ags] G2] evs].
    simpl in *. constructor; [reflexivity | exact IH].
Qed.

End LoopFacts.

(** X5.  Whenever the constructor of the coordinator returns, [buffer_size]
    is between 0 and the largest [Py_ssize_t], and the coordinator has one
    agent per index of [range(num_agents)], an empty buffer of capacity
    [buffer_size] that has the coordinator's [batch_size], and the threshold
    and discount it was given; with an integer seed, the generator of
    [random] is left as [random.seed(seed)] leaves it, whatever the agents'
    constructors did to it. *)
Theorem coordinator_constructor :
  forall (Sp : Spaces) (R : RandomModule) (Ag : AgentClass)
         (n ssz asz : Z) (sd : option Z) (bsz batch : Z) (gam : Gamma)
         (threshold : Z) (G G' : Globals) (m : MADDPG),
    MADDPG_init n ssz asz sd bsz batch gam threshold G = (Ok m, G') ->
    (0 <= bsz <= PY_SSIZE_T_MAX)%Z /\
    length (agents m) = Z.to_nat n /\
    num_agents m = n /\
    batch_size m = batch /\
    rb_batch_size (memory m) = batch /\
    maxlen (replay_memory (memory m)) = bsz /\
    ReplayBuffer_len (memory m) = 0%Z /\
    minsamples_before_train m = threshold /\
    gamma m = gam /\
    forall s : Z, sd = Some s -> random_state G' = seed_int s.
Proof.
  intros Sp R Ag n ssz asz sd bsz batch gam threshold G G' m.
  unfold MADDPG_init, bind.
  destruct (new_agents_run ssz asz sd (range n) G) as (ags & G1 & Hrun & Hlen).
  unfold range in Hlen. rewrite length_seq in Hlen.
  rewrite Hrun, ReplayBuffer_init_run.
  destruct (deque_new_cases (A := Experience) bsz) as (Hover & Hneg & Hok).
  destruct (Z.lt_ge_cases bsz (- PY_SSIZE_T_MAX - 1)) as [Hlow | Hlow];
    [rewrite Hover by lia; discriminate |].
  destruct (Z.lt_ge_cases PY_SSIZE_T_MAX bsz) as [Hhigh | Hhigh];
    [rewrite Hover by lia; discriminate |].
  destruct (Z.lt_ge_cases bsz 0) as [Hminus | Hplus];
    [rewrite Hneg by lia; discriminate |].
  rewrite Hok by lia. unfold ret. intros H. inversion H; subst. simpl.
  repeat split; try assumption.
  intros s ->. reflexivity.
Qed.

Lemma coordinator_constructor_witness :
  exists (m : @MADDPG tagged lcg counting_agent) (G' : @Globals lcg),
    MADDPG_init (Ag := counting_agent) 2 2 2 (Some 3%Z) 10 4 99%Z 7 fresh_globals
    = (Ok m, G') /\
    length (agents m) = 2 /\
    ReplayBuffer_len (memory m) = 0%Z /\
    random_state G' = seed_int (RandomModule := lcg) 3.
Proof.
  do 2 eexists. split; [reflexivity |].
  destruct (@coordinator_constructor tagged lcg counting_agent
              2%Z 2%Z 2%Z (Some 3%Z) 10%Z 4%Z 99%Z 7%Z fresh_globals _ _ eq_refl)
    as (_ & Hags & _ & _ & _ & _ & Hlen & _ & _ & Hseed).
  split; [exact Hags |]. split; [exact Hlen |]. apply Hseed. reflexivity.
Defined.

(** X6.  [reset] returns normally after one [reset] call per agent, in the
    order of the agent list: the [i]-th agent afterwards is what its own
    [reset] returns.  The buffer, the configuration and the number of agents
    are unchanged. *)
Theorem reset_resets_each_agent :
  forall (Sp : Spaces) (R : RandomModule) (Ag : AgentClass) (p : Process),
    exists p' : Process,
      MADDPG_reset p = (Ok tt, p') /\
      (forall (i : nat) (agent : Agent),
          nth_error (agents (self p)) i = Some agent ->
          nth_error (agents (self p')) i =
          Some (fst (Agent_reset agent
                       (globals_before_reset i (agents (self p)) (globals p))))) /\
      length (agents (self p')) = length (agents (self p)) /\
      memory (self p') = memory (self p) /\
      num_agents (self p') = num_agents (self p) /\
      minsamples_before_train (self p') = minsamples_before_train (self p) /\
      gamma (self p') = gamma (self p) /\
      calls p' = calls p ++ map CallAgentReset (seq 0 (length (agents (self p)))).
Proof.
  intros Sp R Ag p. unfold MADDPG_reset.
  destruct (reset_loop_spec (agents (self p)) 0 (globals p)) as [Hlen Hevs].
  pose proof (fun i agent => reset_loop_nth (agents (self p)) 0 i (globals p)
                               (agent := agent)) as Hnth.
  destruct (reset_loop 0 (agents (self p)) (globals p)) as [[ags' G'] evs].
  simpl in *. eexists. split; [reflexivity |]. simpl.
  split; [exact Hnth |]. subst evs. repeat split. exact Hlen.
Qed.

(** X7.  [learn(experiences, gamma)] returns normally after one [learn]
    call per agent, in the order of the agent list, each with the batch and
    the discount that were passed in: the [i]-th agent afterwards is what
    its own [learn] returns on them.  No [add] and no [sample] is made, and
    the buffer and the configuration are unchanged. *)
Theorem learn_updates_each_agent :
  forall (Sp : Spaces) (R : RandomModule) (Ag : AgentClass)
         (p : Process) (b : Batch) (gam : Gamma),
    exists p' : Process,
      MADDPG_learn b gam p = (Ok tt, p') /\
      (forall (i : nat) (agent : Agent),
          nth_error (agents (self p)) i = Some agent ->
          nth_error (agents (self p')) i =
          Some (fst (Agent_learn agent b gam
                       (globals_before_learn i (agents (self p)) b gam (globals p))))) /\
      length (agents (self p')) = length (agents (self p)) /\
      memory (self p') = memory (self p) /\
      num_agents (self p') = num_agents (self p) /\
      gamma (self p') = gamma (self p) /\
      calls p' =
      calls p ++ CallLearn b gam ::
        map (fun i => CallAgentLearn i b gam) (seq 0 (length (agents (self p)))).
Proof.
  intros Sp R Ag p b gam. rewrite MADDPG_learn_run. cbv zeta.
  destruct (learn_loop_spec b gam (agents (self p)) 0 (globals p)) as [Hlen Hevs].
  pose proof (fun i agent => learn_loop_nth b gam (agents (self p)) 0 i (globals p)
                               (agent := agent)) as Hnth.
  eexists. split; [reflexivity |]. simpl.
  split; [exact Hnth |]. rewrite Hevs. repeat split. exact Hlen.
Qed.

(** X8.  [act] never raises and pairs states with agents up to the shorter
    of the two lists: states beyond the number of agents are ignored, so
    [act] on a longer list is [act] on its first [len(agents)] elements.  It
    returns as many actions as pairs, makes only [act] calls on agents, and
    leaves the buffer, the configuration and the number of agents alone. *)
Theorem act_pairs_up_to_shorter :
  forall (Sp : Spaces) (R : RandomModule) (Ag : AgentClass)
         (p : Process) (sts : list State) (add_noise : bool),
    MADDPG_act sts add_noise p =
    MADDPG_act (firstn (length (agents (self p))) sts) add_noise p /\
    exists (acts : list Action) (p' : Process) (evs : list Event),
      MADDPG_act sts add_noise p = (Ok acts, p') /\
      length acts = Nat.min (length sts) (length (agents (self p))) /\
      memory (self p') = memory (self p) /\
      num_agents (self p') = num_agents (self p) /\
      length (agents (self p')) = length (agents (self p)) /\
      calls p' = calls p ++ evs /\
      length evs = length acts /\
      Forall (fun ev => is_agent_act ev = true) evs.
Proof.
  intros Sp R Ag p sts add_noise. split.
  - unfold MADDPG_act. rewrite <- combine_firstn_r. reflexivity.
  - destruct (MADDPG_act_roster sts add_noise p) as [Hnum Hags].
    unfold MADDPG_act in *.
    set (pairs := combine sts (agents (self p))) in *.
    destruct (act_loop_lengths add_noise pairs 0 (globals p)) as (Hl1 & _ & Hl3).
    pose proof (act_loop_calls add_noise pairs 0 (globals p)) as Hevs.
    destruct (act_loop 0 pairs add_noise (globals p)) as [[[acts acted] G'] evs].
    simpl in *. exists acts. eexists. exists evs.
    split; [reflexivity |]. simpl.
    assert (Hpairs : length pairs = Nat.min (length sts) (length (agents (self p)))).
    { subst pairs. apply length_combine. }
    repeat split; try assumption; try congruence.
    unfold count_calls in Hl3.
    rewrite forallb_filter_id in Hl3; [congruence |].
    apply forallb_forall. rewrite Forall_forall in Hevs. exact Hevs.
Qed.

(** ** [step] on arguments of any length *)

Lemma for_each_app {S X : Type} (body : X -> Eff S unit) (xs ys : list X) (s : S) :
  for_each (xs ++ ys) body s =
  match for_each xs body s with
  | (Ok _, s') => for_each ys body s'
  | (Raise e, s') => (Raise e, s')
  end.
Proof.
  revert s. induction xs as [| x xs IH]; intros s; simpl.
  - reflexivity.
  - unfold bind. destruct (body x s) as [[[] | e] s1]; [apply IH | reflexivity].
Qed.

Lemma deque_append_length_ge {A : Type} (d : deque A) (x : A) :
  length (items d) <= length (items (deque_append d x)).
Proof.
  unfold deque_append. destruct (_ <? _)%Z; simpl.
  - rewrite tl_skipn, length_skipn, length_app. simpl. lia.
  - rewrite length_app. simpl. lia.
Qed.

Section ArgumentFacts.

Context {Sp : Spaces} {R : RandomModule} {Ag : AgentClass}.

Lemma transitions_length_min (ss : list State) : forall (aa : list Action)
  (rr : list Reward) (ss' : list State) (dd : list bool),
  length (transitions ss aa rr ss' dd) =
  Nat.min (length ss) (Nat.min (length aa) (Nat.min (length rr)
    (Nat.min (length ss') (length dd)))).
Proof.
  induction ss as [| s ss IH]; intros aa rr ss' dd.
  - reflexivity.
  - destruct aa, rr, ss', dd; simpl; try lia.
    rewrite IH. reflexivity.
Qed.

Lemma transitions_firstn (k : nat) : forall (ss : list State) (aa : list Action)
  (rr : list Reward) (ss' : list State) (dd : list bool),
  transitions (firstn k ss) (firstn k aa) (firstn k rr) (firstn k ss') (firstn k dd)
  = firstn k (transitions ss aa rr ss' dd).
Proof.
  induction k as [| k IH]; intros ss aa rr ss' dd.
  - reflexivity.
  - destruct ss, aa, rr, ss', dd; simpl; try reflexivity.
    now rewrite IH.
Qed.

Lemma transitions_nth_some (ss : list State) : forall (aa : list Action)
  (rr : list Reward) (ss' : list State) (dd : list bool) (i : nat)
  (s : State) (a : Action) (r : Reward) (s' : State) (d : bool),
  nth_error ss i = Some s -> nth_error aa i = Some a ->
  nth_error rr i = Some r -> nth_error ss' i = Some s' ->
  nth_error dd i = Some d ->
  nth_error (transitions ss aa rr ss' dd) i = Some (mkExperience s a r s' d).
Proof.
  induction ss as [| s0 ss IH]; intros aa rr ss' dd i s a r s' d H1 H2 H3 H4 H5.
  - destruct i; discriminate.
  - destruct aa, rr, ss', dd; try (destruct i; discriminate).
    destruct i as [| i]; simpl in *.
    + congruence.
    + now apply IH.
Qed.

(** Indexing past the end of one of the arguments raises [IndexError]
    before anything is added. *)
Lemma save_trajectory_raise (ss : list State) (aa : list Action) (rr : list Reward)
  (ss' : list State) (dd : list bool) (i : nat) (p : Process) :
  nth_error (transitions ss aa rr ss' dd) i = None ->
  save_trajectory ss aa rr ss' dd i p = (Raise IndexError, p).
Proof.
  intros Hnone. unfold save_trajectory, bind, lift_result, getitem.
  destruct (nth_error ss i) as [s |] eqn:H1; [| reflexivity].
  destruct (nth_error aa i) as [a |] eqn:H2; [| reflexivity].
  destruct (nth_error rr i) as [r |] eqn:H3; [| reflexivity].
  destruct (nth_error ss' i) as [s' |] eqn:H4; [| reflexivity].
  destruct (nth_error dd i) as [d |] eqn:H5; [| reflexivity].
  rewrite (transitions_nth_some _ _ _ _ _ _ H1 H2 H3 H4 H5) in Hnone.
  discriminate.
Qed.

(** [step] on arguments with at least [num_agents] elements each. *)
Lemma MADDPG_step_run_long (ss : list State) (aa : list Action) (rr : list Reward)
  (ss' : list State) (dd : list bool) (p : Process) :
  Z.to_nat (num_agents (self p)) <= length (transitions ss aa rr ss' dd) ->
  MADDPG_step ss aa rr ss' dd p =
  let p1 := recorded (firstn (Z.to_nat (num_agents (self p)))
                        (transitions ss aa rr ss' dd)) p in
  if (ReplayBuffer_len (memory (self p1)) >? minsamples_before_train (self p))%Z
  then for_each (range (num_agents (self p))) (fun _ => learn_iteration) p1
  else (Ok tt, p1).
Proof.
  intros Hlen.
  set (k := Z.to_nat (num_agents (self p))) in *.
  unfold MADDPG_step, bind, gets. cbv zeta. unfold range at 1. fold k.
  rewrite recording_loop by lia. rewrite skipn_O.
  destruct (recorded_configuration (firstn k (transitions ss aa rr ss' dd)) p)
    as (Hn & _ & Ht & _).
  cbv beta iota. rewrite Ht.
  destruct (_ >? _)%Z; [| reflexivity].
  cbv beta iota. rewrite Hn. reflexivity.
Qed.

Lemma save_trajectory_never_shrinks (ss : list State) (aa : list Action)
  (rr : list Reward) (ss' : list State) (dd : list bool) (i : nat) (p : Process) :
  never_shrinks p (snd (save_trajectory ss aa rr ss' dd i p)).
Proof.
  destruct (nth_error (transitions ss aa rr ss' dd) i) as [e |] eqn:He.
  - rewrite (save_trajectory_run _ _ _ _ _ _ p He), recorded_eq.
    unfold never_shrinks, ReplayBuffer_len, deque_len. simpl.
    split; [| reflexivity].
    apply inj_le. apply deque_append_length_ge.
  - rewrite (save_trajectory_raise _ _ _ _ _ _ p He).
    unfold never_shrinks. simpl. split; [lia | reflexivity].
Qed.

Lemma learn_iteration_never_shrinks (p : Process) :
  never_shrinks p (snd (learn_iteration p)).
Proof.
  destruct (learn_iteration_frame p) as ((_ & _ & _ & Ht & Hmem & _) & _).
  unfold never_shrinks. rewrite Hmem, Ht. split; [lia | reflexivity].
Qed.

Lemma never_shrinks_refl (p : Process) : never_shrinks p p.
Proof. unfold never_shrinks. split; [lia | reflexivity]. Qed.

Lemma never_shrinks_trans (p q r : Process) :
  never_shrinks p q -> never_shrinks q r -> never_shrinks p r.
Proof.
  unfold never_shrinks. intros [H1 H2] [K1 K2]. split; [lia | congruence].
Qed.

End ArgumentFacts.

(** X9.  When one of the five arguments of [step] has fewer than
    [num_agents] elements, the call raises [IndexError] at the first index
    that one of them lacks.  The transitions of the indices before it have
    been added to the buffer and stay there; nothing is sampled and no
    agent learns. *)
Theorem step_short_argument_raises :
  forall (Sp : Spaces) (R : RandomModule) (Ag : AgentClass)
         (p : Process) (ss : list State) (aa : list Action) (rr : list Reward)
         (ss' : list State) (dd : list bool),
    let shortest := Nat.min (length ss) (Nat.min (length aa) (Nat.min (length rr)
                      (Nat.min (length ss') (length dd)))) in
    (Z.of_nat shortest < num_agents (self p))%Z ->
    MADDPG_step ss aa rr ss' dd p =
    (Raise IndexError, recorded (transitions ss aa rr ss' dd) p) /\
    length (transitions ss aa rr ss' dd) = shortest /\
    agents (self (recorded (transitions ss aa rr ss' dd) p)) = agents (self p) /\
    globals (recorded (transitions ss aa rr ss' dd) p) = globals p.
Proof.
  intros Sp R Ag p ss aa rr ss' dd shortest Hshort.
  pose proof (transitions_length_min ss aa rr ss' dd) as Hlen.
  fold shortest in Hlen.
  set (es := transitions ss aa rr ss' dd) in *.
  destruct (recorded_configuration es p) as (_ & _ & _ & Hags & _ & Hglob).
  split; [| repeat split; assumption].
  unfold MADDPG_step, bind, gets. cbv zeta. unfold range.
  replace (Z.to_nat (num_agents (self p)))
    with (shortest + S (Z.to_nat (num_agents (self p)) - shortest - 1)) by lia.
  rewrite seq_app, for_each_app.
  fold es. rewrite recording_loop by (fold es; lia).
  fold es. rewrite skipn_O, firstn_all2 by lia.
  simpl. unfold bind.
  rewrite save_trajectory_raise; [reflexivity |].
  fold es. apply nth_error_None. lia.
Qed.

Lemma step_short_argument_raises_witness :
  let p := mkProcess (Ag := counting_agent)
             (mkMADDPG (Ag := counting_agent) 3 4 99%Z 7 [0; 0; 0]%Z
                (mkReplayBuffer (Sp := tagged) None 2 (mkDeque [] 10) 4))
             (mkGlobals (R := lcg) 12345%Z []) [] in
  MADDPG_step (Sp := tagged) (Ag := counting_agent)
    [1; 2; 3]%Z [1; 2; 3]%Z [1; 2]%Z [1; 2; 3]%Z [false; false; false] p
  = (Raise IndexError, recorded (map tag [1; 2]%Z) p).
Proof.
  intros p.
  exact (proj1 (@step_short_argument_raises tagged lcg counting_agent p
                  [1; 2; 3]%Z [1; 2; 3]%Z [1; 2]%Z [1; 2; 3]%Z [false; false; false]
                  eq_refl)).
Defined.

(** X10.  [step] reads only the first [num_agents] elements of each
    argument: on arguments that have at least that many elements it does
    what it does on their first [num_agents] elements. *)
Theorem step_ignores_surplus_elements :
  forall (Sp : Spaces) (R : RandomModule) (Ag : AgentClass)
         (p : Process) (ss : list State) (aa : list Action) (rr : list Reward)
         (ss' : list State) (dd : list bool),
    let k := Z.to_nat (num_agents (self p)) in
    k <= length ss -> k <= length aa -> k <= length rr ->
    k <= length ss' -> k <= length dd ->
    MADDPG_step ss aa rr ss' dd p =
    MADDPG_step (firstn k ss) (firstn k aa) (firstn k rr) (firstn k ss')
      (firstn k dd) p.
Proof.
  intros Sp R Ag p ss aa rr ss' dd k H1 H2 H3 H4 H5.
  pose proof (transitions_length_min ss aa rr ss' dd) as Hlen.
  rewrite (MADDPG_step_run_long ss aa rr ss' dd p) by (fold k; lia).
  rewrite (MADDPG_step_run_long (firstn k ss) (firstn k aa) (firstn k rr)
             (firstn k ss') (firstn k dd) p).
  - fold k. rewrite transitions_firstn, firstn_firstn, Nat.min_id. reflexivity.
  - fold k. rewrite transitions_firstn, length_firstn. lia.
Qed.

Lemma step_ignores_surplus_elements_witness :
  let p := mkProcess (Ag := counting_agent)
             (mkMADDPG (Ag := counting_agent) 2 1 99%Z 0 [0; 0]%Z
                (mkReplayBuffer (Sp := tagged) None 2 (mkDeque [] 10) 1))
             (mkGlobals (R := lcg) 12345%Z []) [] in
  MADDPG_step (Sp := tagged) (Ag := counting_agent)
    [1; 2; 3]%Z [1; 2; 3; 4]%Z [1; 2]%Z [1; 2; 3]%Z [false; false; true] p
  = tagged_step [1; 2]%Z p.
Proof.
  intros p.
  apply (@step_ignores_surplus_elements tagged lcg counting_agent p
           [1; 2; 3]%Z [1; 2; 3; 4]%Z [1; 2]%Z [1; 2; 3]%Z [false; false; true]);
    simpl; lia.
Defined.

(** ** [step]: the failing draw, the phases, and runs of calls *)

Section PhaseFacts.

Context {Sp : Spaces} {R : RandomModule} {Ag : AgentClass}.

(** What [sample] does when [batch_size] does not fit the buffer. *)
Lemma ReplayBuffer_sample_misfit (buf : ReplayBuffer) (G : Globals) :
  without_replacement R ->
  ~ (1 <= rb_batch_size buf <= ReplayBuffer_len buf)%Z ->
  fst (ReplayBuffer_sample (buf, G)) = Raise ValueError /\
  ((rb_batch_size buf < 0 \/ ReplayBuffer_len buf < rb_batch_size buf)%Z ->
   snd (snd (ReplayBuffer_sample (buf, G))) = G).
Proof.
  intros Hcontract Hmis.
  destruct (Z.lt_trichotomy (rb_batch_size buf) 0) as [Hn | [Hz | Hp]].
  - rewrite ReplayBuffer_sample_negative by exact Hn. split; reflexivity.
  - split; [exact (ReplayBuffer_sample_empty_batch Hcontract buf G Hz) |].
    intros [Hneg | Hshort]; [lia |].
    now rewrite ReplayBuffer_sample_short by exact Hshort.
  - rewrite ReplayBuffer_sample_short by lia. split; reflexivity.
Qed.

(** One well-formed [step] call when [batch_size] fits the buffer whenever
    the call trains. *)
Lemma MADDPG_step_fits (ss : list State) (aa : list Action) (rr : list Reward)
  (ss' : list State) (dd : list bool) (p : Process) :
  without_replacement R ->
  Z.of_nat (length ss) = num_agents (self p) ->
  Z.of_nat (length aa) = num_agents (self p) ->
  Z.of_nat (length rr) = num_agents (self p) ->
  Z.of_nat (length ss') = num_agents (self p) ->
  Z.of_nat (length dd) = num_agents (self p) ->
  let p1 := recorded (transitions ss aa rr ss' dd) p in
  let trains := (ReplayBuffer_len (memory (self p1))
                 >? minsamples_before_train (self p))%Z in
  (trains = true ->
   (1 <= rb_batch_size (memory (self p)) <= ReplayBuffer_len (memory (self p1)))%Z) ->
  exists p' : Process,
    MADDPG_step ss aa rr ss' dd p = (Ok tt, p') /\
    keeps_configuration p1 p' /\
    count_calls is_learn (calls p') =
    count_calls is_learn (calls p) +
    (if trains then Z.to_nat (num_agents (self p)) else 0).
Proof.
  intros Hcontract H1 H2 H3 H4 H5 p1 trains Hfit.
  rewrite (MADDPG_step_run ss aa rr ss' dd p H1 H2 H3 H4 H5).
  cbv zeta. fold p1. fold trains.
  assert (Hrec : count_calls is_learn (calls p1) = count_calls is_learn (calls p)).
  { subst p1. rewrite recorded_eq. simpl.
    rewrite count_calls_app, count_calls_adds by reflexivity. lia. }
  destruct trains eqn:Htrains.
  - destruct (recorded_configuration (transitions ss aa rr ss' dd) p)
      as (_ & _ & _ & _ & Hbatch & _).
    fold p1 in Hbatch.
    destruct (learning_loop_ok (range (num_agents (self p))) p1)
      as (p' & batches & Hloop & Hkeep & Hlen & Hcalls & _).
    { intros G.
      destruct (ReplayBuffer_sample_ok Hcontract (memory (self p1)) G) as (Hok & _).
      - rewrite Hbatch. apply Hfit. reflexivity.
      - eexists. rewrite Hok. reflexivity. }
    exists p'. split; [exact Hloop |]. split; [exact Hkeep |].
    rewrite Hcalls, count_calls_app.
    destruct (count_learn_iterations (length (agents (self p1))) (gamma (self p1))
                batches) as (Hcount & _).
    rewrite Hcount, Hlen, Hrec. unfold range. now rewrite length_seq.
  - exists p1. split; [reflexivity |].
    split; [apply keeps_configuration_refl | lia].
Qed.

End PhaseFacts.

(** X11.  A well-formed [step] call of at least one agent that ends its
    recording phase above the threshold while [batch_size] does not fit the
    buffer ([batch_size < 1] or [batch_size > len]) raises [ValueError] on
    its first draw: [sample] was called once, no [learn] was called, the
    agents are untouched, and the transitions of the call stay recorded.
    Unless [batch_size] is 0, the generator was not advanced either. *)
Theorem step_failing_draw :
  forall (Sp : Spaces) (R : RandomModule) (Ag : AgentClass),
    without_replacement R ->
    forall (p : Process) (ss : list State) (aa : list Action) (rr : list Reward)
           (ss' : list State) (dd : list bool),
      (1 <= num_agents (self p))%Z ->
      Z.of_nat (length ss) = num_agents (self p) ->
      Z.of_nat (length aa) = num_agents (self p) ->
      Z.of_nat (length rr) = num_agents (self p) ->
      Z.of_nat (length ss') = num_agents (self p) ->
      Z.of_nat (length dd) = num_agents (self p) ->
      let p1 := recorded (transitions ss aa rr ss' dd) p in
      let len := ReplayBuffer_len (memory (self p1)) in
      (len > minsamples_before_train (self p))%Z ->
      ~ (1 <= rb_batch_size (memory (self p)) <= len)%Z ->
      exists p' : Process,
        MADDPG_step ss aa rr ss' dd p = (Raise ValueError, p') /\
        self p' = self p1 /\
        agents (self p') = agents (self p) /\
        calls p' = calls p1 ++ [CallSample (Raise ValueError)] /\
        ((rb_batch_size (memory (self p)) < 0 \/
          len < rb_batch_size (memory (self p)))%Z ->
         globals p' = globals p).
Proof.
  intros Sp R Ag Hcontract p ss aa rr ss' dd Hone H1 H2 H3 H4 H5 p1 len
    Htrain Hmis.
  rewrite (MADDPG_step_run ss aa rr ss' dd p H1 H2 H3 H4 H5).
  cbv zeta. fold p1. fold len.
  replace (len >? _)%Z with true
    by (symmetry; rewrite Z.gtb_ltb; apply Z.ltb_lt; lia).
  destruct (recorded_configuration (transitions ss aa rr ss' dd) p)
    as (_ & _ & _ & Hags & Hbatch & Hglob).
  fold p1 in Hags, Hbatch, Hglob.
  destruct (ReplayBuffer_sample_misfit (memory (self p1)) (globals p1) Hcontract)
    as [Hraise Hsame].
  { rewrite Hbatch. exact Hmis. }
  unfold range.
  destruct (Z.to_nat (num_agents (self p))) as [| k] eqn:Hk; [lia |].
  simpl. unfold bind. rewrite (learn_iteration_raise p1 Hraise).
  eexists. split; [reflexivity |].
  split; [reflexivity |]. split; [exact Hags |]. split; [reflexivity |].
  intros Hcase. cbn [globals]. rewrite Hsame; [exact Hglob |].
  rewrite Hbatch. exact Hcase.
Qed.

Lemma step_failing_draw_witness :
  let p := mkProcess (Ag := counting_agent)
             (mkMADDPG (Ag := counting_agent) 2 4 99%Z 0 [0; 0]%Z
                (mkReplayBuffer (Sp := tagged) None 2 (mkDeque [] 10) 4))
             (mkGlobals (R := lcg) 12345%Z []) [] in
  exists p' : @Process tagged lcg counting_agent,
    tagged_step [1; 2]%Z p = (Raise ValueError, p') /\
    agents (self p') = [0; 0]%Z /\
    calls p' = [CallAdd (tag 1); CallAdd (tag 2); CallSample (Raise ValueError)].
Proof.
  intros p.
  destruct (@step_failing_draw tagged lcg counting_agent lcg_without_replacement p
              [1; 2]%Z [1; 2]%Z [1; 2]%Z [1; 2]%Z [false; false])
    as (p' & Hrun & _ & Hags & Hcalls & _);
    try reflexivity.
  - vm_compute. discriminate.
  - vm_compute. intros [_ H]. apply H. reflexivity.
  - exists p'. split; [exact Hrun |]. split; [exact Hags | exact Hcalls].
Defined.

(** X12.  Whatever its arguments and whether it returns or raises, [step]
    never makes the buffer shorter and never changes the threshold: once the
    buffer holds more than [minsamples_before_train] transitions it does so
    after every later call. *)
Theorem step_never_leaves_training :
  forall (Sp : Spaces) (R : RandomModule) (Ag : AgentClass)
         (p : Process) (ss : list State) (aa : list Action) (rr : list Reward)
         (ss' : list State) (dd : list bool),
    let p' := snd (MADDPG_step ss aa rr ss' dd p) in
    (ReplayBuffer_len (memory (self p)) <= ReplayBuffer_len (memory (self p')))%Z /\
    minsamples_before_train (self p') = minsamples_before_train (self p) /\
    ((ReplayBuffer_len (memory (self p)) > minsamples_before_train (self p))%Z ->
     (ReplayBuffer_len (memory (self p')) > minsamples_before_train (self p'))%Z).
Proof.
  intros Sp R Ag p ss aa rr ss' dd p'.
  assert (H : never_shrinks p p').
  { subst p'. unfold MADDPG_step, bind, gets. cbv beta iota.
    pose proof (for_each_frame never_shrinks (save_trajectory ss aa rr ss' dd)
                  never_shrinks_refl never_shrinks_trans
                  (save_trajectory_never_shrinks ss aa rr ss' dd)
                  (range (num_agents (self p))) p) as Hrec.
    destruct (for_each (range (num_agents (self p))) _ p) as [[[] | e] p1];
      simpl in *; [| exact Hrec].
    destruct (_ >? _)%Z; [| exact Hrec].
    eapply never_shrinks_trans; [exact Hrec |].
    apply (for_each_frame never_shrinks (fun _ : nat => learn_iteration)
             never_shrinks_refl never_shrinks_trans
             (fun _ => learn_iteration_never_shrinks)). }
  destruct H as [Hlen Ht]. repeat split; try assumption. lia.
Qed.

(** X13.  On a coordinator with [1 <= batch_size <= minsamples_before_train
    + 1], no call in a run of well-formed [step] calls raises, and the run
    makes [num_agents] calls of [learn] for each call that ended its
    recording phase above the threshold, and none for the others. *)
Theorem run_of_steps_learn_count :
  forall (Sp : Spaces) (R : RandomModule) (Ag : AgentClass),
    without_replacement R ->
    forall (cs : list StepCall) (p : Process),
      (1 <= rb_batch_size (memory (self p))
       <= minsamples_before_train (self p) + 1)%Z ->
      Forall (well_formed_call (num_agents (self p))) cs ->
      exists p' : Process,
        run_steps cs p = (Ok tt, p') /\
        memory (self p') = fold_left memory_after_call cs (memory (self p)) /\
        count_calls is_learn (calls p') =
        count_calls is_learn (calls p) +
        Z.to_nat (num_agents (self p)) *
        training_steps (minsamples_before_train (self p)) (memory (self p)) cs.
Proof.
  intros Sp R Ag Hcontract cs.
  induction cs as [| c cs IH]; intros p Hbatch Hwf.
  - exists p. simpl. split; [reflexivity |]. split; [reflexivity |].
    now rewrite Nat.mul_0_r, Nat.add_0_r.
  - inversion Hwf as [| c0 cs0 (H1 & H2 & H3 & H4 & H5) Hrest]; subst.
    destruct (MADDPG_step_fits (call_states c) (call_actions c) (call_rewards c)
                (call_next_states c) (call_dones c) p Hcontract H1 H2 H3 H4 H5)
      as (p1 & Hrun & Hkeep & Hcount).
    { intros Htrains. rewrite Z.gtb_ltb in Htrains. apply Z.ltb_lt in Htrains. lia. }
    destruct Hkeep as (Hn & _ & _ & Ht & Hmem & _).
    destruct (recorded_configuration (call_transitions c) p)
      as (Hn' & _ & Ht' & _ & Hb' & _).
    fold (call_transitions c) in Hmem, Hcount, Hn, Ht.
    assert (Hmem1 : memory (self p1) = memory_after_call (memory (self p)) c).
    { rewrite Hmem, recorded_eq. reflexivity. }
    destruct (IH p1) as (p' & Hrun' & Hmem' & Hcount').
    { rewrite Hmem1, Ht, Ht'. exact Hbatch. }
    { rewrite Hn, Hn'. exact Hrest. }
    exists p'. unfold run_steps in *. simpl. unfold bind. rewrite Hrun.
    split; [exact Hrun' |]. split; [now rewrite Hmem', Hmem1 |].
    rewrite Hcount', Hcount, Hmem1, Hn, Hn', Ht, Ht'.
    assert (Hsame : ReplayBuffer_len (memory (self (recorded (call_transitions c) p)))
                    = ReplayBuffer_len (memory_after_call (memory (self p)) c)).
    { rewrite recorded_eq. reflexivity. }
    rewrite Hsame.
    destruct (ReplayBuffer_len (memory_after_call (memory (self p)) c)
              >? minsamples_before_train (self p))%Z; ring.
Qed.

Lemma run_of_steps_learn_count_witness :
  let p := mkProcess (Ag := counting_agent)
             (mkMADDPG (Ag := counting_agent) 2 4 99%Z 7 [0; 0]%Z
                (mkReplayBuffer (Sp := tagged) None 2 (mkDeque [] 10) 4))
             (mkGlobals (R := lcg) 12345%Z []) [] in
  let call := fun t : Z =>
    mkStepCall (Sp := tagged) [t; t] [t; t] [t; t] [t; t] [false; false] in
  exists p' : @Process tagged lcg counting_agent,
    run_steps [call 1; call 2; call 3; call 4; call 5]%Z p = (Ok tt, p') /\
    count_calls is_learn (calls p') = 4.
Proof.
  intros p call.
  destruct (@run_of_steps_learn_count tagged lcg counting_agent
              lcg_without_replacement
              [call 1; call 2; call 3; call 4; call 5]%Z p)
    as (p' & Hrun & _ & Hcount).
  - vm_compute. split; discriminate.
  - repeat constructor.
  - exists p'. split; [exact Hrun |].
    etransitivity; [exact Hcount | reflexivity].
Defined.

(** ** [saveModelParams] *)

Module PathFacts.

Import String.

Lemma append_length (s t : string) :
  String.length (s ++ t) = String.length s + String.length t.
Proof.
  induction s as [| c s IH]; simpl; [reflexivity | now rewrite IH].
Qed.

Lemma append_inv_head (pre s t : string) :
  (pre ++ s)%string = (pre ++ t)%string -> s = t.
Proof.
  induction pre as [| c pre IH]; simpl; intros H.
  - exact H.
  - injection H as H. apply IH. exact H.
Qed.

Lemma append_inv_tail (suf : string) : forall s t : string,
  (s ++ suf)%string = (t ++ suf)%string -> s = t.
Proof.
  induction s as [| c s IH]; intros t H.
  - destruct t as [| c' t]; [reflexivity |].
    apply (f_equal String.length) in H. simpl in H.
    rewrite append_length in H. lia.
  - destruct t as [| c' t].
    + apply (f_equal String.length) in H. simpl in H.
      rewrite append_length in H. lia.
    + simpl in H. injection H as Hc H. subst c'. f_equal. apply IH. exact H.
Qed.

Lemma decimal_inj (i j : nat) : Paths.decimal i = Paths.decimal j -> i = j.
Proof.
  unfold Paths.decimal. intros H.
  apply DecimalNat.Unsigned.to_uint_inj.
  assert (Hs : Some (Nat.to_uint i) = Some (Nat.to_uint j)).
  { rewrite <- !DecimalString.NilEmpty.usu, H. reflexivity. }
  now injection Hs.
Qed.

(** Two agents never share a file name, and no actor file is a critic
    file. *)
Lemma actor_path_inj (i j : nat) : Paths.actor_path i = Paths.actor_path j -> i = j.
Proof.
  unfold Paths.actor_path. intros H.
  apply append_inv_head, append_inv_tail in H. now apply decimal_inj.
Qed.

Lemma critic_path_inj (i j : nat) : Paths.critic_path i = Paths.critic_path j -> i = j.
Proof.
  unfold Paths.critic_path. intros H.
  apply append_inv_head, append_inv_tail in H. now apply decimal_inj.
Qed.

Lemma actor_not_critic (i j : nat) : Paths.actor_path i <> Paths.critic_path j.
Proof.
  unfold Paths.actor_path, Paths.critic_path. simpl. intros H. discriminate H.
Qed.

End PathFacts.

Section SavingFacts.

Context {Sp : Spaces} {R : RandomModule} {Ag : AgentClass}
        {Nets : AgentNetworks} {St : Storage StateDict}.

Hypothesis storage_overwrites : overwrites St.

Lemma save_loop_spec (ags : list Agent) : forall (i0 : nat) (d d' : Disk),
  save_loop i0 ags d = (Written, d') ->
  (forall (j : nat) (agent : Agent),
      nth_error ags j = Some agent ->
      disk_read d' (Paths.actor_path (i0 + j)) = Some (actor_local_state_dict agent) /\
      disk_read d' (Paths.critic_path (i0 + j)) = Some (critic_local_state_dict agent)) /\
  (forall q : String.string,
      (forall j : nat, j < length ags ->
         q <> Paths.actor_path (i0 + j) /\ q <> Paths.critic_path (i0 + j)) ->
      disk_read d' q = disk_read d q).
Proof.
  induction ags as [| agent0 rest IH]; intros i0 d d' Hrun; simpl in Hrun.
  - inversion Hrun; subst. split.
    + intros j agent Hj. destruct j; discriminate.
    + reflexivity.
  - destruct (torch_save (actor_local_state_dict agent0) (Paths.actor_path i0) d)
      as [[] d1] eqn:Hactor; [| discriminate].
    destruct (torch_save (critic_local_state_dict agent0) (Paths.critic_path i0) d1)
      as [[] d2] eqn:Hcritic; [| discriminate].
    destruct (storage_overwrites _ _ _ Hactor) as [Ha Hothers_a].
    destruct (storage_overwrites _ _ _ Hcritic) as [Hc Hothers_c].
    destruct (IH (S i0) d2 d' Hrun) as [Hfiles Hframe].
    assert (Hlater : forall q : String.string,
               (q = Paths.actor_path i0 \/ q = Paths.critic_path i0) ->
               disk_read d' q = disk_read d2 q).
    { intros q Hq. apply Hframe. intros j Hj. split; intros Heq.
      - destruct Hq as [-> | ->].
        + apply PathFacts.actor_path_inj in Heq. lia.
        + symmetry in Heq. now apply PathFacts.actor_not_critic in Heq.
      - destruct Hq as [-> | ->].
        + now apply PathFacts.actor_not_critic in Heq.
        + apply PathFacts.critic_path_inj in Heq. lia. }
    split.
    + intros j agent Hj. destruct j as [| j]; simpl in Hj.
      * inversion Hj; subst agent. rewrite Nat.add_0_r.
        rewrite !Hlater by auto. split; [| exact Hc].
        rewrite Hothers_c; [exact Ha | apply PathFacts.actor_not_critic].
      * replace (i0 + S j) with (S i0 + j) by lia. now apply Hfiles.
    + intros q Hq.
      rewrite Hframe.
      * rewrite Hothers_c, Hothers_a; [reflexivity | |].
        -- specialize (Hq 0 (Nat.lt_0_succ _)). rewrite Nat.add_0_r in Hq. apply Hq.
        -- specialize (Hq 0 (Nat.lt_0_succ _)). rewrite Nat.add_0_r in Hq. apply Hq.
      * intros j Hj. replace (S i0 + j) with (i0 + S j) by lia.
        apply Hq. simpl. lia.
Qed.

End SavingFacts.

Lemma small_overwrites : overwrites small_storage.
Proof.
  intros obj path d d' H. simpl in H. unfold small_save in H.
  destruct (free d) as [| n]; [discriminate |].
  inversion H; subst. simpl. unfold small_read. simpl. split.
  - now rewrite String.eqb_refl.
  - intros q Hq.
    replace (String.eqb path q) with false; [reflexivity |].
    symmetry. apply String.eqb_neq. congruence.
Qed.

(** X14.  When [saveModelParams] returns, the storage holds, for every
    agent index [i], the actor parameters of agent [i] under
    [actor_agent_i.pth] and its critic parameters under
    [critic_agent_i.pth], and every other path is as it was before the
    call: no file of one agent is overwritten by a file of another. *)
Theorem save_writes_each_agent :
  forall (Sp : Spaces) (R : RandomModule) (Ag : AgentClass)
         (Nets : AgentNetworks) (St : Storage StateDict),
    overwrites St ->
    forall (p : Process) (d d' : Disk),
      MADDPG_saveModelParams p d = (Written, d') ->
      (forall (i : nat) (agent : Agent),
          nth_error (agents (self p)) i = Some agent ->
          disk_read d' (Paths.actor_path i) = Some (actor_local_state_dict agent) /\
          disk_read d' (Paths.critic_path i) = Some (critic_local_state_dict agent)) /\
      (forall q : String.string,
          (forall i : nat, i < length (agents (self p)) ->
             q <> Paths.actor_path i /\ q <> Paths.critic_path i) ->
          disk_read d' q = disk_read d q).
Proof.
  intros Sp R Ag Nets St Hst p d d' Hrun.
  unfold MADDPG_saveModelParams in Hrun.
  exact (save_loop_spec Hst (agents (self p)) 0 d Hrun).
Qed.

Lemma save_writes_each_agent_witness :
  let p := mkProcess (Ag := counting_agent)
             (mkMADDPG (Ag := counting_agent) 2 4 99%Z 7 [5; 8]%Z
                (mkReplayBuffer (Sp := tagged) None 2 (mkDeque [] 10) 4))
             (mkGlobals (R := lcg) 12345%Z []) [] in
  let d := mkSmallDisk 4 [] in
  let saved := MADDPG_saveModelParams (Nets := counting_networks)
                 (St := small_storage) p d in
  fst saved = Written /\
  small_read (snd saved) (Paths.actor_path 1) = Some 8%Z /\
  small_read (snd saved) (Paths.critic_path 0) = Some (-5)%Z.
Proof.
  intros p d saved. split; [reflexivity |].
  destruct (@save_writes_each_agent tagged lcg counting_agent counting_networks
              small_storage small_overwrites p d (snd saved) eq_refl)
    as [Hfiles _].
  split.
  - exact (proj1 (Hfiles 1 8%Z eq_refl)).
  - exact (proj2 (Hfiles 0 5%Z eq_refl)).
Defined.
